(** * gllmc: the local inference pipeline

    A shallow embedding of the tokenizers, the tensor builder and the
    greedy generation loop of the Go sources, with the properties the
    specification states about them.

    Go values are modelled as follows: [int], [int64] and [uint32] as [Z]
    (with the wrap-around written out where the code computes on them),
    [string] as a byte string ([string] of [ascii]), slices as lists,
    [map[string]int] as [gmap string Z], [float32] and [float64] as IEEE
    binary32 and binary64 numbers ([spec_float] at the two precisions), a
    run-time panic as [None] or as a [Panic] outcome. *)

From Stdlib Require Import ZArith String Ascii List Lia SpecFloat.
From stdpp Require Import base option list gmap strings.
Import ListNotations.

Local Open Scope string_scope.
Local Open Scope list_scope.
Local Open Scope Z_scope.

(** ** Go primitives *)

Module Go.

(** [s[:n]] on a byte string. *)
Fixpoint str_take (n : nat) (s : string) : string :=
  match n, s with
  | S n', String c s' => String c (str_take n' s')
  | _, _ => EmptyString
  end.

(** [s[n:]] on a byte string. *)
Fixpoint str_drop (n : nat) (s : string) : string :=
  match n, s with
  | S n', String _ s' => str_drop n' s'
  | _, _ => s
  end.

(** [strings.HasPrefix(s, p)]:
    [len(s) >= len(p) && s[:len(p)] == p]. *)
Definition HasPrefix (s p : string) : bool :=
  (String.length p <=? String.length s)%nat
  && String.eqb (str_take (String.length p) s) p.

(** [strings.Join(parts, sep)]. *)
Fixpoint Join (parts : list string) (sep : string) : string :=
  match parts with
  | [] => ""
  | [p] => p
  | p :: rest => p +:+ sep +:+ Join rest sep
  end.

(** A 64-bit signed result of an [int] computation. *)
Definition wrap64 (z : Z) : Z := (z + 2 ^ 63) mod 2 ^ 64 - 2 ^ 63.

(** A [uint32] result. *)
Definition wrap32u (z : Z) : Z := z mod 2 ^ 32.

(** [v[lo:hi]] on a slice whose capacity is its length: [None] is the
    run-time panic on bounds out of range. *)
Definition slice {A} (v : list A) (lo hi : Z) : option (list A) :=
  if (0 <=? lo) && (lo <=? hi) && (hi <=? Z.of_nat (length v))
  then Some (take (Z.to_nat (hi - lo)) (drop (Z.to_nat lo) v))
  else None.

(** [make([]T, n)] with zero value [z]: a negative length panics. *)
Definition make {A} (z : A) (n : Z) : option (list A) :=
  if n <? 0 then None else Some (replicate (Z.to_nat n) z).

(** [copy(dst[off:off+n], src)] on a destination that holds the window:
    the first [min(n, len(src))] elements of [src] overwrite the window. *)
Definition copy {A} (dst : list A) (off n : nat) (src : list A) : list A :=
  let k := (n `min` length src)%nat in
  take off dst ++ take k src ++ drop (off + k) dst.

(** The byte of a string as a number. *)
Definition byte (c : ascii) : Z := Z.of_N (N_of_ascii c).
Definition of_byte (b : Z) : ascii := ascii_of_N (Z.to_N b).

(** *** UTF-8, as [for _, r := range s] decodes it and as
    [strings.Builder.WriteRune] encodes it *)

Definition RuneError : Z := 0xFFFD.

(** Size of the sequence a leading byte announces and the range accepted
    for its second byte; [None] for a byte that cannot lead a multi-byte
    sequence. *)
Definition utf8_first (b0 : Z) : option (nat * Z * Z) :=
  if (0xC2 <=? b0) && (b0 <=? 0xDF) then Some (2%nat, 0x80, 0xBF)
  else if b0 =? 0xE0 then Some (3%nat, 0xA0, 0xBF)
  else if (0xE1 <=? b0) && (b0 <=? 0xEC) then Some (3%nat, 0x80, 0xBF)
  else if b0 =? 0xED then Some (3%nat, 0x80, 0x9F)
  else if (0xEE <=? b0) && (b0 <=? 0xEF) then Some (3%nat, 0x80, 0xBF)
  else if b0 =? 0xF0 then Some (4%nat, 0x90, 0xBF)
  else if (0xF1 <=? b0) && (b0 <=? 0xF3) then Some (4%nat, 0x80, 0xBF)
  else if b0 =? 0xF4 then Some (4%nat, 0x80, 0x8F)
  else None.

Definition utf8_cont (b : Z) : bool := (0x80 <=? b) && (b <=? 0xBF).

(** The runes of a string in order; an invalid byte is the rune
    [RuneError] of width one. *)
Fixpoint utf8_decode (s : string) : list Z :=
  match s with
  | EmptyString => []
  | String c0 s1 =>
      let b0 := byte c0 in
      if b0 <? 0x80 then b0 :: utf8_decode s1
      else
        let bad := RuneError :: utf8_decode s1 in
        match utf8_first b0, s1 with
        | Some (sz, lo, hi), String c1 s2 =>
            let b1 := byte c1 in
            if (lo <=? b1) && (b1 <=? hi) then
              if (sz =? 2)%nat
              then Z.lor (Z.shiftl (Z.land b0 0x1F) 6) (Z.land b1 0x3F)
                   :: utf8_decode s2
              else
                match s2 with
                | String c2 s3 =>
                    let b2 := byte c2 in
                    if utf8_cont b2 then
                      if (sz =? 3)%nat
                      then Z.lor (Z.shiftl (Z.land b0 0x0F) 12)
                             (Z.lor (Z.shiftl (Z.land b1 0x3F) 6) (Z.land b2 0x3F))
                           :: utf8_decode s3
                      else
                        match s3 with
                        | String c3 s4 =>
                            let b3 := byte c3 in
                            if utf8_cont b3
                            then Z.lor (Z.shiftl (Z.land b0 0x07) 18)
                                   (Z.lor (Z.shiftl (Z.land b1 0x3F) 12)
                                      (Z.lor (Z.shiftl (Z.land b2 0x3F) 6)
                                         (Z.land b3 0x3F)))
                                 :: utf8_decode s4
                            else bad
                        | EmptyString => bad
                        end
                    else bad
                | EmptyString => bad
                end
            else bad
        | _, _ => bad
        end
  end.

Definition str_of_bytes (bs : list Z) : string :=
  fold_right (fun b s => String (of_byte b) s) EmptyString bs.

(** The UTF-8 encoding of a rune; a surrogate or a value out of range is
    encoded as [RuneError]. *)
Definition utf8_encode (r : Z) : string :=
  if (0 <=? r) && (r <? 0x80) then str_of_bytes [r]
  else if (0 <=? r) && (r <? 0x800)
  then str_of_bytes [Z.lor 0xC0 (Z.shiftr r 6); Z.lor 0x80 (Z.land r 0x3F)]
  else if (r <? 0) || (0x10FFFF <? r) || ((0xD800 <=? r) && (r <=? 0xDFFF))
  then str_of_bytes [0xEF; 0xBF; 0xBD]
  else if r <? 0x10000
  then str_of_bytes [Z.lor 0xE0 (Z.shiftr r 12);
                     Z.lor 0x80 (Z.land (Z.shiftr r 6) 0x3F);
                     Z.lor 0x80 (Z.land r 0x3F)]
  else str_of_bytes [Z.lor 0xF0 (Z.shiftr r 18);
                     Z.lor 0x80 (Z.land (Z.shiftr r 12) 0x3F);
                     Z.lor 0x80 (Z.land (Z.shiftr r 6) 0x3F);
                     Z.lor 0x80 (Z.land r 0x3F)].

(** [strings.Split(s, sep)] for a separator of one byte. *)
Fixpoint Split1 (s : string) (sep : ascii) (cur : string) : list string :=
  match s with
  | EmptyString => [cur]
  | String c s' =>
      if Ascii.eqb c sep then cur :: Split1 s' sep ""
      else Split1 s' sep (cur +:+ String c "")
  end.

(** *** The standard library the services call

    The Unicode tables and the text functions built on them belong to
    Go's standard library, not to this repository: they are the fields of
    a class, and every theorem holds for all instances. *)
Class GoStd := {
  (** [strings.ToLower] *)
  strings_ToLower : string -> string;
  (** [strings.Fields] *)
  strings_Fields : string -> list string;
  (** [strings.TrimSpace] *)
  strings_TrimSpace : string -> string;
  (** [unicode.IsLetter] and [unicode.IsDigit], on runes *)
  unicode_IsLetter : Z -> bool;
  unicode_IsDigit : Z -> bool;
  (** [regexp.MustCompile(`\pL+|\pN+`).FindAllString(s, -1)] *)
  wordRE_FindAllString : string -> list string
}.

End Go.

(** ** The WordPiece tokenizer of the embedding service *)

Module WordPiece.
Import Go.

Record wordPiece := {
  vocab : gmap string Z;
  unkID : Z;
  clsID : Z;
  sepID : Z;
  padID : Z
}.

(** The inner loop of [tokenizeWord]: [end] runs from its start value down
    to 1; the candidate is the prefix [tok[:end]], with the continuation
    marker in front when [out] already holds a piece. *)
Fixpoint search (w : wordPiece) (out : list Z) (tok : string) (end_ : nat)
  : option (string * Z) :=
  match end_ with
  | O => None
  | S end' =>
      let sub := str_take end_ tok in
      let candidate := if (0 <? Z.of_nat (length out)) then "##" +:+ sub else sub in
      match vocab w !! candidate with
      | Some vid => Some (candidate, vid)
      | None => search w out tok end'
      end
  end.

(** What one iteration of the outer loop does. *)
Inductive iteration :=
| Break (out : list Z)
| Next (tok : string) (out : list Z).

(** The body of the outer loop of [tokenizeWord], entered with
    [len(tok) > 0]. *)
Definition body (w : wordPiece) (tok : string) (out : list Z) : iteration :=
  match search w out tok (String.length tok) with
  | None => Break (out ++ [unkID w])
  | Some (cur, id) =>
      let out := out ++ [id] in
      let cur := if HasPrefix cur "##" then str_drop 2 cur else cur in
      Next (str_drop (String.length cur) tok) out
  end.

(** The number of bytes an iteration removes when it matched the prefix
    of length [n]: the marker is stripped from what was looked up, also
    when the first piece, looked up as it is, starts with the marker. *)
Definition removed (out : list Z) (tok : string) (n : nat) : nat :=
  if bool_decide (out = []) && HasPrefix (str_take n tok) "##"
  then (n - 2)%nat else n.

(** The outer loop [for len(tok) > 0]; [None] when the iterations allowed
    by [fuel] do not reach the end of the loop. *)
Fixpoint loop (fuel : nat) (w : wordPiece) (tok : string) (out : list Z)
  : option (list Z) :=
  match tok with
  | EmptyString => Some out
  | _ =>
      match fuel with
      | O => None
      | S fuel' =>
          match body w tok out with
          | Break out' => Some out'
          | Next tok' out' => loop fuel' w tok' out'
          end
      end
  end.

Definition tokenizeWord_fuel (fuel : nat) (w : wordPiece) (tok : string)
  : option (list Z) :=
  if String.eqb tok "" then Some [] else loop fuel w tok [].

(** [tokenizeWord]: one more iteration than the word has bytes is always
    enough (theorem [tokenizeWord_terminates]). *)
Definition tokenizeWord (w : wordPiece) (tok : string) : list Z :=
  default [] (tokenizeWord_fuel (S (String.length tok)) w tok).

(** The modelled fields of the embedding service: the inference session
    plays no part in building the tensors. *)
Record miniLMOnnx := {
  tokenizer : wordPiece;
  maxLen : Z
}.

(** [NewMiniLM] fixes the maximum length; the tokenizer comes from the
    vocabulary file. *)
Definition NewMiniLM (tk : wordPiece) : miniLMOnnx :=
  {| tokenizer := tk; maxLen := 128 |}.

Section WithGoStd.
Context `{GoStd}.

(** [loadWordPiece] on the content of the vocabulary file: the id of a
    token is the index of the first line that holds it. *)
Definition loadWordPiece (b : string) : wordPiece :=
  let lines := Split1 b "010"%char "" in
  let vp :=
    foldl (fun (vp : gmap string Z) '(i, line) =>
             let tok := strings_TrimSpace line in
             if String.eqb tok "" then vp
             else match vp !! tok with
                  | Some _ => vp
                  | None => <[tok := Z.of_nat i]> vp
                  end)
          ∅ (imap pair lines) in
  let get (tok : string) (def : Z) : Z := default def (vp !! tok) in
  {| vocab := vp;
     unkID := get "[UNK]" 100;
     clsID := get "[CLS]" 101;
     sepID := get "[SEP]" 102;
     padID := get "[PAD]" 0 |}.

(** The closure [flush] of [basicTokens], on the builder [b] and the
    result [out]. *)
Definition flush (b : string) (out : list string) : string * list string :=
  if (0 <? String.length b)%nat then ("", out ++ [b]) else (b, out).

Fixpoint basicTokens_loop (rs : list Z) (b : string) (out : list string)
  : list string :=
  match rs with
  | [] => snd (flush b out)
  | r :: rs' =>
      if unicode_IsLetter r || unicode_IsDigit r
      then basicTokens_loop rs' (b +:+ utf8_encode r) out
      else let '(b', out') := flush b out in basicTokens_loop rs' b' out'
  end.

Definition basicTokens (s : string) : list string :=
  let s := strings_ToLower s in
  basicTokens_loop (utf8_decode s) "" [].

(** The first lines of [encode]: the pieces of all basic tokens, wrapped
    in the sequence-start and the separator ids. *)
Definition wrapped (m : miniLMOnnx) (text : string) : list Z :=
  let toks := basicTokens text in
  let pieces :=
    foldl (fun pieces w => pieces ++ tokenizeWord (tokenizer m) w) [] toks in
  let seq := [clsID (tokenizer m)] in
  let seq := seq ++ pieces in
  seq ++ [sepID (tokenizer m)].

(** [encode]: [None] is the panic of a negative [maxLen]. *)
Definition encode (m : miniLMOnnx) (text : string) (maxLen : Z)
  : option (list Z * list Z) :=
  let seq := wrapped m text in
  seq ← (if Z.of_nat (length seq) >? maxLen then slice seq 0 maxLen else Some seq);
  ids ← make 0 maxLen;
  mask ← make 0 maxLen;
  let '(ids, mask) :=
    foldl (fun '(ids, mask) '(i, v) => (<[i := v]> ids, <[i := 1]> mask))
          (ids, mask) (imap pair seq) in
  let ids :=
    foldl (fun ids i => <[i := 0]> ids) ids
          (List.seq (length seq) (Z.to_nat maxLen - length seq)) in
  Some (ids, mask).

Definition batchTokenize (m : miniLMOnnx) (texts : list string) (maxLen : Z)
  : option (list (list Z) * list (list Z)) :=
  rows ← mapM (fun t => encode m t maxLen) texts;
  Some (rows.*1, rows.*2).

(** What [Embed] has in hand when it runs the session: nothing for an
    empty batch, which returns at once, and else the three input tensors,
    each of shape [(len(inputs), m.maxLen)] and flattened row by row:
    ids, attention mask and token-type ids. *)
Inductive prepared :=
| NoInput
| Tensors (inputIDs attMask ttiData : list Z).

(** The first half of [Embed], up to the call of the session; [None] is
    a panic. *)
Definition Embed_tensors (m : miniLMOnnx) (inputs : list string)
  : option prepared :=
  if (length inputs =? 0)%nat then Some NoInput
  else
    '(ids, masks) ← batchTokenize m inputs (maxLen m);
    let bsz := length inputs in
    let seq := Z.to_nat (maxLen m) in
    inputIDs ← make 0 (Z.of_nat bsz * maxLen m);
    attMask ← make 0 (Z.of_nat bsz * maxLen m);
    let '(inputIDs, attMask) :=
      foldl (fun '(inputIDs, attMask) i =>
               (copy inputIDs (i * seq) seq (default [] (ids !! i)),
                copy attMask (i * seq) seq (default [] (masks !! i))))
            (inputIDs, attMask) (List.seq 0 bsz) in
    ttiData ← make 0 (Z.of_nat bsz * maxLen m);
    Some (Tensors inputIDs attMask ttiData).

End WithGoStd.

End WordPiece.

(** *** WordPiece as the specification words it

    [WordPieces w first rest out]: [out] is the piece-id sequence of the
    remaining substring [rest]; [first] tells whether the next piece is
    the first of its token. *)

Module WordPieceSpec.
Import Go WordPiece.

(** The string looked up for a piece: as it is for the first piece, with
    the continuation marker in front for every later one. *)
Definition piece (first : bool) (sub : string) : string :=
  if first then sub else "##" +:+ sub.

Inductive WordPieces (w : wordPiece) : bool -> string -> list Z -> Prop :=
| WP_end first :
    WordPieces w first "" []
| WP_unknown first rest :
    rest <> "" ->
    (forall n, (1 <= n <= String.length rest)%nat ->
               vocab w !! piece first (str_take n rest) = None) ->
    WordPieces w first rest [unkID w]
| WP_piece first rest n id out :
    (1 <= n <= String.length rest)%nat ->
    vocab w !! piece first (str_take n rest) = Some id ->
    (forall m, (n < m <= String.length rest)%nat ->
               vocab w !! piece first (str_take m rest) = None) ->
    WordPieces w false (str_drop n rest) out ->
    WordPieces w first rest (id :: out).

(** A string whose first byte, if any, is not '#'. *)
Definition starts_clean (s : string) : Prop :=
  match s with
  | String c _ => c <> "#"%char
  | EmptyString => True
  end.

End WordPieceSpec.

(** ** IEEE arithmetic of [float32] and [float64] *)

Module Float.

Definition float32 := spec_float.
Definition float64 := spec_float.

Definition f32_zero : float32 := S754_zero false.
Definition f32_one : float32 := S754_finite false 8388608 (-23).
Definition f32_neg_one : float32 := S754_finite true 8388608 (-23).
(** [float32(-1e30)]: the binary32 number nearest to [-1e30]. *)
Definition f32_neg_1e30 : float32 := S754_finite true 13234890 76.

Definition f64_zero : float64 := S754_zero false.
Definition f64_one : float64 := S754_finite false 4503599627370496 (-52).

Definition f32_add : float32 -> float32 -> float32 := SFadd 24 128.
Definition f32_mul : float32 -> float32 -> float32 := SFmul 24 128.
Definition f64_add : float64 -> float64 -> float64 := SFadd 53 1024.
Definition f64_div : float64 -> float64 -> float64 := SFdiv 53 1024.
Definition f64_sqrt : float64 -> float64 := SFsqrt 53 1024.

(** [x > y] *)
Definition gt (x y : spec_float) : bool := SFltb y x.

(** [float64(x)] of a [float32]: exact. *)
Definition f64_of_f32 (x : float32) : float64 :=
  match x with
  | S754_finite s m e => binary_round 53 1024 s m e
  | _ => x
  end.

(** [float32(x)] of a [float64]: rounded to nearest, ties to even. *)
Definition f32_of_f64 (x : float64) : float32 :=
  match x with
  | S754_finite s m e => binary_round 24 128 s m e
  | _ => x
  end.

End Float.

(** ** The generation service *)

Module Qwen.
Import Go Float.

(** *** The tokenizer by direct lookup *)

Record bpeTokenizer := {
  vocab : gmap string Z;
  id2token : list string;
  eosTokenID : Z
}.

Definition Encode `{GoStd} (t : bpeTokenizer) (s : string) : list Z :=
  let parts := strings_Fields s in
  let ids :=
    foldl (fun ids p =>
             match vocab t !! p with
             | Some id => ids ++ [id]
             | None => ids ++ [0]
             end) [] parts in
  if (length ids =? 0)%nat then [0] else ids.

Definition Decode (t : bpeTokenizer) (ids : list Z) : string :=
  let parts :=
    foldl (fun parts i =>
             if (0 <=? i) && (i <? Z.of_nat (length (id2token t)))
                && negb (String.eqb (default "" (id2token t !! Z.to_nat i)) "")
             then parts ++ [default "" (id2token t !! Z.to_nat i)]
             else parts) [] ids in
  Join parts " ".

Definition IsEOS (t : bpeTokenizer) (id : Z) : bool :=
  (0 <=? eosTokenID t) && (id =? eosTokenID t).

Fixpoint argmax_loop (v : list float32) (i : Z) (max : float32) (idx : Z) : Z :=
  match v with
  | [] => idx
  | x :: v' =>
      if gt x max then argmax_loop v' (i + 1) x i
      else argmax_loop v' (i + 1) max idx
  end.

Definition argmax (v : list float32) : Z :=
  argmax_loop v 0 f32_neg_1e30 0.

(** *** The inference runtime, an external collaborator *)

(** What [ctx.Err()] is once [ctx.Done()] is closed: never nil. *)
Inductive ctx_error := Canceled | DeadlineExceeded.

Inductive error :=
| ErrRuntime (msg : string)         (* an error of the ONNX runtime *)
| ErrLogitsType                      (* "unexpected logits type" *)
| ErrLogitsShape (shape : list Z)    (* "unexpected logits shape: %v" *)
| ErrContext (e : ctx_error).        (* [ctx.Err()] *)

(** An output value of the session. *)
Inductive Value :=
| TensorFloat32 (shape : list Z) (data : list float32)
| OtherValue.

(** [ort.NewTensor[int64](shape, data)] gives the error, if any;
    [session.Run] takes the data of [input_ids], [attention_mask] and
    [position_ids] and gives the error or the value allocated for
    [logits]. *)
Record Runtime := {
  NewTensor : list Z -> list Z -> option error;
  Run : list Z -> list Z -> list Z -> error + Value
}.

Record QwenONNX := {
  session : Runtime;
  tok : bpeTokenizer;
  maxLen : Z
}.

(** [NewQwenONNX], once the files are there and the session is created. *)
Definition NewQwenONNX (rt : Runtime) (t : bpeTokenizer) : QwenONNX :=
  {| session := rt; tok := t; maxLen := 512 |}.

(** The context, polled once per iteration of the streaming loop:
    [ctx t] is [Some e] when [ctx.Done()] is closed at the poll of
    iteration [t], [e] being [ctx.Err()]. *)
Definition Context := nat -> option ctx_error.

(** *** The state of a generation loop

    [ids] and [outText] are the variables of the Go functions; [runs]
    records the inputs of every [session.Run] so far and [cbs] the
    arguments of every call of the callback, oldest first. *)
Record State := {
  ids : list Z;
  outText : string;
  runs : list (list Z * list Z * list Z);
  cbs : list string
}.

Definition set_ids (st : State) (v : list Z) : State :=
  {| ids := v; outText := outText st; runs := runs st; cbs := cbs st |}.
Definition set_outText (st : State) (v : string) : State :=
  {| ids := ids st; outText := v; runs := runs st; cbs := cbs st |}.
Definition log_run (st : State) (r : list Z * list Z * list Z) : State :=
  {| ids := ids st; outText := outText st; runs := runs st ++ [r]; cbs := cbs st |}.
Definition log_cb (st : State) (s : string) : State :=
  {| ids := ids st; outText := outText st; runs := runs st; cbs := cbs st ++ [s] |}.

(** What a Go function gives back. *)
Inductive outcome :=
| Return (s : string) (err : option error)
| Panic.

(** How an iteration of a loop ends: at the next iteration, at [break],
    or out of the function. *)
Inductive status :=
| Continue (st : State)
| BreakLoop (st : State)
| Exit (st : State) (o : outcome).

Definition state_of (s : status) : State :=
  match s with
  | Continue st | BreakLoop st | Exit st _ => st
  end.

(** The forward pass of one iteration, common to both loops: tensors,
    run, checks of the logits and greedy choice at the last position.
    [onerr] is the string an error return carries. *)
Definition forward (q : QwenONNX) (st : State) (onerr : string)
  : State * (outcome + Z) :=
  let mask := (fun _ => 1) <$> ids st in
  let pos := imap (fun i _ => Z.of_nat i) (ids st) in
  let shape := [1; Z.of_nat (length (ids st))] in
  match NewTensor (session q) shape (ids st) with
  | Some e => (st, inl (Return onerr (Some e)))
  | None =>
  match NewTensor (session q) shape mask with
  | Some e => (st, inl (Return onerr (Some e)))
  | None =>
  match NewTensor (session q) shape pos with
  | Some e => (st, inl (Return onerr (Some e)))
  | None =>
      let st := log_run st (ids st, mask, pos) in
      match Run (session q) (ids st) mask pos with
      | inl e => (st, inl (Return onerr (Some e)))
      | inr OtherValue => (st, inl (Return onerr (Some ErrLogitsType)))
      | inr (TensorFloat32 shape data) =>
          match shape with
          | [_; s1; s2] =>
              let vocab := s2 in
              let start := wrap64 (vocab * wrap64 (s1 - 1)) in
              match slice data start (wrap64 (start + vocab)) with
              | None => (st, inl Panic)
              | Some row => (st, inr (argmax row))
              end
          | _ => (st, inl (Return onerr (Some (ErrLogitsShape shape))))
          end
      end
  end end end.

(** One iteration of the loop of [Generate]. *)
Definition Generate_body (q : QwenONNX) (t : nat) (st : State) : status :=
  match forward q st "" with
  | (st, inl o) => Exit st o
  | (st, inr nextID) =>
      let ids := ids st ++ [nextID] in
      let ids := if Z.of_nat (length ids) >? maxLen q then drop 1 ids else ids in
      let st := set_ids st ids in
      if IsEOS (tok q) nextID then BreakLoop st else Continue st
  end.

(** One iteration of the loop of [GenerateWithCallback]; [cb] tells
    whether the callback is not nil. *)
Definition GenerateWithCallback_body (q : QwenONNX) (ctx : Context) (cb : bool)
  (t : nat) (st : State) : status :=
  match ctx t with
  | Some e => Exit st (Return (outText st) (Some (ErrContext e)))
  | None =>
      match forward q st (outText st) with
      | (st, inl o) => Exit st o
      | (st, inr nextID) =>
          let st := set_ids st (ids st ++ [nextID]) in
          if IsEOS (tok q) nextID then BreakLoop st
          else
            let st := set_outText st (Decode (tok q) (ids st)) in
            let st := if cb then log_cb st (outText st) else st in
            Continue st
      end
  end.

(** [for t := 0; t < n; t++ { body }], from iteration [t] on: the status
    after at most [n] iterations. *)
Fixpoint steps (body : nat -> State -> status) (n t : nat) (st : State) : status :=
  match n with
  | O => Continue st
  | S n' =>
      match body t st with
      | Continue st' => steps body n' (S t) st'
      | s => s
      end
  end.

(** [if maxTokens <= 0 { maxTokens = 64 }] *)
Definition budget (maxTokens : Z) : Z :=
  if maxTokens <=? 0 then 64 else maxTokens.

Section WithGoStd.
Context `{GoStd}.

(** The sequence the loops start from: the encoded prompt, its most
    recent [maxLen] ids when it is longer. [None] is the panic of the
    slice expression [ids[len(ids)-q.maxLen:]], which a negative [maxLen]
    raises (a difference that wraps around is out of range as well, the
    length of a slice being below [2^63]). *)
Definition start (q : QwenONNX) (prompt : string) : option State :=
  let ids := Encode (tok q) prompt in
  ids ← (if Z.of_nat (length ids) >? maxLen q
         then slice ids (Z.of_nat (length ids) - maxLen q)
                    (Z.of_nat (length ids))
         else Some ids);
  Some {| ids := ids; outText := ""; runs := []; cbs := [] |}.

Definition no_state : State := {| ids := []; outText := ""; runs := []; cbs := [] |}.

(** [Generate], with the state it ends in; the context it is given is
    never looked at. *)
Definition Generate_run (q : QwenONNX) (ctx : Context) (prompt : string)
  (maxTokens : Z) : State * outcome :=
  let maxTokens := budget maxTokens in
  match start q prompt with
  | None => (no_state, Panic)
  | Some st =>
      match steps (Generate_body q) (Z.to_nat maxTokens) 0 st with
      | Continue st | BreakLoop st => (st, Return (Decode (tok q) (ids st)) None)
      | Exit st o => (st, o)
      end
  end.

Definition Generate (q : QwenONNX) (ctx : Context) (prompt : string)
  (maxTokens : Z) : outcome :=
  snd (Generate_run q ctx prompt maxTokens).

(** [GenerateWithCallback], with the state it ends in. *)
Definition GenerateWithCallback_run (q : QwenONNX) (ctx : Context)
  (prompt : string) (maxTokens : Z) (cb : bool) : State * outcome :=
  let maxTokens := budget maxTokens in
  match start q prompt with
  | None => (no_state, Panic)
  | Some st =>
      match steps (GenerateWithCallback_body q ctx cb) (Z.to_nat maxTokens) 0 st with
      | Continue st | BreakLoop st => (st, Return (outText st) None)
      | Exit st o => (st, o)
      end
  end.

Definition GenerateWithCallback (q : QwenONNX) (ctx : Context)
  (prompt : string) (maxTokens : Z) (cb : bool) : outcome :=
  snd (GenerateWithCallback_run q ctx prompt maxTokens cb).

End WithGoStd.

End Qwen.

(** ** The hash embedder *)

Module HashEmbed.
Import Go Float.

Record Config := {
  ModelName : string;
  ModelDir : string;
  Backend : string;
  WorkDir : string
}.

Record hashEmbedder := {
  modelName : string;
  dim : Z
}.

Definition New (cfg : Config) : hashEmbedder :=
  {| modelName := if String.eqb (ModelName cfg) "" then "hash-embeddings-384"
                  else ModelName cfg;
     dim := 384 |}.

(** [hash]: 32-bit FNV-1a of the bytes of [s]. *)
Definition hash (s : string) : Z :=
  foldl (fun h c => wrap32u (Z.lxor h (byte c) * 16777619))
        2166136261 (list_ascii_of_string s).

Section WithGoStd.
Context `{GoStd}.

(** The bucket loop of [embedOne]: [None] is the panic of the remainder
    by zero. *)
Definition bucket (h : hashEmbedder) (vec : list float32) (tok : string)
  : option (list float32) :=
  let d := wrap32u (dim h) in
  if d =? 0 then None
  else
    let idx := hash tok mod d in
    let sign := if Z.land (hash (tok +:+ "_alt")) 1 =? 1 then f32_neg_one else f32_one in
    Some (alter (fun x => f32_add x sign) (Z.to_nat idx) vec).

(** [embedOne]: [None] is a panic (a negative or zero dimension). *)
Definition embedOne (h : hashEmbedder) (text : string) : option (list float32) :=
  vec ← make f32_zero (dim h);
  let tokens := wordRE_FindAllString (strings_ToLower text) in
  if (length tokens =? 0)%nat then Some vec
  else
    vec ← foldl (fun acc tok => vec ← acc; bucket h vec tok) (Some vec) tokens;
    let norm := foldl (fun norm v => f64_add norm (f64_of_f32 (f32_mul v v))) f64_zero vec in
    let norm := f64_sqrt norm in
    if gt norm f64_zero
    then
      let inv := f32_of_f64 (f64_div f64_one norm) in
      Some ((fun v => f32_mul v inv) <$> vec)
    else Some vec.

(** [Embed]: the vectors and the model name; the error is always nil. *)
Definition Embed (h : hashEmbedder) (inputs : list string)
  : option (list (list float32) * string) :=
  out ← foldl (fun acc s => out ← acc; v ← embedOne h s; Some (out ++ [v]))
              (Some []) inputs;
  Some (out, modelName h).

End WithGoStd.

End HashEmbed.

(** ** An instance of the standard library for 7-bit text

    On strings of ASCII bytes these functions compute what Go's do; they
    serve to run the services on concrete inputs. *)

Module Ascii7.
Import Go.

Definition is_upper (c : ascii) : bool := (65 <=? byte c) && (byte c <=? 90).
Definition is_lower (c : ascii) : bool := (97 <=? byte c) && (byte c <=? 122).
Definition is_digit (c : ascii) : bool := (48 <=? byte c) && (byte c <=? 57).
Definition is_letter (c : ascii) : bool := is_upper c || is_lower c.
(** The ASCII white space of Go: tab, line feed, vertical tab, form feed,
    carriage return and space. *)
Definition is_space (c : ascii) : bool :=
  ((9 <=? byte c) && (byte c <=? 13)) || (byte c =? 32).

Fixpoint ToLower (s : string) : string :=
  match s with
  | EmptyString => EmptyString
  | String c s' =>
      String (if is_upper c then of_byte (byte c + 32) else c) (ToLower s')
  end.

Definition push (cur : string) (out : list string) : list string :=
  if (0 <? String.length cur)%nat then out ++ [cur] else out.

Fixpoint Fields_loop (s cur : string) (out : list string) : list string :=
  match s with
  | EmptyString => push cur out
  | String c s' =>
      if is_space c then Fields_loop s' "" (push cur out)
      else Fields_loop s' (cur +:+ String c "") out
  end.

Definition Fields (s : string) : list string := Fields_loop s "" [].

Fixpoint TrimLeft (s : string) : string :=
  match s with
  | String c s' => if is_space c then TrimLeft s' else s
  | EmptyString => s
  end.

Definition TrimSpace (s : string) : string :=
  String.rev (TrimLeft (String.rev (TrimLeft s))).

(** Runs of letters and runs of digits, leftmost first. *)
Fixpoint FindAll_loop (s cur : string) (letters : bool) (out : list string)
  : list string :=
  match s with
  | EmptyString => push cur out
  | String c s' =>
      if is_letter c then
        if letters then FindAll_loop s' (cur +:+ String c "") true out
        else FindAll_loop s' (String c "") true (push cur out)
      else if is_digit c then
        if letters then FindAll_loop s' (String c "") false (push cur out)
        else FindAll_loop s' (cur +:+ String c "") false out
      else FindAll_loop s' "" letters (push cur out)
  end.

Definition FindAllString (s : string) : list string := FindAll_loop s "" true [].

#[export] Instance std : GoStd := {|
  strings_ToLower := ToLower;
  strings_Fields := Fields;
  strings_TrimSpace := TrimSpace;
  unicode_IsLetter r := ((65 <=? r) && (r <=? 90)) || ((97 <=? r) && (r <=? 122));
  unicode_IsDigit r := (48 <=? r) && (r <=? 57);
  wordRE_FindAllString := FindAllString
|}.

End Ascii7.

(** ** Concrete services *)

Module WordPieceSamples.
Import WordPiece.

Definition w0 : wordPiece :=
  {| vocab := list_to_map [("un", 10); ("##aff", 11); ("##able", 12); ("##", 7); ("a", 13)];
     unkID := 100; clsID := 101; sepID := 102; padID := 0 |}.

End WordPieceSamples.

Module Samples.
Import Go Float WordPiece Qwen Ascii7.

(** A vocabulary file whose pad token is not on its first line. *)
Definition vocab_txt : string :=
  "[UNK]" +:+ String "010" "[PAD]" +:+ String "010" "[CLS]" +:+ String "010" "[SEP]"
  +:+ String "010" "un" +:+ String "010" "##aff" +:+ String "010" "##able"
  +:+ String "010" "##" +:+ String "010" "a" +:+ String "010" "".

Definition wp : wordPiece := loadWordPiece vocab_txt.

Definition minilm : miniLMOnnx := NewMiniLM wp.

(** A tokenizer of three words, with no end-of-sequence id resolved, and
    one whose end-of-sequence id is 3. *)
Definition bpe : bpeTokenizer :=
  {| Qwen.vocab := list_to_map [("the", 0); ("cat", 1); ("sat", 2)];
     id2token := ["the"; "cat"; "sat"];
     eosTokenID := -1 |}.

Definition bpe_eos : bpeTokenizer :=
  {| Qwen.vocab := list_to_map [("the", 0); ("cat", 1); ("sat", 2); ("end", 3)];
     id2token := ["the"; "cat"; "sat"; "end"];
     eosTokenID := 3 |}.

(** A runtime whose logits, of shape [(1, len, width)], put the maximum
    at index [best] at every position. *)
Definition row (width best : nat) : list float32 :=
  (fun i => if (i =? best)%nat then f32_one else f32_zero) <$> List.seq 0 width.

Definition rt (width best : nat) : Runtime :=
  {| NewTensor := fun _ _ => None;
     Run := fun ids _ _ =>
       inr (TensorFloat32 [1; Z.of_nat (length ids); Z.of_nat width]
              (mjoin (replicate (length ids) (row width best)))) |}.

Definition qwen : QwenONNX := NewQwenONNX (rt 3 1) bpe.
Definition qwen_eos : QwenONNX := NewQwenONNX (rt 4 3) bpe_eos.

(** A context that is never done, and one that is cancelled from the
    poll of iteration [n] on. *)
Definition background : Context := fun _ => None.
Definition cancelled_from (n : nat) : Context :=
  fun t => if (n <=? t)%nat then Some Canceled else None.

(** The configuration of the default embedder. *)
Definition cfg0 : HashEmbed.Config :=
  {| HashEmbed.ModelName := ""; HashEmbed.ModelDir := "";
     HashEmbed.Backend := "hash"; HashEmbed.WorkDir := "" |}.

(** A prompt of [n] words. *)
Fixpoint words (n : nat) : string :=
  match n with
  | O => ""
  | S n' => "the " +:+ words n'
  end.

(** The state the loops start from on the prompt "the cat sat", and the
    state of the streaming loop two steps later. *)
Definition st_prompt : State :=
  {| ids := [0; 1; 2]; outText := ""; runs := []; cbs := [] |}.

Definition st_two_steps : State :=
  Eval vm_compute in
    state_of (steps (GenerateWithCallback_body qwen (cancelled_from 2) true)
                2 0 st_prompt).

End Samples.


(** ** The second half of [Embed]: session run and pooling *)

Module MiniLM.
Import Go Float WordPiece.

Inductive error :=
| ErrRuntime (msg : string)         (* an error of the ONNX runtime *)
| ErrOutputType                      (* "unexpected output type" *)
| ErrOutputShape (shape : list Z).   (* "unexpected output shape: %v" *)

(** [ort.NewTensor[int64](shape, data)] gives the error, if any;
    [session.Run] takes the data of [input_ids], [attention_mask] and
    [token_type_ids] and gives the error or the value allocated for
    [last_hidden_state]. *)
Record Runtime := {
  NewTensor : list Z -> list Z -> option error;
  Run : list Z -> list Z -> list Z -> error + Qwen.Value
}.

Definition model_name : string := "all-MiniLM-L6-v2".

Definition f32_div : float32 -> float32 -> float32 := SFdiv 24 128.

(** [v[i]]: [None] is the panic of an index out of range. *)
Definition index {A} (v : list A) (i : Z) : option A :=
  if (0 <=? i) && (i <? Z.of_nat (length v)) then v !! Z.to_nat i else None.

(** [for d := 0; d < h; d++ { vec[d] += dataF[base+d] }] *)
Definition add_hidden (dataF : list float32) (base h : Z) (vec : list float32)
  : option (list float32) :=
  foldl (fun acc d =>
           vec ← acc;
           x ← index dataF (wrap64 (base + Z.of_nat d));
           Some (alter (fun v => f32_add v x) d vec))
        (Some vec) (List.seq 0 (Z.to_nat h)).

(** The loop over the positions [j] of row [i]: the hidden states of the
    positions whose mask is not 0 are summed and counted. *)
Definition pool_tokens (dataF : list float32) (attMask : list Z)
  (seq s h : Z) (i : nat) (start : Z) (vec : list float32)
  : option (list float32 * float32) :=
  foldl (fun acc j =>
           '(vec, count) ← acc;
           m ← index attMask (wrap64 (wrap64 (Z.of_nat i * seq) + Z.of_nat j));
           if m =? 0 then Some (vec, count)
           else
             let base := wrap64 (start + wrap64 (Z.of_nat j * h)) in
             vec ← add_hidden dataF base h vec;
             Some (vec, f32_add count f32_one))
        (Some (vec, f32_zero)) (List.seq 0 (Z.to_nat s)).

(** The mean and the L2 normalisation of a row, under [if count > 0]. *)
Definition normalize (h : Z) (vec : list float32) (count : float32)
  : list float32 :=
  if gt count f32_zero then
    let inv := f32_div f32_one count in
    let '(vec, norm) :=
      foldl (fun '(vec, norm) d =>
               let vec := alter (fun v => f32_mul v inv) d vec in
               let x := default f32_zero (vec !! d) in
               (vec, f64_add norm (f64_of_f32 (f32_mul x x))))
            (vec, f64_zero) (List.seq 0 (Z.to_nat h)) in
    if gt norm f64_zero then
      let invn := f32_of_f64 (f64_div f64_one (f64_sqrt norm)) in
      foldl (fun vec d => alter (fun v => f32_mul v invn) d vec)
            vec (List.seq 0 (Z.to_nat h))
    else vec
  else vec.

(** The body of the loop over the rows [i]: the vector of input [i]. *)
Definition pool_row (dataF : list float32) (attMask : list Z) (seq s h : Z)
  (i : nat) : option (list float32) :=
  let start := wrap64 (wrap64 (Z.of_nat i * s) * h) in
  vec ← make f32_zero h;
  '(vec, count) ← pool_tokens dataF attMask seq s h i start vec;
  Some (normalize h vec count).

(** Mean pooling with the attention mask, for a batch of [bsz] rows of
    [seq] positions and an output of shape [(_, s, h)]; [None] is a
    panic. *)
Definition pool (bsz : nat) (seq : Z) (attMask : list Z) (s h : Z)
  (dataF : list float32) : option (list (list float32)) :=
  foldl (fun acc i =>
           out ← acc;
           vec ← pool_row dataF attMask seq s h i;
           Some (out ++ [vec]))
        (Some []) (List.seq 0 bsz).

Section WithGoStd.
Context `{GoStd}.

(** [Embed]: vectors ([None] for nil), model name and error; the outer
    [None] is a panic. *)
Definition Embed (rt : Runtime) (m : miniLMOnnx) (inputs : list string)
  : option (option (list (list float32)) * string * option error) :=
  p ← Embed_tensors m inputs;
  match p with
  | NoInput => Some (None, model_name, None)
  | Tensors inputIDs attMask ttiData =>
      let shape := [Z.of_nat (length inputs); maxLen m] in
      match NewTensor rt shape inputIDs with
      | Some e => Some (None, model_name, Some e)
      | None =>
      match NewTensor rt shape attMask with
      | Some e => Some (None, model_name, Some e)
      | None =>
      match NewTensor rt shape ttiData with
      | Some e => Some (None, model_name, Some e)
      | None =>
      match Run rt inputIDs attMask ttiData with
      | inl e => Some (None, model_name, Some e)
      | inr Qwen.OtherValue => Some (None, model_name, Some ErrOutputType)
      | inr (Qwen.TensorFloat32 shape dataF) =>
          match shape with
          | [_; s; h] =>
              out ← pool (length inputs) (maxLen m) attMask s h dataF;
              Some (Some out, model_name, None)
          | _ => Some (None, model_name, Some (ErrOutputShape shape))
          end
      end
      end end end
  end.

End WithGoStd.

End MiniLM.
(** ** Downloads of the embedding service *)

Module Download.
Import Go.

(** A Go [error] of the file and network layer, by its message. *)
Definition error := string.

(** [tryDownload(urls, dst, retries, timeout)]: [download i u] is what
    [downloadFile(u, dst, timeout)] returns at iteration [i] of the loop
    ([None] for a nil error); the function gives back its error and the
    URLs it has requested, in order. [retries] is not used by the code. *)
Fixpoint tryDownload_loop (download : nat -> string -> option error)
  (i : nat) (urls : list string) (last : option error) (asked : list string)
  : option error * list string :=
  match urls with
  | [] => (last, asked)
  | u :: urls' =>
      match download i u with
      | Some err => tryDownload_loop download (S i) urls' (Some err) (asked ++ [u])
      | None => (None, asked ++ [u])
      end
  end.

Definition tryDownload (download : nat -> string -> option error)
  (urls : list string) : option error * list string :=
  tryDownload_loop download 0 urls None [].

End Download.

(** ** Loading the tokenizer of the generation service *)

Module QwenLoad.
Import Go Qwen.

(** [strings.Contains(s, sub)]. *)
Fixpoint Contains (s sub : string) : bool :=
  HasPrefix s sub
  || match s with
     | String _ s' => Contains s' sub
     | EmptyString => false
     end.

(** The fields of [tokenizer.json] that [loadBPETokenizer] reads. *)
Record addedToken := {
  ID : Z;
  Content : string;
  Special : bool
}.

Record tokenizerJSON := {
  Type_ : string;
  Vocab : gmap string Z;
  AddedTokens : list addedToken
}.

(** The loop [for tok, id := range t.Model.Vocab] that fills [id2], on
    the pairs of the map in the order the iteration visits them. *)
Definition fill_id2 (id2 : list string) (visited : list (string * Z)) : list string :=
  foldl (fun id2 '(tok, id) =>
           if (0 <=? id) && (id <? Z.of_nat (length id2))
           then <[Z.to_nat id := tok]> id2 else id2)
        id2 visited.

Section WithGoStd.
Context `{GoStd}.

(** The loop over the added tokens, left at the first one whose content
    names the end of the text. *)
Fixpoint find_eos (ats : list addedToken) : Z :=
  match ats with
  | [] => -1
  | a :: ats' =>
      if Contains (strings_ToLower (Content a)) "eos"
         || String.eqb (Content a) "<|endoftext|>"
      then ID a
      else find_eos ats'
  end.

(** [loadBPETokenizer] once the file is read and parsed into [t];
    [visited] is the order in which the iteration over the vocabulary map
    visits its pairs, which Go leaves open. *)
Definition loadBPETokenizer (t : tokenizerJSON) (visited : list (string * Z))
  : bpeTokenizer :=
  let id2 := replicate (size (Vocab t)) "" in
  let id2 := fill_id2 id2 visited in
  let eos := find_eos (AddedTokens t) in
  {| vocab := Vocab t; id2token := id2; eosTokenID := eos |}.

End WithGoStd.

End QwenLoad.

(** ** The embeddings handler of the server *)

Module Server.
Import Go Float.

(** An element of a decoded JSON array: a string or anything else
    (number, boolean, null, array, object). *)
Inductive element :=
| EString (s : string)
| EOther.

(** A decoded JSON value held in the field [Input] of type [any]: a
    string, an array, or anything else. *)
Inductive any :=
| AString (s : string)
| AArray (l : list element)
| AOther.

(** The interface [embeddings.Service]: vectors, model name, error. *)
Definition Service := list string -> list (list float32) * string * option string.

Inductive response :=
| HttpError (msg : string) (code : Z)
| EmbeddingsResponse (model : string) (embeddings : list (list float32)).

(** The loop over the elements of an array: the strings are kept. *)
Definition strings_of (v : list element) : list string :=
  foldl (fun inputs it =>
           match it with
           | EString s => inputs ++ [s]
           | EOther => inputs
           end) [] v.

(** [handleEmbeddings]: [req] is the decoded request, [None] when the
    body is not valid JSON, and its [input] field otherwise; the result
    is the response written and the argument of each call of
    [d.Embeddings.Embed]. *)
Definition handleEmbeddings (svc : Service) (req : option any)
  : response * list (list string) :=
  match req with
  | None => (HttpError "invalid json" 400, [])
  | Some input =>
      match (match input with
             | AString v => Some [v]
             | AArray v => Some (strings_of v)
             | AOther => None
             end) with
      | None => (HttpError "input must be string or array of strings" 400, [])
      | Some inputs =>
          if (length inputs =? 0)%nat then (HttpError "no input provided" 400, [])
          else
            match svc inputs with
            | (_, _, Some err) => (HttpError err 500, [inputs])
            | (vecs, model, None) => (EmbeddingsResponse model vecs, [inputs])
            end
      end
  end.

End Server.

(** ** The chat handler of the generation service, on the local model *)

Module Chat.
Import Go Qwen.



(** What the handler does to the response writer: an error status
    ([http.Error], with the message of [err.Error()] for an error of the
    model), the chunks written to an event stream, a completion, or a
    panic of the model after some chunks. *)
Inductive response :=
| HttpError (msg : string) (code : Z)
| ServerError (err : error)
| EventStream (chunks : list string)
| Completion (content : string)
| Aborted (chunks : list string).



Section WithGoStd.
Context `{GoStd}.



End WithGoStd.

End Chat.

(** ** Notions used to state properties of the tokenizers *)

Module Props.
Import Go WordPiece WordPieceSpec.

(** An id that some entry of the vocabulary carries. *)
Definition in_vocab (w : wordPiece) (id : Z) : Prop :=
  exists key, vocab w !! key = Some id.

(** The concatenation of a list of strings. *)
Definition str_concat (l : list string) : string :=
  fold_right String.append "" l.

(** The strings looked up for the substrings of a token: the first as it
    is when [first] holds, every other one behind the marker. *)
Definition keys (first : bool) (subs : list string) : list string :=
  match subs with
  | [] => []
  | s :: rest => piece first s :: (piece false <$> rest)
  end.

(** The string an id decodes to, if any: the entry of [id2token] at the
    id, when the id is in range and the entry is not empty. *)
Definition resolve (t : Qwen.bpeTokenizer) (i : Z) : option string :=
  if (0 <=? i) && (i <? Z.of_nat (length (Qwen.id2token t)))
     && negb (String.eqb (default "" (Qwen.id2token t !! Z.to_nat i)) "")
  then Some (default "" (Qwen.id2token t !! Z.to_nat i))
  else None.

(** A word the tokenizer knows and can give back: it is not empty, it
    has an id, and [id2token] holds it at that id. *)
Definition known (t : Qwen.bpeTokenizer) (p : string) : Prop :=
  p <> ""
  /\ exists id, Qwen.vocab t !! p = Some id
                /\ 0 <= id
                /\ Qwen.id2token t !! Z.to_nat id = Some p.

(** An added token whose content names the end of the text. *)
Definition names_eos `{GoStd} (a : QwenLoad.addedToken) : bool :=
  QwenLoad.Contains (strings_ToLower (QwenLoad.Content a)) "eos"
  || String.eqb (QwenLoad.Content a) "<|endoftext|>".

(** The inputs of a run of the session on the sequence [i]: mask of
    ones and positions [0..len(i)-1]. *)
Definition run_of (i : list Z) : list Z * list Z * list Z :=
  (i, (fun _ => 1) <$> i, imap (fun j _ => Z.of_nat j) i).

(** The texts of [k] steps of the streaming loop that started with [n0]
    ids and has now the sequence [ids]: step [j] decodes the first
    [n0 + j] ids. *)
Definition streamed (t : Qwen.bpeTokenizer) (n0 : nat) (ids : list Z) (k : nat)
  : list string :=
  (fun j => Qwen.Decode t (take (n0 + j) ids)) <$> seq 1 k.

(** The string an element of a JSON array is, if it is one. *)
Definition string_of (e : Server.element) : option string :=
  match e with
  | Server.EString s => Some s
  | Server.EOther => None
  end.

(** The letters and digits among the runes of a string. *)
Definition word_runes `{GoStd} (rs : list Z) : list Z :=
  List.filter (fun r => unicode_IsLetter r || unicode_IsDigit r) rs.

(** What the loop of [argmax] knows after the elements [P]: nothing was
    above the threshold and the index is 0, or [max] is the element at
    [idx], above the threshold, exceeded by no element and not reached by
    any earlier one. *)
Definition argmax_state (P : list Float.float32) (max : Float.float32) (idx : Z)
  : Prop :=
  (max = Float.f32_neg_1e30 /\ idx = 0
   /\ forall y, y ∈ P -> Float.gt y Float.f32_neg_1e30 = false)
  \/ (0 <= idx /\ P !! Z.to_nat idx = Some max
      /\ Float.gt max Float.f32_neg_1e30 = true
      /\ (forall y, y ∈ P -> Float.gt y max = false)
      /\ forall j y, P !! j = Some y -> (j < Z.to_nat idx)%nat -> SFleb max y = false).

End Props.


(** ** More concrete services *)

Module MoreSamples.
Import Go Float WordPiece Qwen Ascii7 Samples.

(** A generation service whose session fails at every run. *)
Definition rt_fail : Qwen.Runtime :=
  {| Qwen.NewTensor := fun _ _ => None;
     Qwen.Run := fun _ _ _ => inl (ErrRuntime "run failed") |}.

Definition qwen_fail : QwenONNX := NewQwenONNX rt_fail bpe.

(** The states [GenerateWithCallback] and [Generate] end in on the
    prompt "the cat sat". *)
Definition st_streamed : State :=
  Eval vm_compute in
    fst (GenerateWithCallback_run qwen background "the cat sat" 2 true).

Definition st_generated : State :=
  Eval vm_compute in fst (Generate_run qwen background "the cat sat" 3).

(** A [tokenizer.json] of two words and two added tokens. *)
Definition tokenizer_json : QwenLoad.tokenizerJSON :=
  {| QwenLoad.Type_ := "BPE";
     QwenLoad.Vocab := list_to_map [("the", 0); ("cat", 1)];
     QwenLoad.AddedTokens :=
       [ {| QwenLoad.ID := 7; QwenLoad.Content := "<pad>"; QwenLoad.Special := true |};
         {| QwenLoad.ID := 9; QwenLoad.Content := "<|endoftext|>";
            QwenLoad.Special := true |} ] |}.

(** An embedding service that returns the vector [1] for every input. *)
Definition svc_const : Server.Service :=
  fun inputs => ((fun _ => [f32_one]) <$> inputs, "m", None).

(** An embedding session whose output, for one row of 128 positions, has
    two values at each position. *)
Definition rt_minilm : MiniLM.Runtime :=
  {| MiniLM.NewTensor := fun _ _ => None;
     MiniLM.Run := fun _ _ _ =>
       inr (TensorFloat32 [1; 128; 2] (replicate 256 f32_one)) |}.


(** Downloads of which the first fails. *)
Definition download_second : nat -> string -> option Download.error :=
  fun i _ => if (i <? 1)%nat then Some "timeout" else None.

(** A hash embedder of dimension 0. *)
Definition hash0 : HashEmbed.hashEmbedder :=
  {| HashEmbed.modelName := "none"; HashEmbed.dim := 0 |}.

End MoreSamples.
(** ** Properties of the Go primitives *)

Module GoFacts.
Import Go.

Lemma str_take_length n s :
  (n <= String.length s)%nat -> String.length (str_take n s) = n.
Proof.
  revert s; induction n as [|n IH]; intros [|c s] Hn; simpl in *; try lia.
  rewrite IH; lia.
Qed.

Lemma str_take_length_le n s : (String.length (str_take n s) <= n)%nat.
Proof.
  revert s; induction n as [|n IH]; intros [|c s]; simpl; try lia.
  specialize (IH s); lia.
Qed.

Lemma str_take_all n s :
  (String.length s <= n)%nat -> str_take n s = s.
Proof.
  revert n; induction s as [|c s IH]; intros [|n] Hn; simpl in *; try reflexivity; try lia.
  f_equal. apply IH. lia.
Qed.

Lemma str_drop_length n s :
  String.length (str_drop n s) = (String.length s - n)%nat.
Proof.
  revert s; induction n as [|n IH]; intros [|c s]; simpl; try lia.
  apply IH.
Qed.

Lemma str_take_take m n s :
  (m <= n)%nat -> str_take m (str_take n s) = str_take m s.
Proof.
  revert n s; induction m as [|m IH]; intros [|n] [|c s] Hmn; simpl;
    try reflexivity; try lia.
  rewrite IH by lia. reflexivity.
Qed.

Lemma str_take_drop n s : str_take n s +:+ str_drop n s = s.
Proof.
  revert s; induction n as [|n IH]; intros [|c s]; try reflexivity.
  change (String c (str_take n s +:+ str_drop n s) = String c s).
  f_equal. apply IH.
Qed.

Lemma length_zero_empty s : String.length s = 0%nat -> s = "".
Proof. destruct s; simpl; [reflexivity | lia]. Qed.

Lemma HasPrefix_marker s : HasPrefix ("##" +:+ s) "##" = true.
Proof. reflexivity. Qed.

Lemma str_drop_marker s : str_drop 2 ("##" +:+ s) = s.
Proof. reflexivity. Qed.

(** A prefix of a string that does not start with [p] does not start with
    [p] either. *)
Lemma HasPrefix_take n s p :
  HasPrefix s p = false -> HasPrefix (str_take n s) p = false.
Proof.
  unfold HasPrefix. intros H.
  destruct (Nat.leb_spec (String.length p) (String.length (str_take n s)))
    as [Hle|]; [|reflexivity].
  simpl. pose proof (str_take_length_le n s) as Hn.
  rewrite str_take_take by lia.
  destruct (Nat.leb_spec (String.length p) (String.length s)) as [Hs|Hs];
    [exact H|].
  apply String.eqb_neq. intros E.
  assert (String.length (str_take (String.length p) s) = String.length s) as Hl
    by (rewrite str_take_all by lia; reflexivity).
  rewrite E in Hl. lia.
Qed.

(** The only string that starts with the marker and has nothing after it. *)
Lemma HasPrefix_drop_empty s :
  HasPrefix s "##" = true -> String.length (str_drop 2 s) = 0%nat -> s = "##".
Proof.
  unfold HasPrefix. intros H Hl.
  apply andb_prop in H as [_ H]. apply String.eqb_eq in H.
  apply length_zero_empty in Hl.
  rewrite <- (str_take_drop 2 s). change (String.length "##") with 2%nat in H.
  rewrite H, Hl. reflexivity.
Qed.

End GoFacts.

(** ** Properties of [tokenizeWord] *)

Module WordPieceFacts.
Import Go WordPiece WordPieceSpec GoFacts.

(** The candidate of the inner loop is the specification's piece. *)
Lemma candidate_piece (out : list Z) (sub : string) :
  (if (0 <? Z.of_nat (length out)) then "##" +:+ sub else sub)
  = piece (bool_decide (out = [])) sub.
Proof. destruct out; reflexivity. Qed.

(** A failed search: no prefix of any length down to one is in the
    vocabulary. *)
Lemma search_None w out tok e :
  search w out tok e = None ->
  forall n, (1 <= n <= e)%nat ->
            vocab w !! piece (bool_decide (out = [])) (str_take n tok) = None.
Proof.
  induction e as [|e IH]; intros Hs n Hn; [lia|].
  cbn [search] in Hs. rewrite candidate_piece in Hs.
  destruct (vocab w !! piece _ (str_take (S e) tok)) eqn:Hv; [discriminate|].
  destruct (decide (n = S e)) as [->|Hne]; [exact Hv|].
  apply IH; [exact Hs | lia].
Qed.

(** A successful search returns the longest matching prefix. *)
Lemma search_Some w out tok e cur id :
  search w out tok e = Some (cur, id) ->
  exists n, (1 <= n <= e)%nat
    /\ cur = piece (bool_decide (out = [])) (str_take n tok)
    /\ vocab w !! cur = Some id
    /\ forall m, (n < m <= e)%nat ->
         vocab w !! piece (bool_decide (out = [])) (str_take m tok) = None.
Proof.
  induction e as [|e IH]; intros Hs; [discriminate|].
  cbn [search] in Hs. rewrite candidate_piece in Hs.
  destruct (vocab w !! piece _ (str_take (S e) tok)) eqn:Hv.
  - inversion Hs; subst. exists (S e).
    split; [lia|]. split; [reflexivity|]. split; [exact Hv|]. intros m Hm; lia.
  - destruct (IH Hs) as (n & Hn & Hc & Hl & Hmax).
    exists n. split; [lia|]. split; [exact Hc|]. split; [exact Hl|].
    intros m Hm. destruct (decide (m = S e)) as [->|Hne]; [exact Hv|].
    apply Hmax; lia.
Qed.

Lemma body_Break w tok out out' :
  body w tok out = Break out' ->
  out' = out ++ [unkID w]
  /\ forall n, (1 <= n <= String.length tok)%nat ->
       vocab w !! piece (bool_decide (out = [])) (str_take n tok) = None.
Proof.
  unfold body. destruct (search w out tok (String.length tok)) as [[cur id]|] eqn:Hs;
    [discriminate|].
  intros [= <-]. split; [reflexivity|]. apply search_None. exact Hs.
Qed.

Lemma body_Next w tok out tok' out' :
  body w tok out = Next tok' out' ->
  exists n id,
    (1 <= n <= String.length tok)%nat
    /\ vocab w !! piece (bool_decide (out = [])) (str_take n tok) = Some id
    /\ (forall m, (n < m <= String.length tok)%nat ->
          vocab w !! piece (bool_decide (out = [])) (str_take m tok) = None)
    /\ out' = out ++ [id]
    /\ tok' = str_drop (removed out tok n) tok.
Proof.
  unfold body. destruct (search w out tok (String.length tok)) as [[cur id]|] eqn:Hs;
    [|discriminate].
  intros [= <- <-].
  apply search_Some in Hs as (n & Hn & -> & Hv & Hmax).
  exists n, id. split; [exact Hn|]. split; [exact Hv|]. split; [exact Hmax|].
  split; [reflexivity|]. f_equal. unfold removed.
  destruct (bool_decide (out = [])); cbn [piece andb].
  - destruct (HasPrefix (str_take n tok) "##").
    + change (String.length (str_drop 2 (str_take n tok)) = (n - 2)%nat).
      rewrite str_drop_length, str_take_length by lia. reflexivity.
    + apply str_take_length; lia.
  - rewrite HasPrefix_marker.
    change (String.length (str_take n tok) = n). apply str_take_length; lia.
Qed.

(** Every iteration after the first, and the first one on a word that
    does not start with the marker, removes the matched prefix. *)
Lemma removed_all out tok n :
  (out = [] -> HasPrefix tok "##" = false) -> removed out tok n = n.
Proof.
  intros H. unfold removed. case_bool_decide as Ho; [|reflexivity].
  rewrite (HasPrefix_take n tok "##" (H Ho)). reflexivity.
Qed.

Lemma snoc_not_nil (out : list Z) (id : Z) : out ++ [id] <> [].
Proof. destruct out; discriminate. Qed.

(** The loop computes the specification's piece sequence. *)
Lemma loop_WordPieces w fuel : forall tok out,
  (String.length tok <= fuel)%nat ->
  (out = [] -> HasPrefix tok "##" = false) ->
  exists res, loop fuel w tok out = Some (out ++ res)
              /\ WordPieces w (bool_decide (out = [])) tok res.
Proof.
  induction fuel as [|fuel IH]; intros tok out Hf Hm.
  - destruct tok; [|simpl in Hf; lia].
    exists []. rewrite app_nil_r. split; [reflexivity | constructor].
  - destruct tok as [|c tok0] eqn:Etok.
    { exists []. rewrite app_nil_r. split; [reflexivity | constructor]. }
    rewrite <- Etok in *. assert (tok <> "") as Hne by (subst; discriminate).
    assert (loop (S fuel) w tok out
            = match body w tok out with
              | Break out' => Some out'
              | Next tok' out' => loop fuel w tok' out'
              end) as -> by (subst; reflexivity).
    destruct (body w tok out) as [out'|tok' out'] eqn:Hb.
    + apply body_Break in Hb as [-> Hnone].
      exists [unkID w]. split; [reflexivity|]. apply WP_unknown; assumption.
    + apply body_Next in Hb as (n & id & Hn & Hv & Hmax & -> & ->).
      rewrite removed_all by exact Hm.
      destruct (IH (str_drop n tok) (out ++ [id])) as (res & Hl & Hw).
      * rewrite str_drop_length. lia.
      * intros E. destruct (snoc_not_nil _ _ E).
      * rewrite bool_decide_eq_false_2 in Hw by apply snoc_not_nil.
        exists (id :: res). split.
        -- rewrite Hl, <- app_assoc. reflexivity.
        -- eapply WP_piece; eassumption.
Qed.

(** The specification determines the piece sequence. *)
Lemma WordPieces_fun w first rest out1 :
  WordPieces w first rest out1 ->
  forall out2, WordPieces w first rest out2 -> out1 = out2.
Proof.
  induction 1 as [first|first rest Hne Hnone|first rest n id out Hn Hv Hmax Hw IH];
    intros out2 H2.
  - inversion H2; subst; try reflexivity; try congruence.
    simpl in *; lia.
  - inversion H2; subst; try reflexivity; try congruence.
    rewrite Hnone in * by assumption. discriminate.
  - inversion H2 as [|? ? ? Hnone|? ? n' id' out' Hn' Hv' Hmax' Hw']; subst.
    + simpl in Hn; lia.
    + rewrite Hnone in Hv by assumption. discriminate.
    + assert (n = n') as <-.
      { destruct (Nat.lt_trichotomy n n') as [Hlt|[Heq|Hgt]]; [|exact Heq|].
        - rewrite Hmax in Hv' by lia. discriminate.
        - rewrite Hmax' in Hv by lia. discriminate. }
      rewrite Hv in Hv'. inversion Hv'; subst. f_equal. apply IH. exact Hw'.
Qed.


(** The loop ends within one iteration per byte, and one more when it is
    entered with no piece yet. *)
Lemma loop_terminates w fuel : forall tok out,
  (String.length tok + (if bool_decide (out = []) then 1 else 0) <= fuel)%nat ->
  exists res, loop fuel w tok out = Some res.
Proof.
  induction fuel as [|fuel IH]; intros tok out Hf.
  - destruct tok; [eexists; reflexivity|]. simpl in Hf; lia.
  - destruct tok as [|c tok0] eqn:Etok; [eexists; reflexivity|].
    rewrite <- Etok in *.
    assert (loop (S fuel) w tok out
            = match body w tok out with
              | Break out' => Some out'
              | Next tok' out' => loop fuel w tok' out'
              end) as -> by (subst; reflexivity).
    destruct (body w tok out) as [out'|tok' out'] eqn:Hb; [eexists; reflexivity|].
    apply body_Next in Hb as (n & id & Hn & _ & _ & -> & ->).
    apply IH. rewrite bool_decide_eq_false_2 by apply snoc_not_nil.
    rewrite str_drop_length. unfold removed.
    case_bool_decide; cbn [andb]; [|lia].
    destruct (HasPrefix _ _); lia.
Qed.

(** C5. For every token that does not start with the marker, and so for
    every basic token (a run of letters and digits), [tokenizeWord]
    returns the piece sequence the specification describes, and no other
    sequence fits that description: the longest prefix of the remaining
    substring found in the vocabulary is matched again and again, the
    first piece as it is and every later one with "##" in front, and the
    first search that finds no prefix of any length down to one appends
    one unknown id and ends the token. *)
Theorem tokenizeWord_longest_prefix (w : wordPiece) (tok : string) :
  HasPrefix tok "##" = false ->
  WordPieces w true tok (tokenizeWord w tok)
  /\ forall out, WordPieces w true tok out -> out = tokenizeWord w tok.
Proof.
  intros Hm.
  assert (WordPieces w true tok (tokenizeWord w tok)) as Hw.
  { unfold tokenizeWord, tokenizeWord_fuel.
    destruct (String.eqb_spec tok "") as [->|Hne]; [constructor|].
    destruct (loop_WordPieces w (S (String.length tok)) tok [])
      as (res & Hl & Hres); [lia | intros _; exact Hm |].
    rewrite Hl. exact Hres. }
  split; [exact Hw|].
  intros out Hout. eapply WordPieces_fun; eassumption.
Qed.

Lemma tokenizeWord_longest_prefix_witness :
  HasPrefix "unaffix" "##" = false
  /\ WordPieces WordPieceSamples.w0 true "unaffix"
       (tokenizeWord WordPieceSamples.w0 "unaffix")
  /\ tokenizeWord WordPieceSamples.w0 "unaffix" = [10; 11; 100].
Proof.
  split; [reflexivity|]. split; [|vm_compute; reflexivity].
  apply (tokenizeWord_longest_prefix WordPieceSamples.w0 "unaffix").
  reflexivity.
Defined.




End WordPieceFacts.

(** ** Properties of [encode] *)

Module EncodeFacts.
Import Go WordPiece GoFacts.

(** Writing a sequence into an array from index [k] on, as the loop
    [for i, v := range seq { ids[i] = v; mask[i] = 1 }] does. *)
Lemma write_loop (l : list Z) : forall (k : nat) (pre rest mpre mrest : list Z),
  length pre = k -> length mpre = k ->
  (length l <= length rest)%nat -> (length l <= length mrest)%nat ->
  foldl (fun '(ids, mask) '(i, v) => (<[i := v]> ids, <[i := 1]> mask))
        (pre ++ rest, mpre ++ mrest) (imap (fun i v => ((k + i)%nat, v)) l)
  = (pre ++ l ++ drop (length l) rest,
     mpre ++ replicate (length l) 1 ++ drop (length l) mrest).
Proof.
  induction l as [|x l IH]; intros k pre rest mpre mrest Hp Hm Hr Hmr.
  - reflexivity.
  - destruct rest as [|r rest]; [simpl in Hr; lia|].
    destruct mrest as [|r' mrest]; [simpl in Hmr; lia|].
    cbn [imap foldl length drop replicate].
    rewrite Nat.add_0_r.
    rewrite (insert_app_r_alt pre), (insert_app_r_alt mpre) by lia.
    rewrite Hp, Hm, Nat.sub_diag. cbn [insert list_insert].
    rewrite (imap_ext _ (fun i v => ((S k + i)%nat, v)))
      by (intros; simpl; f_equal; lia).
    rewrite (cons_middle x pre), (cons_middle 1 mpre), !app_assoc.
    rewrite (IH (S k) (pre ++ [x]) rest (mpre ++ [1]) mrest);
      rewrite ?length_app; simpl in *; try lia.
    rewrite <- !app_assoc. reflexivity.
Qed.

(** The padding loop [for i := len(seq); i < maxLen; i++ { ids[i] = 0 }]
    writes zeros where zeros already are. *)
Lemma pad_loop (n a : nat) : forall (ids : list Z),
  (forall i, (a <= i < a + n)%nat -> (i < length ids)%nat -> ids !! i = Some 0) ->
  foldl (fun ids i => <[i := 0]> ids) ids (List.seq a n) = ids.
Proof.
  revert a; induction n as [|n IH]; intros a ids Hz; [reflexivity|].
  cbn [List.seq foldl].
  assert (<[a := 0]> ids = ids) as ->.
  { destruct (decide (a < length ids)%nat) as [Hlt|Hge].
    - apply list_insert_id, Hz; lia.
    - apply list_insert_ge; lia. }
  apply IH. intros i Hi Hl. apply Hz; lia.
Qed.

(** [copy] of a full row over a window of the same width. *)
Lemma copy_row {A} (pre old post src : list A) (off n : nat) :
  length pre = off -> length old = n -> length src = n ->
  copy (pre ++ old ++ post) off n src = pre ++ src ++ post.
Proof.
  intros Hp Ho Hs. unfold copy. rewrite Hs, Nat.min_id.
  rewrite take_app_length' by (symmetry; exact Hp).
  rewrite take_ge by lia.
  rewrite drop_app_add' by (symmetry; exact Hp).
  rewrite drop_app_length' by (symmetry; exact Ho). reflexivity.
Qed.

Lemma concat_rows_length {A} (rows : list (list A)) (n : nat) :
  Forall (fun r => length r = n) rows -> length (concat rows) = (length rows * n)%nat.
Proof.
  induction 1 as [|r rows Hr _ IH]; [reflexivity|].
  cbn [concat length]. rewrite length_app, Hr, IH. simpl. lia.
Qed.

(** The loop of [Embed] that copies row [i] of the batch to the window
    [[i*seq, (i+1)*seq)] of the flat tensors. *)
Lemma copy_loop (ids masks : list (list Z)) (n : nat) :
  length masks = length ids ->
  Forall (fun r => length r = n) ids ->
  Forall (fun r => length r = n) masks ->
  forall k, (k <= length ids)%nat ->
  foldl (fun '(inputIDs, attMask) i =>
           (copy inputIDs (i * n) n (default [] (ids !! i)),
            copy attMask (i * n) n (default [] (masks !! i))))
        (replicate (length ids * n) 0, replicate (length ids * n) 0)
        (List.seq 0 k)
  = (concat (take k ids) ++ replicate ((length ids - k) * n) 0,
     concat (take k masks) ++ replicate ((length ids - k) * n) 0).
Proof.
  intros Hlen Hi Hm. induction k as [|k IH]; intros Hk.
  - cbn. rewrite Nat.sub_0_r. reflexivity.
  - rewrite seq_S, foldl_app, IH by lia. cbn [foldl Nat.add].
    destruct (lookup_lt_is_Some_2 ids k ltac:(lia)) as [r Hr].
    destruct (lookup_lt_is_Some_2 masks k ltac:(lia)) as [r' Hr'].
    rewrite Hr, Hr'. cbn [default].
    assert (length r = n) as Hrn
      by (rewrite Forall_forall in Hi; apply Hi; eapply list_elem_of_lookup_2; eauto).
    assert (length r' = n) as Hrn'
      by (rewrite Forall_forall in Hm; apply Hm; eapply list_elem_of_lookup_2; eauto).
    replace ((length ids - k) * n)%nat with (n + (length ids - S k) * n)%nat by nia.
    rewrite replicate_add.
    rewrite !(copy_row _ (replicate n 0) _ _ (k * n) n);
      rewrite ?length_replicate; try assumption; try reflexivity.
    + rewrite (take_S_r ids k r Hr), (take_S_r masks k r' Hr').
      rewrite !concat_app. cbn [concat]. rewrite !app_nil_r, <- !app_assoc.
      reflexivity.
    + rewrite (concat_rows_length _ n) by (apply Forall_take; exact Hm).
      rewrite length_take. lia.
    + rewrite (concat_rows_length _ n) by (apply Forall_take; exact Hi).
      rewrite length_take. lia.
Qed.

Section WithGoStd.
Context `{GoStd}.

(** [encode] panics exactly on a negative [maxLen]. *)
Lemma encode_negative m text maxLen :
  maxLen < 0 -> encode m text maxLen = None.
Proof.
  intros Hneg. unfold encode.
  assert ((Z.of_nat (length (wrapped m text)) >? maxLen) = true) as ->
    by (apply Z.gtb_lt; lia).
  unfold slice.
  assert ((0 <=? maxLen) = false) as -> by (apply Z.leb_gt; lia).
  reflexivity.
Qed.

(** What [encode] returns: the wrapped sequence cut to [maxLen] ids, then
    zeros, and ones under the ids of the sequence, then zeros. *)
Lemma encode_closed m text maxLen :
  0 <= maxLen ->
  let N := Z.to_nat maxLen in
  let W := take N (wrapped m text) in
  encode m text maxLen
  = Some (W ++ replicate (N - length W) 0,
          replicate (length W) 1 ++ replicate (N - length W) 0).
Proof.
  intros Hpos N W. unfold encode.
  assert ((if Z.of_nat (length (wrapped m text)) >? maxLen
           then slice (wrapped m text) 0 maxLen else Some (wrapped m text))
          = Some W) as ->.
  { destruct (Z.gtb_spec (Z.of_nat (length (wrapped m text))) maxLen) as [Hgt|Hle].
    - unfold slice.
      assert ((0 <=? 0) && (0 <=? maxLen)
              && (maxLen <=? Z.of_nat (length (wrapped m text))) = true) as ->.
      { rewrite !andb_true_iff, !Z.leb_le. lia. }
      rewrite Z.sub_0_r. reflexivity.
    - unfold W. rewrite take_ge by (unfold N; lia). reflexivity. }
  unfold make. assert ((maxLen <? 0) = false) as -> by (apply Z.ltb_ge; lia).
  cbn [mbind option_bind]. fold N.
  assert (length W <= N)%nat as HW by (unfold W; rewrite length_take; lia).
  pose proof (write_loop W 0 [] (replicate N 0) [] (replicate N 0)
                eq_refl eq_refl) as Hw.
  rewrite !length_replicate in Hw. specialize (Hw HW HW).
  cbn [app Nat.add] in Hw.
  change (imap pair W) with (imap (fun i v => (i, v)) W).
  rewrite Hw, !drop_replicate. f_equal. f_equal.
  apply pad_loop. intros i Hi _.
  rewrite lookup_app_r by lia. apply lookup_replicate_2. lia.
Qed.

(** The wrapped sequence starts with the sequence-start id. *)
Lemma wrapped_cls m text :
  exists rest, wrapped m text = clsID (tokenizer m) :: rest.
Proof. unfold wrapped. eexists. rewrite <- app_assoc. reflexivity. Qed.

Lemma wrapped_length m text : (2 <= length (wrapped m text))%nat.
Proof.
  destruct (wrapped_cls m text) as [rest Hr].
  unfold wrapped in *. rewrite !length_app. simpl. lia.
Qed.

(** C9. For every input text and every [maxLen] that is not negative,
    the arrays [encode] returns have [maxLen] entries each; the mask is 1
    on the first [n] positions, those that hold the wrapped sequence (cut
    to [maxLen]), and 0 on all later ones, so it never has a 1 after a 0;
    and every position with mask 0 holds the id 0. *)
Theorem encode_mask_is_prefix (m : miniLMOnnx) (text : string) (maxLen : Z) :
  0 <= maxLen ->
  exists (ids mask : list Z) (n : nat),
    encode m text maxLen = Some (ids, mask)
    /\ n = (length (wrapped m text) `min` Z.to_nat maxLen)%nat
    /\ length ids = Z.to_nat maxLen
    /\ ids = take n (wrapped m text) ++ replicate (Z.to_nat maxLen - n) 0
    /\ mask = replicate n 1 ++ replicate (Z.to_nat maxLen - n) 0
    /\ (forall i j, (i <= j)%nat -> mask !! i = Some 0 -> mask !! j <> Some 1)
    /\ (forall i, mask !! i = Some 0 -> ids !! i = Some 0).
Proof.
  intros Hpos.
  pose proof (encode_closed m text maxLen Hpos) as Hc. cbn zeta in Hc.
  set (N := Z.to_nat maxLen) in *.
  set (n := (length (wrapped m text) `min` N)%nat).
  assert (length (take N (wrapped m text)) = n) as Hlen
    by (rewrite length_take; unfold n; lia).
  assert (take N (wrapped m text) = take n (wrapped m text)) as Htk.
  { unfold n. destruct (Nat.min_spec (length (wrapped m text)) N) as [[Hlt ->]|[Hge ->]].
    - rewrite !take_ge by lia. reflexivity.
    - reflexivity. }
  rewrite Hlen, Htk in Hc.
  assert (forall i, (replicate n 1 ++ replicate (N - n) 0) !! i = Some 0 ->
                    (n <= i < N)%nat) as Hzero.
  { intros i Hi. destruct (decide (i < n)%nat) as [Hlt|Hge].
    - rewrite lookup_app_l in Hi by (rewrite length_replicate; lia).
      apply lookup_replicate in Hi as [Hi _]. discriminate.
    - rewrite lookup_app_r in Hi by (rewrite length_replicate; lia).
      apply lookup_replicate in Hi as [_ Hi]. rewrite length_replicate in Hi.
      unfold n in *. lia. }
  exists (take n (wrapped m text) ++ replicate (N - n) 0),
         (replicate n 1 ++ replicate (N - n) 0), n.
  split; [exact Hc|]. split; [reflexivity|].
  split; [rewrite length_app, length_replicate, <- Htk, Hlen; unfold n; lia|].
  split; [reflexivity|]. split; [reflexivity|]. split.
  - intros i j Hij Hi Hj. apply Hzero in Hi.
    rewrite lookup_app_r in Hj by (rewrite length_replicate; lia).
    apply lookup_replicate in Hj as [Hj _]. discriminate.
  - intros i Hi. apply Hzero in Hi.
    rewrite lookup_app_r by (rewrite <- Htk, Hlen; lia).
    apply lookup_replicate_2. rewrite <- Htk, Hlen. lia.
Qed.

(** The tensors of [Embed] for a batch that is not empty: row [i] of the
    id tensor and of the mask tensor is what [encode] returns for input
    [i], every row has exactly [maxLen] entries, and the token-type ids
    are all zero. *)
Lemma Embed_tensors_rows m (inputs : list string) :
  0 <= maxLen m -> inputs <> [] ->
  exists rows,
    mapM (fun t => encode m t (maxLen m)) inputs = Some rows
    /\ Forall (fun r => length r.1 = Z.to_nat (maxLen m)
                        /\ length r.2 = Z.to_nat (maxLen m)) rows
    /\ Embed_tensors m inputs
       = Some (Tensors (concat rows.*1) (concat rows.*2)
                 (replicate (length inputs * Z.to_nat (maxLen m)) 0)).
Proof.
  intros Hpos Hne.
  assert (exists rows, mapM (fun t => encode m t (maxLen m)) inputs = Some rows)
    as [rows Hrows].
  { change (is_Some (mapM (fun t => encode m t (maxLen m)) inputs)).
    apply mapM_is_Some, Forall_forall. intros t _.
    eexists. apply (encode_closed m t (maxLen m) Hpos). }
  pose proof Hrows as HF. apply mapM_Some in HF.
  assert (Forall (fun r => length r.1 = Z.to_nat (maxLen m)
                           /\ length r.2 = Z.to_nat (maxLen m)) rows) as Hw.
  { apply Forall_forall. intros r Hr.
    apply list_elem_of_lookup in Hr as [i Hi].
    destruct (Forall2_lookup_r _ _ _ _ _ HF Hi) as (t & _ & Ht).
    rewrite (encode_closed m t (maxLen m) Hpos) in Ht. inversion Ht; subst r.
    cbn [fst snd]. rewrite !length_app, !length_replicate, length_take. lia. }
  exists rows. split; [exact Hrows|]. split; [exact Hw|].
  unfold Embed_tensors, batchTokenize.
  destruct inputs as [|t0 inputs0] eqn:Ein; [congruence|]. rewrite <- Ein in *.
  assert ((length inputs =? 0)%nat = false) as -> by (subst; reflexivity).
  rewrite Hrows. cbn [mbind option_bind]. unfold make.
  assert ((Z.of_nat (length inputs) * maxLen m <? 0) = false) as ->
    by (apply Z.ltb_ge; nia).
  cbn [mbind option_bind].
  assert (Z.to_nat (Z.of_nat (length inputs) * maxLen m)
          = (length rows.*1 * Z.to_nat (maxLen m))%nat) as ->.
  { rewrite length_fmap, <- (Forall2_length _ _ _ HF). nia. }
  assert (length inputs = length rows.*1) as ->
    by (rewrite length_fmap; eapply Forall2_length; exact HF).
  rewrite (copy_loop rows.*1 rows.*2 (Z.to_nat (maxLen m))).
  - rewrite Nat.sub_diag. cbn [Nat.mul replicate].
    rewrite !app_nil_r, firstn_all.
    replace (length rows.*1) with (length rows.*2) at 1 by (rewrite !length_fmap; reflexivity).
    rewrite firstn_all. reflexivity.
  - rewrite !length_fmap. reflexivity.
  - apply Forall_fmap. eapply Forall_impl; [exact Hw|]. intros r [Ha _]. exact Ha.
  - apply Forall_fmap. eapply Forall_impl; [exact Hw|]. intros r [_ Hb]. exact Hb.
  - lia.
Qed.

End WithGoStd.

End EncodeFacts.

(** ** Basic tokens never start with the continuation marker *)

Module BasicTokenFacts.
Import Go WordPiece WordPieceSpec GoFacts WordPieceFacts.

Lemma starts_clean_HasPrefix s : starts_clean s -> HasPrefix s "##" = false.
Proof.
  destruct s as [|c [|d s]]; intros Hc; try reflexivity.
  unfold HasPrefix. cbn [String.length Nat.leb str_take andb].
  apply String.eqb_neq. intros [= E _]. exact (Hc E).
Qed.

Lemma starts_clean_app s t :
  s <> "" -> starts_clean s -> starts_clean (s +:+ t).
Proof. destruct s; [congruence | intros _ Hc; exact Hc]. Qed.

Lemma of_byte_clean b : 0 <= b < 256 -> b <> 35 -> of_byte b <> "#"%char.
Proof.
  intros Hb Hne E. unfold of_byte in E.
  apply (f_equal N_of_ascii) in E.
  rewrite N_ascii_embedding in E by lia.
  apply Hne. change (N_of_ascii "#") with 35%N in E. lia.
Qed.

Ltac try_values x lo n :=
  lazymatch n with
  | O => exfalso; lia
  | S ?n' =>
      destruct (Z.eq_dec x lo) as [->|?];
      [ apply of_byte_clean; vm_compute; intuition discriminate
      | let lo' := eval vm_compute in (lo + 1) in try_values x lo' n' ]
  end.

(** The encoding of a rune other than '#' does not start with '#'. *)
Lemma utf8_encode_clean r : r <> 35 -> starts_clean (utf8_encode r).
Proof.
  intros Hr. unfold utf8_encode.
  destruct ((0 <=? r) && (r <? 0x80)) eqn:H1.
  { apply andb_prop in H1 as [Ha Hb]. apply Z.leb_le in Ha. apply Z.ltb_lt in Hb.
    cbn. apply of_byte_clean; lia. }
  destruct ((0 <=? r) && (r <? 0x800)) eqn:H2.
  { apply andb_prop in H2 as [Ha Hb]. apply Z.leb_le in Ha. apply Z.ltb_lt in Hb.
    cbn [str_of_bytes fold_right starts_clean].
    rewrite Z.shiftr_div_pow2 by lia.
    assert (0 <= r / 2 ^ 6 < 32) as Hx
      by (split; [apply Z.div_pos; lia | apply Z.div_lt_upper_bound; lia]).
    generalize dependent (r / 2 ^ 6). intros x Hx.
    try_values x 0 32%nat. }
  destruct ((r <? 0) || (0x10FFFF <? r) || ((0xD800 <=? r) && (r <=? 0xDFFF))) eqn:H3.
  { cbn. discriminate. }
  rewrite !orb_false_iff in H3. destruct H3 as [[Ha Hb] _].
  apply Z.ltb_ge in Ha, Hb.
  destruct (r <? 0x10000) eqn:H4.
  - apply Z.ltb_lt in H4. cbn [str_of_bytes fold_right starts_clean].
    rewrite Z.shiftr_div_pow2 by lia.
    assert (0 <= r / 2 ^ 12 < 16) as Hx
      by (split; [apply Z.div_pos; lia | apply Z.div_lt_upper_bound; lia]).
    generalize dependent (r / 2 ^ 12). intros x Hx.
    try_values x 0 16%nat.
  - cbn [str_of_bytes fold_right starts_clean].
    rewrite Z.shiftr_div_pow2 by lia.
    assert (0 <= r / 2 ^ 18 < 5) as Hx
      by (split; [apply Z.div_pos; lia | apply Z.div_lt_upper_bound; lia]).
    generalize dependent (r / 2 ^ 18). intros x Hx.
    try_values x 0 5%nat.
Qed.

Lemma utf8_encode_nonempty r : utf8_encode r <> "".
Proof.
  unfold utf8_encode.
  repeat match goal with
         | |- context [if ?c then _ else _] => destruct c
         end; discriminate.
Qed.

Lemma append_nonempty_r s t : t <> "" -> s +:+ t <> "".
Proof. destruct s; [intros H; exact H | discriminate]. Qed.

Section WithGoStd.
Context `{GoStd}.

(** Go's tables: '#' is neither a letter nor a digit. *)
Hypothesis hash_not_letter : unicode_IsLetter 35 = false.
Hypothesis hash_not_digit : unicode_IsDigit 35 = false.

Lemma basicTokens_loop_clean rs : forall b out,
  starts_clean b -> Forall (fun t => t <> "" /\ starts_clean t) out ->
  Forall (fun t => t <> "" /\ starts_clean t) (basicTokens_loop rs b out).
Proof.
  assert (forall b out, starts_clean b ->
            Forall (fun t => t <> "" /\ starts_clean t) out ->
            starts_clean (fst (flush b out))
            /\ Forall (fun t => t <> "" /\ starts_clean t) (snd (flush b out)))
    as Hflush.
  { intros b out Hb Hout. unfold flush.
    destruct (Nat.ltb_spec 0 (String.length b)) as [Hlt|Hge]; cbn [fst snd].
    - split; [exact I|]. apply Forall_app. split; [exact Hout|].
      constructor; [|constructor]. split; [|exact Hb].
      intros ->. simpl in Hlt. lia.
    - split; assumption. }
  induction rs as [|r rs IH]; intros b out Hb Hout; cbn [basicTokens_loop].
  - apply Hflush; assumption.
  - destruct (unicode_IsLetter r || unicode_IsDigit r) eqn:Hr.
    + apply IH; [|exact Hout].
      assert (r <> 35) as Hne.
      { intros ->. rewrite hash_not_letter, hash_not_digit in Hr. discriminate. }
      destruct b as [|c b].
      * apply utf8_encode_clean. exact Hne.
      * exact Hb.
    + destruct (Hflush b out Hb Hout) as [Hb' Hout'].
      destruct (flush b out) as [b' out']. apply IH; assumption.
Qed.

(** Every basic token is a non-empty string that does not start with
    the continuation marker. *)
Lemma basicTokens_clean text tok :
  In tok (basicTokens text) -> tok <> "" /\ HasPrefix tok "##" = false.
Proof.
  intros Hin.
  pose proof (basicTokens_loop_clean (utf8_decode (strings_ToLower text)) "" []
                I (List.Forall_nil _)) as HF.
  rewrite Forall_forall in HF.
  destruct (HF tok) as [Hne Hc]; [apply list_elem_of_In; exact Hin|].
  split; [exact Hne | apply starts_clean_HasPrefix; exact Hc].
Qed.

(** On a basic token [tokenizeWord] returns the piece sequence of the
    specification. *)
Lemma tokenizeWord_basic_token (w : wordPiece) text tok :
  In tok (basicTokens text) ->
  WordPieces w true tok (tokenizeWord w tok).
Proof.
  intros Hin. apply basicTokens_clean in Hin as [Hne Hm].
  unfold tokenizeWord, tokenizeWord_fuel.
  destruct (String.eqb_spec tok "") as [->|_]; [constructor|].
  destruct (loop_WordPieces w (S (String.length tok)) tok [])
    as (res & Hl & Hres); [lia | intros _; exact Hm |].
  rewrite Hl. exact Hres.
Qed.

End WithGoStd.

End BasicTokenFacts.

(** ** Properties of the generation loops *)

Module QwenFacts.
Import Go Float Qwen GoFacts.

Ltac break_match :=
  repeat match goal with
         | |- context [match ?x with _ => _ end] => destruct x eqn:?
         end.

(** The forward pass leaves the sequence, the text and the callback log
    as they are, and records at most one run. *)
Lemma forward_state q st onerr :
  ids (fst (forward q st onerr)) = ids st
  /\ outText (fst (forward q st onerr)) = outText st
  /\ cbs (fst (forward q st onerr)) = cbs st
  /\ (runs (fst (forward q st onerr)) = runs st
      \/ runs (fst (forward q st onerr))
         = runs st ++ [(ids st, (fun _ => 1) <$> ids st,
                        imap (fun i _ => Z.of_nat i) (ids st))]).
Proof.
  unfold forward. break_match; cbn; auto.
Qed.

(** With tensors that are created without error, the forward pass runs
    the session once, on the current sequence. *)
Lemma forward_runs q st onerr :
  (forall shape data, NewTensor (session q) shape data = None) ->
  runs (fst (forward q st onerr))
  = runs st ++ [(ids st, (fun _ => 1) <$> ids st,
                 imap (fun i _ => Z.of_nat i) (ids st))].
Proof.
  intros HT. unfold forward. rewrite !HT. break_match; reflexivity.
Qed.

(** An error return of the forward pass carries the string it was given
    and an error that is not nil. *)
Lemma forward_error q st onerr st' s err :
  forward q st onerr = (st', inl (Return s err)) ->
  s = onerr /\ err <> None.
Proof.
  unfold forward. break_match; intros [= <- <- <-]; split; congruence.
Qed.

(** *** The loop combinator *)

Lemma steps_add body k : forall n t st st',
  steps body k t st = Continue st' ->
  steps body (k + n) t st = steps body n (t + k) st'.
Proof.
  induction k as [|k IH]; intros n t st st' Hk.
  - cbn in Hk. inversion Hk; subst. rewrite Nat.add_0_r. reflexivity.
  - cbn [steps Nat.add] in *.
    destruct (body t st) as [st1|st1|st1 o]; try discriminate.
    rewrite (IH n (S t) st1 st' Hk). f_equal. lia.
Qed.

(** An invariant of the states of the body is an invariant of the loop. *)
Lemma steps_invariant (P : State -> Prop) body :
  (forall t st, P st -> P (state_of (body t st))) ->
  forall k t st, P st -> P (state_of (steps body k t st)).
Proof.
  intros Hb. induction k as [|k IH]; intros t st Hst; [exact Hst|].
  cbn [steps]. specialize (Hb t st Hst).
  destruct (body t st) as [st1|st1|st1 o]; cbn [state_of] in *; auto.
Qed.

(** The same for a relation to the state the loop started from. *)
Lemma steps_invariant_rel (R : State -> State -> Prop) body :
  (forall st, R st st) ->
  (forall t st0 st, R st0 st -> R st0 (state_of (body t st))) ->
  forall k t st, R st (state_of (steps body k t st)).
Proof.
  intros Hr Hb k t st.
  apply (steps_invariant (R st) body); [|apply Hr].
  intros t' st'. apply Hb.
Qed.

(** *** The sliding window of [Generate] *)

Lemma Generate_body_window q t st :
  Z.of_nat (length (ids st)) <= maxLen q ->
  Z.of_nat (length (ids (state_of (Generate_body q t st)))) <= maxLen q.
Proof.
  intros Hw. unfold Generate_body.
  destruct (forward_state q st "") as (Hi & _).
  destruct (forward q st "") as [st1 [o|next]]; cbn [fst state_of] in *.
  - rewrite Hi. exact Hw.
  - assert (Z.of_nat (length
              (if Z.of_nat (length (ids st1 ++ [next])) >? maxLen q
               then drop 1 (ids st1 ++ [next]) else ids st1 ++ [next]))
            <= maxLen q) as Hlen.
    { destruct (Z.gtb_spec (Z.of_nat (length (ids st1 ++ [next]))) (maxLen q))
        as [Hgt|Hle]; [|exact Hle].
      rewrite length_drop, length_app, Hi. simpl. lia. }
    destruct (IsEOS (tok q) next); exact Hlen.
Qed.

(** *** What the bodies do to the state *)

Lemma forward_inl q st onerr st' o :
  forward q st onerr = (st', inl o) ->
  o = Panic \/ exists e, o = Return onerr (Some e).
Proof.
  unfold forward. break_match; intros [= <- <-]; eauto.
Qed.

Lemma Generate_body_runs q t st :
  runs (state_of (Generate_body q t st)) = runs (fst (forward q st "")).
Proof.
  unfold Generate_body.
  destruct (forward q st "") as [st1 [o|next]]; [reflexivity|].
  destruct (IsEOS (tok q) next); reflexivity.
Qed.

Lemma Generate_body_Exit q t st st' o :
  Generate_body q t st = Exit st' o ->
  o = Panic \/ exists e, o = Return "" (Some e).
Proof.
  unfold Generate_body.
  destruct (forward q st "") as [st1 [o1|next]] eqn:Hf.
  - intros [= <- <-]. eapply forward_inl; eassumption.
  - destruct (IsEOS (tok q) next); discriminate.
Qed.

Lemma steps_Generate_Exit q k : forall t st st' o,
  steps (Generate_body q) k t st = Exit st' o ->
  o = Panic \/ exists e, o = Return "" (Some e).
Proof.
  induction k as [|k IH]; intros t st st' o Hs; [discriminate|].
  cbn [steps] in Hs.
  destruct (Generate_body q t st) as [st1|st1|st1 o1] eqn:Hb.
  - eapply IH; eassumption.
  - discriminate.
  - inversion Hs; subst. eapply Generate_body_Exit; eassumption.
Qed.

Lemma callback_body_runs q ctx cb t st :
  runs (state_of (GenerateWithCallback_body q ctx cb t st)) = runs st
  \/ runs (state_of (GenerateWithCallback_body q ctx cb t st))
     = runs (fst (forward q st (outText st))).
Proof.
  unfold GenerateWithCallback_body.
  destruct (ctx t); [left; reflexivity|]. right.
  destruct (forward q st (outText st)) as [st1 [o|next]]; [reflexivity|].
  destruct (IsEOS (tok q) next); [reflexivity|]. destruct cb; reflexivity.
Qed.

(** An iteration of the streaming loop that goes on to the next one has
    polled a context that was not done, and leaves in [outText] the
    decoding of the whole sequence, the new id included. *)
Lemma callback_body_Continue q ctx cb t st st' :
  GenerateWithCallback_body q ctx cb t st = Continue st' ->
  ctx t = None
  /\ outText st' = Decode (tok q) (ids st')
  /\ length (ids st') = S (length (ids st)).
Proof.
  unfold GenerateWithCallback_body.
  destruct (ctx t); [discriminate|].
  destruct (forward_state q st (outText st)) as (Hi & _).
  destruct (forward q st (outText st)) as [st1 [o|next]]; [discriminate|].
  cbn [fst] in Hi.
  destruct (IsEOS (tok q) next); [discriminate|].
  destruct cb; intros [= <-]; cbn; rewrite ?length_app, Hi; simpl;
    (split; [reflexivity|]; split; [reflexivity|]; lia).
Qed.

Lemma steps_callback_Continue q ctx cb k : forall t st st',
  steps (GenerateWithCallback_body q ctx cb) k t st = Continue st' ->
  ((1 <= k)%nat -> outText st' = Decode (tok q) (ids st'))
  /\ length (ids st') = (length (ids st) + k)%nat.
Proof.
  induction k as [|k IH]; intros t st st' Hs.
  - inversion Hs; subst. split; [lia | lia].
  - cbn [steps] in Hs.
    destruct (GenerateWithCallback_body q ctx cb t st) as [st1|st1|st1 o] eqn:Hb;
      try discriminate.
    apply callback_body_Continue in Hb as (_ & Hout & Hlen).
    destruct (IH _ _ _ Hs) as [Ht Hl]. split; [|lia].
    intros _. destruct k as [|k]; [|apply Ht; lia].
    inversion Hs; subst. exact Hout.
Qed.

Lemma budget_pos maxTokens : 1 <= budget maxTokens.
Proof. unfold budget. destruct (Z.leb_spec maxTokens 0); lia. Qed.

Section WithGoStd.
Context `{GoStd}.

Lemma Encode_nonempty (t : bpeTokenizer) (s : string) : Encode t s <> [].
Proof.
  unfold Encode.
  destruct (Nat.eqb_spec (length (foldl (fun ids p =>
             match vocab t !! p with
             | Some id => ids ++ [id]
             | None => ids ++ [0]
             end) [] (strings_Fields s))) 0) as [_|Hne]; [discriminate|].
  intros E. rewrite E in Hne. apply Hne. reflexivity.
Qed.

(** The sequence the loops start from fits the window; a start that
    does not panic has a window that is not negative. *)
Lemma start_window q prompt st :
  start q prompt = Some st ->
  Z.of_nat (length (ids st)) <= maxLen q
  /\ outText st = "" /\ runs st = [] /\ cbs st = [].
Proof.
  unfold start.
  destruct (Z.gtb_spec (Z.of_nat (length (Encode (tok q) prompt))) (maxLen q))
    as [Hgt|Hle].
  - unfold slice.
    destruct ((0 <=? Z.of_nat (length (Encode (tok q) prompt)) - maxLen q)
              && (Z.of_nat (length (Encode (tok q) prompt)) - maxLen q
                  <=? Z.of_nat (length (Encode (tok q) prompt)))
              && (Z.of_nat (length (Encode (tok q) prompt))
                  <=? Z.of_nat (length (Encode (tok q) prompt)))) eqn:Hb;
      [|discriminate].
    cbn [mbind option_bind]. intros [= <-]. cbn [ids outText runs cbs].
    repeat split; try reflexivity.
    rewrite !andb_true_iff, !Z.leb_le in Hb. destruct Hb as [[H0 Hl] _].
    rewrite length_take, length_drop. lia.
  - cbn [mbind option_bind]. intros [= <-]. cbn [ids outText runs cbs].
    repeat split; try reflexivity. exact Hle.
Qed.

(** The state [Generate] ends in is the state its loop ends in. *)
Lemma Generate_run_state q ctx prompt maxTokens st0 :
  start q prompt = Some st0 ->
  fst (Generate_run q ctx prompt maxTokens)
  = state_of (steps (Generate_body q) (Z.to_nat (budget maxTokens)) 0 st0).
Proof.
  intros Hs. unfold Generate_run. rewrite Hs.
  destruct (steps (Generate_body q) (Z.to_nat (budget maxTokens)) 0 st0);
    reflexivity.
Qed.

(** C1, as the code has it. A budget of zero, or any budget that is not
    positive, is replaced by the default of 64: [Generate] then does what
    it does with [maxTokens = 64], and its first step invokes the
    inference session on the encoded prompt (the runtime creating its
    tensors without error). *)
Theorem Generate_nonpositive_budget (q : QwenONNX) (ctx : Context)
  (prompt : string) (maxTokens : Z) :
  maxTokens <= 0 ->
  Generate_run q ctx prompt maxTokens = Generate_run q ctx prompt 64
  /\ forall st0,
       start q prompt = Some st0 ->
       (forall shape data, NewTensor (session q) shape data = None) ->
       exists more,
         runs (fst (Generate_run q ctx prompt maxTokens))
         = (ids st0, (fun _ => 1) <$> ids st0,
            imap (fun i _ => Z.of_nat i) (ids st0)) :: more.
Proof.
  intros Hle.
  assert (budget maxTokens = 64) as Hb
    by (unfold budget; destruct (Z.leb_spec maxTokens 0); [reflexivity | lia]).
  split; [unfold Generate_run; rewrite Hb; reflexivity|].
  intros st0 Hs HT. rewrite (Generate_run_state _ _ _ _ _ Hs), Hb.
  apply start_window in Hs as (_ & _ & Hr & _).
  assert (exists n, Z.to_nat 64 = S n) as [n ->] by (exists 63%nat; reflexivity).
  cbn [steps].
  pose proof (Generate_body_runs q 0 st0) as H1.
  rewrite (forward_runs q st0 "" HT), Hr in H1. cbn [app] in H1.
  set (r := (ids st0, (fun _ => 1) <$> ids st0,
             imap (fun i _ => Z.of_nat i) (ids st0))) in *.
  assert (forall st, (exists more, runs st = r :: more) ->
            forall k t, exists more,
              runs (state_of (steps (Generate_body q) k t st)) = r :: more) as Hkeep.
  { intros st Hst k t.
    apply (steps_invariant (fun st => exists more, runs st = r :: more));
      [|exact Hst].
    intros t' st' [more Hm]. rewrite Generate_body_runs.
    destruct (forward_state q st' "") as (_ & _ & _ & [-> | ->]);
      rewrite Hm; eauto. }
  destruct (Generate_body q 0 st0) as [st1|st1|st1 o]; cbn [state_of] in *.
  - apply Hkeep. exists []. exact H1.
  - exists []. exact H1.
  - exists []. exact H1.
Qed.

(** C2, as the code has it. When the context is found done at the poll
    of iteration [k] of the streaming loop, the function returns in that
    iteration, in the state the loop had reached (no session run and no
    callback in between), with the error of the context, which is not
    nil; the string it returns is [outText], the decoding of the sequence
    as of the last completed step when there is one. *)
Theorem cancellation_returns_context_error (q : QwenONNX) (ctx : Context)
  (prompt : string) (maxTokens : Z) (cb : bool)
  (st0 stk : State) (k : nat) (e : ctx_error) :
  start q prompt = Some st0 ->
  (k < Z.to_nat (budget maxTokens))%nat ->
  steps (GenerateWithCallback_body q ctx cb) k 0 st0 = Continue stk ->
  ctx k = Some e ->
  GenerateWithCallback_run q ctx prompt maxTokens cb
  = (stk, Return (outText stk) (Some (ErrContext e)))
  /\ ((1 <= k)%nat -> outText stk = Decode (tok q) (ids stk)).
Proof.
  intros Hs Hk Hsteps Hctx. split.
  - unfold GenerateWithCallback_run. rewrite Hs.
    replace (Z.to_nat (budget maxTokens))
      with (k + S (Z.to_nat (budget maxTokens) - k - 1))%nat by lia.
    rewrite (steps_add _ _ _ _ _ _ Hsteps). cbn [steps Nat.add].
    unfold GenerateWithCallback_body at 1. rewrite Hctx. reflexivity.
  - apply steps_callback_Continue in Hsteps as [Ht _]. exact Ht.
Qed.

(** The window of [Generate]: after every number of steps the live
    sequence holds at most [maxLen] ids. *)
Lemma Generate_window q prompt st0 k :
  start q prompt = Some st0 ->
  Z.of_nat (length (ids (state_of (steps (Generate_body q) k 0 st0)))) <= maxLen q.
Proof.
  intros Hs. apply start_window in Hs as (Hw & _).
  apply (steps_invariant (fun st => Z.of_nat (length (ids st)) <= maxLen q));
    [|exact Hw].
  intros t st. apply Generate_body_window.
Qed.

(** The streaming loop has no window: every completed step makes the
    sequence one id longer. *)
Lemma callback_sequence_grows q ctx cb st0 k stk :
  steps (GenerateWithCallback_body q ctx cb) k 0 st0 = Continue stk ->
  length (ids stk) = (length (ids st0) + k)%nat.
Proof. intros Hs. apply steps_callback_Continue in Hs as [_ Hl]. exact Hl. Qed.

(** [Generate] returns without error the decoding of the whole sequence
    it ends with. *)
Lemma Generate_returns_decoding q ctx prompt maxTokens st s :
  Generate_run q ctx prompt maxTokens = (st, Return s None) ->
  s = Decode (tok q) (ids st).
Proof.
  unfold Generate_run. destruct (start q prompt) as [st0|]; [|discriminate].
  destruct (steps (Generate_body q) (Z.to_nat (budget maxTokens)) 0 st0)
    as [st1|st1|st1 o] eqn:Hst.
  - intros [= <- <-]. reflexivity.
  - intros [= <- <-]. reflexivity.
  - intros [= <- ->]. apply steps_Generate_Exit in Hst as [Hp|[e He]]; discriminate.
Qed.

(** When the budget is used up, the streaming loop returns the decoding
    of the whole sequence it ends with. *)
Lemma callback_budget_returns_decoding q ctx prompt maxTokens cb st0 st :
  start q prompt = Some st0 ->
  steps (GenerateWithCallback_body q ctx cb) (Z.to_nat (budget maxTokens)) 0 st0
  = Continue st ->
  GenerateWithCallback_run q ctx prompt maxTokens cb
  = (st, Return (Decode (tok q) (ids st)) None).
Proof.
  intros Hs Hst. unfold GenerateWithCallback_run. rewrite Hs, Hst.
  apply steps_callback_Continue in Hst as [Ht _].
  rewrite Ht by (pose proof (budget_pos maxTokens); lia). reflexivity.
Qed.

End WithGoStd.

End QwenFacts.

(** ** Properties of the hash embedder *)

Module HashFacts.
Import Go Float HashEmbed.

(** The loop [for i, s := range inputs { out[i] = f(s) }], with a body
    that may panic, is the map of [f] over the inputs. *)
Lemma collect_loop {A B} (f : A -> option B) (l : list A) : forall (pre : list B),
  foldl (fun acc s => out ← acc; v ← f s; Some (out ++ [v])) (Some pre) l
  = (fun vs => pre ++ vs) <$> mapM f l.
Proof.
  induction l as [|x l IH]; intros pre.
  - cbn. rewrite app_nil_r. reflexivity.
  - cbn [foldl mapM]. cbn [mbind option_bind].
    destruct (f x) as [v|]; cbn [mbind option_bind].
    + rewrite IH. destruct (mapM f l) as [vs|]; cbn; [|reflexivity].
      rewrite <- app_assoc. reflexivity.
    + clear IH. induction l as [|y l IH]; [reflexivity | exact IH].
Qed.

Section WithGoStd.
Context `{GoStd}.

Lemma Embed_mapM h inputs :
  Embed h inputs = (out ← mapM (embedOne h) inputs; Some (out, modelName h)).
Proof.
  unfold Embed. rewrite (collect_loop (embedOne h) inputs []).
  destruct (mapM (embedOne h) inputs); reflexivity.
Qed.

Lemma bucket_length h vec tok vec' :
  bucket h vec tok = Some vec' -> length vec' = length vec.
Proof.
  unfold bucket. destruct (wrap32u (dim h) =? 0); [discriminate|].
  intros [= <-]. apply length_alter.
Qed.

(** With a dimension between 1 and [2^32 - 1], [embedOne] does not
    panic and returns a vector of that dimension. *)
Lemma embedOne_total h text :
  0 < dim h < 2 ^ 32 ->
  exists v, embedOne h text = Some v /\ length v = Z.to_nat (dim h).
Proof.
  intros Hd. unfold embedOne, make.
  assert ((dim h <? 0) = false) as -> by (apply Z.ltb_ge; lia).
  cbn [mbind option_bind].
  destruct (length (wordRE_FindAllString (strings_ToLower text)) =? 0)%nat.
  { eexists. split; [reflexivity|]. apply length_replicate. }
  assert (forall toks vec, length vec = Z.to_nat (dim h) ->
            exists vec', foldl (fun acc tok => vec ← acc; bucket h vec tok)
                               (Some vec) toks = Some vec'
                         /\ length vec' = Z.to_nat (dim h)) as Hloop.
  { induction toks as [|tok toks IH]; intros vec Hl; [eauto|].
    cbn [foldl mbind option_bind].
    destruct (bucket h vec tok) as [vec1|] eqn:Hb.
    - apply IH. rewrite (bucket_length _ _ _ _ Hb). exact Hl.
    - unfold bucket in Hb.
      assert ((wrap32u (dim h) =? 0) = false) as Hz.
      { apply Z.eqb_neq. unfold wrap32u. rewrite Z.mod_small; lia. }
      rewrite Hz in Hb. discriminate. }
  destruct (Hloop (wordRE_FindAllString (strings_ToLower text))
              (replicate (Z.to_nat (dim h)) f32_zero) (length_replicate _ _))
    as (vec & -> & Hl).
  cbn [mbind option_bind].
  destruct (gt _ f64_zero); eexists; (split; [reflexivity|]);
    rewrite ?length_fmap; exact Hl.
Qed.

(** C8. [Embed] is a function of its inputs alone, text by text: the
    vector at a position is [embedOne] of the text at that position, so
    two calls on equal lists return the same vectors, and in one call
    equal texts get equal vectors; an embedder built by [New] returns one
    vector for each input and never panics. *)
Theorem Embed_deterministic (h : hashEmbedder) (inputs : list string) :
  (forall inputs', inputs' = inputs -> Embed h inputs' = Embed h inputs)
  /\ (forall out name,
        Embed h inputs = Some (out, name) ->
        length out = length inputs
        /\ (forall i s, inputs !! i = Some s -> out !! i = embedOne h s)
        /\ (forall i j, inputs !! i = inputs !! j -> out !! i = out !! j))
  /\ (forall cfg, exists out,
        Embed (New cfg) inputs = Some (out, modelName (New cfg))
        /\ length out = length inputs).
Proof.
  split; [intros inputs' ->; reflexivity|].
  assert (forall h0 out name,
            Embed h0 inputs = Some (out, name) ->
            Forall2 (fun s v => embedOne h0 s = Some v) inputs out) as HF.
  { intros h0 out name. rewrite Embed_mapM.
    destruct (mapM (embedOne h0) inputs) as [vs|] eqn:Hm; [|discriminate].
    cbn. intros [= <- <-]. apply mapM_Some. exact Hm. }
  split.
  - intros out name HE. specialize (HF h out name HE).
    assert (forall i s, inputs !! i = Some s -> out !! i = embedOne h s) as Hpos.
    { intros i s Hi.
      destruct (Forall2_lookup_l _ _ _ _ _ HF Hi) as (v & Hv & Hs).
      rewrite Hv, Hs. reflexivity. }
    split; [symmetry; eapply Forall2_length; exact HF|].
    split; [exact Hpos|].
    intros i j Hij. destruct (inputs !! i) as [s|] eqn:Hi.
    + rewrite (Hpos i s Hi), (Hpos j s (eq_sym Hij)). reflexivity.
    + apply Forall2_length in HF.
      rewrite (lookup_ge_None_2 out i), (lookup_ge_None_2 out j);
        [reflexivity| |]; rewrite <- HF; apply lookup_ge_None; congruence.
  - intros cfg. rewrite Embed_mapM.
    assert (exists vs, mapM (embedOne (New cfg)) inputs = Some vs) as [vs Hvs].
    { change (is_Some (mapM (embedOne (New cfg)) inputs)).
      apply mapM_is_Some. apply Forall_forall. intros s _.
      destruct (embedOne_total (New cfg) s) as (v & Hv & _); [cbn; lia|].
      exists v. exact Hv. }
    rewrite Hvs. cbn. eexists. split; [reflexivity|].
    apply mapM_Some in Hvs. symmetry. eapply Forall2_length. exact Hvs.
Qed.

End WithGoStd.

End HashFacts.

(** ** The tokenizers never return an empty sequence *)

Module TokenizerFacts.
Import Go WordPiece Qwen GoFacts EncodeFacts QwenFacts.

Section WithGoStd.
Context `{GoStd}.

(** C7. For every input string [Encode] returns a sequence that is not
    empty: the direct lookup falls back to the single id 0 when the
    string has no field, and the WordPiece sequence starts with the
    sequence-start id, before the cut to [maxLen] and, for a [maxLen] of
    one or more, in the array that [encode] returns. *)
Theorem Encode_never_empty :
  (forall (t : bpeTokenizer) (s : string),
     Qwen.Encode t s <> []
     /\ (strings_Fields s = [] -> Qwen.Encode t s = [0]))
  /\ (forall (m : miniLMOnnx) (text : string),
        exists rest, wrapped m text = clsID (tokenizer m) :: rest)
  /\ (forall (m : miniLMOnnx) (text : string) (maxLen : Z),
        1 <= maxLen ->
        exists ids mask rest,
          encode m text maxLen = Some (ids, mask)
          /\ ids = clsID (tokenizer m) :: rest
          /\ mask !! 0%nat = Some 1).
Proof.
  split; [|split].
  - intros t s. split; [apply Encode_nonempty|].
    intros Hf. unfold Qwen.Encode. rewrite Hf. reflexivity.
  - apply wrapped_cls.
  - intros m text maxLen Hpos.
    pose proof (encode_closed m text maxLen ltac:(lia)) as Hc. cbn zeta in Hc.
    destruct (wrapped_cls m text) as [rest Hw].
    assert (exists n, Z.to_nat maxLen = S n) as [n Hn]
      by (exists (Z.to_nat maxLen - 1)%nat; lia).
    rewrite Hn, Hw in Hc. cbn [take length replicate app] in Hc.
    eexists _, _, _. split; [exact Hc|]. split; reflexivity.
Qed.

End WithGoStd.

End TokenizerFacts.

(** ** The services on concrete inputs *)

Module Scenarios.
Import Go Float WordPiece Qwen Ascii7 Samples.
Import GoFacts EncodeFacts QwenFacts TokenizerFacts HashFacts.

Lemma Encode_never_empty_witness :
  1 <= 128
  /\ Qwen.Encode bpe "" = [0]
  /\ exists ids mask rest,
       encode minilm "" 128 = Some (ids, mask)
       /\ ids = clsID (tokenizer minilm) :: rest
       /\ mask !! 0%nat = Some 1.
Proof.
  split; [lia|]. split.
  - apply (proj1 Encode_never_empty bpe ""). reflexivity.
  - apply (proj2 (proj2 Encode_never_empty) minilm "" 128). lia.
Defined.

Lemma encode_mask_is_prefix_witness :
  0 <= 8
  /\ exists (ids mask : list Z) (n : nat),
       encode minilm "unaffable a" 8 = Some (ids, mask)
       /\ n = (length (wrapped minilm "unaffable a") `min` Z.to_nat 8)%nat
       /\ length ids = Z.to_nat 8
       /\ ids = take n (wrapped minilm "unaffable a") ++ replicate (Z.to_nat 8 - n) 0
       /\ mask = replicate n 1 ++ replicate (Z.to_nat 8 - n) 0
       /\ (forall i j, (i <= j)%nat -> mask !! i = Some 0 -> mask !! j <> Some 1)
       /\ (forall i, mask !! i = Some 0 -> ids !! i = Some 0).
Proof.
  split; [lia|]. apply (encode_mask_is_prefix minilm "unaffable a" 8). lia.
Defined.

(** C1, as the specification states it, fails on its own scenario:
    [Generate("the cat sat", maxTokens=0)] runs 64 steps, invokes the
    session in each of them and returns a text that is not empty. *)
Lemma Generate_zero_budget_runs_session :
  Generate qwen background "the cat sat" 0 <> Return "" None
  /\ length (runs (fst (Generate_run qwen background "the cat sat" 0))) = 64%nat.
Proof. split; [vm_compute; discriminate | vm_compute; reflexivity]. Qed.

Lemma Generate_nonpositive_budget_witness :
  0 <= 0
  /\ Generate_run qwen background "the cat sat" 0 = Generate_run qwen background "the cat sat" 64
  /\ exists more,
       runs (fst (Generate_run qwen background "the cat sat" 0))
       = ([0; 1; 2], [1; 1; 1], [0; 1; 2]) :: more.
Proof.
  split; [lia|].
  destruct (Generate_nonpositive_budget qwen background "the cat sat" 0 ltac:(lia))
    as [Heq Hrun].
  split; [exact Heq|].
  apply (Hrun st_prompt); reflexivity.
Defined.

(** C2, as the specification states it, fails when the context is
    cancelled after two steps: the error returned is the error of the
    context, not nil. *)
Lemma cancellation_error_is_not_nil :
  GenerateWithCallback qwen (cancelled_from 2) "the cat sat" 5 true
  = Return "the cat sat cat cat" (Some (ErrContext Canceled))
  /\ forall s, GenerateWithCallback qwen (cancelled_from 2) "the cat sat" 5 true
               <> Return s None.
Proof.
  assert (GenerateWithCallback qwen (cancelled_from 2) "the cat sat" 5 true
          = Return "the cat sat cat cat" (Some (ErrContext Canceled))) as E
    by (vm_compute; reflexivity).
  split; [exact E|]. intros s. rewrite E. discriminate.
Qed.

Lemma cancellation_returns_context_error_witness :
  start qwen "the cat sat" = Some st_prompt
  /\ (2 < Z.to_nat (budget 5))%nat
  /\ steps (GenerateWithCallback_body qwen (cancelled_from 2) true) 2 0 st_prompt
     = Continue st_two_steps
  /\ cancelled_from 2 2%nat = Some Canceled
  /\ GenerateWithCallback_run qwen (cancelled_from 2) "the cat sat" 5 true
     = (st_two_steps, Return (outText st_two_steps) (Some (ErrContext Canceled)))
  /\ outText st_two_steps = Decode (tok qwen) (ids st_two_steps).
Proof.
  assert (start qwen "the cat sat" = Some st_prompt) as H1 by reflexivity.
  assert (2 < Z.to_nat (budget 5))%nat as H2 by (vm_compute; lia).
  assert (steps (GenerateWithCallback_body qwen (cancelled_from 2) true) 2 0 st_prompt
          = Continue st_two_steps) as H3 by (vm_compute; reflexivity).
  assert (cancelled_from 2 2%nat = Some Canceled) as H4 by reflexivity.
  destruct (cancellation_returns_context_error qwen (cancelled_from 2)
              "the cat sat" 5 true st_prompt st_two_steps 2 Canceled H1 H2 H3 H4)
    as [Hrun Htext].
  split; [exact H1|]. split; [exact H2|]. split; [exact H3|].
  split; [exact H4|]. split; [exact Hrun|]. apply Htext. lia.
Defined.

(** C3, on the streaming loop: with a prompt of 512 ids, the window of
    the service, one step of [GenerateWithCallback] leaves a live
    sequence of 513 ids, where [Generate] keeps 512. *)
Theorem callback_sequence_exceeds_window :
  maxLen qwen = 512
  /\ length (Qwen.Encode (tok qwen) (words 512)) = 512%nat
  /\ length (ids (fst (GenerateWithCallback_run qwen background (words 512) 1 false)))
     = 513%nat
  /\ length (ids (fst (Generate_run qwen background (words 512) 1))) = 512%nat.
Proof. repeat split; vm_compute; reflexivity. Qed.

(** C4, on the streaming loop: when the first step selects the
    end-of-sequence id, [GenerateWithCallback] returns the empty string,
    although the sequence it ends with decodes to "the cat sat end",
    which is what [Generate] returns. *)
Theorem callback_eos_returns_stale_text :
  exists st,
    GenerateWithCallback_run qwen_eos background "the cat sat" 5 true
    = (st, Return "" None)
    /\ ids st = [0; 1; 2; 3]
    /\ Decode (tok qwen_eos) (ids st) = "the cat sat end"
    /\ Generate qwen_eos background "the cat sat" 5 = Return "the cat sat end" None.
Proof.
  eexists. split; [vm_compute; reflexivity|].
  repeat split; vm_compute; reflexivity.
Qed.

(** C6, on the padding: with a vocabulary whose [PAD] token is on the
    second line, the pad id is 1, and [encode] still fills the positions
    after the sequence with the id 0. *)
Theorem encode_pads_with_zero :
  padID (tokenizer minilm) = 1
  /\ WordPiece.maxLen minilm = 128
  /\ encode minilm "a" (WordPiece.maxLen minilm)
     = Some ([2; 8; 3] ++ replicate 125 0, [1; 1; 1] ++ replicate 125 0)
  /\ Embed_tensors minilm ["a"]
     = Some (Tensors ([2; 8; 3] ++ replicate 125 0) ([1; 1; 1] ++ replicate 125 0)
               (replicate 128 0)).
Proof. repeat split; vm_compute; reflexivity. Qed.

Lemma Embed_deterministic_witness :
  exists out,
    HashEmbed.Embed (HashEmbed.New cfg0) ["x"; "x"]
    = Some (out, "hash-embeddings-384")
    /\ out !! 0%nat = out !! 1%nat
    /\ length out = 2%nat.
Proof.
  destruct (Embed_deterministic (HashEmbed.New cfg0) ["x"; "x"])
    as (_ & Hpos & Htot).
  destruct (Htot cfg0) as (out & HE & Hl).
  exists out. split; [exact HE|].
  destruct (Hpos out _ HE) as (_ & _ & Heq).
  split; [apply Heq; reflexivity | exact Hl].
Defined.

(** The vector of "x": 384 entries, one bucket of magnitude one. *)
Example embedOne_x :
  (fun v => (length v, v !! 135%nat,
             List.filter (fun x => negb (SFeqb x f32_zero)) v))
    <$> HashEmbed.embedOne (HashEmbed.New cfg0) "x"
  = Some (384%nat, Some f32_neg_one, [f32_neg_one]).
Proof. vm_compute. reflexivity. Qed.

End Scenarios.

(** ** More on the WordPiece tokenizer *)

Module WordPieceMore.
Import Go WordPiece WordPieceSpec Props GoFacts WordPieceFacts.

Lemma str_app_assoc (a b c : string) : (a +:+ b) +:+ c = a +:+ b +:+ c.
Proof.
  induction a as [|x a IH]; [reflexivity|].
  change (String x ((a +:+ b) +:+ c) = String x (a +:+ b +:+ c)).
  rewrite IH. reflexivity.
Qed.

Lemma str_app_nil_r (a : string) : a +:+ "" = a.
Proof.
  induction a as [|x a IH]; [reflexivity|].
  change (String x (a +:+ "") = String x a). rewrite IH. reflexivity.
Qed.

Lemma str_concat_app (l1 l2 : list string) :
  str_concat (l1 ++ l2) = str_concat l1 +:+ str_concat l2.
Proof.
  induction l1 as [|x l1 IH]; [reflexivity|].
  cbn [app str_concat fold_right]. fold (str_concat (l1 ++ l2)).
  fold (str_concat l1). rewrite IH, str_app_assoc. reflexivity.
Qed.

(** The ids the loop adds: ids of the vocabulary, then at most one
    unknown id; their number is bounded by the bytes left, and by one
    more when the loop starts on a word that begins with the marker. *)
Lemma loop_shape w fuel : forall tok out res,
  loop fuel w tok out = Some res ->
  exists ps tl,
    res = out ++ ps ++ tl
    /\ Forall (in_vocab w) ps
    /\ (tl = [] \/ tl = [unkID w])
    /\ (tok <> "" -> ps ++ tl <> [])
    /\ (length (ps ++ tl)
        <= String.length tok
           + (if bool_decide (out = []) && HasPrefix tok "##" then 1 else 0))%nat.
Proof.
  induction fuel as [|fuel IH]; intros tok out res Hl.
  - destruct tok; [|discriminate]. inversion Hl; subst.
    exists [], []. rewrite app_nil_r. repeat split; auto. simpl; lia.
  - destruct tok as [|c tok0] eqn:Etok.
    { inversion Hl; subst. exists [], []. rewrite app_nil_r.
      repeat split; auto. simpl; lia. }
    rewrite <- Etok in *.
    assert (loop (S fuel) w tok out
            = match body w tok out with
              | Break out' => Some out'
              | Next tok' out' => loop fuel w tok' out'
              end) as E by (subst; reflexivity).
    rewrite E in Hl. clear E.
    destruct (body w tok out) as [out'|tok' out'] eqn:Hb.
    + apply body_Break in Hb as [-> _]. inversion Hl; subst res.
      exists [], [unkID w]. split; [reflexivity|]. split; [constructor|].
      split; [right; reflexivity|]. split; [discriminate|].
      rewrite Etok. simpl. lia.
    + apply body_Next in Hb as (n & id & Hn & Hv & _ & -> & ->).
      destruct (IH _ _ _ Hl) as (ps & tl & -> & Hps & Htl & _ & Hlen).
      exists (id :: ps), tl. split; [rewrite <- !app_assoc; reflexivity|].
      split; [constructor; [eexists; exact Hv | exact Hps]|].
      split; [exact Htl|]. split; [discriminate|].
      rewrite bool_decide_eq_false_2 in Hlen by apply snoc_not_nil.
      cbn [andb] in Hlen. rewrite str_drop_length in Hlen.
      cbn [app length]. unfold removed in Hlen.
      destruct (bool_decide (out = [])); cbn [andb] in *; [|lia].
      destruct (HasPrefix (str_take n tok) "##") eqn:Hp.
      * assert (HasPrefix tok "##" = true) as ->; [|lia].
        destruct (HasPrefix tok "##") eqn:Ht; [reflexivity|].
        rewrite (HasPrefix_take n tok "##" Ht) in Hp. discriminate.
      * lia.
Qed.

(** X1. [tokenizeWord] returns no id for the empty word and at least one
    for any other; what it returns is a run of ids of the vocabulary
    followed by at most one unknown id, and has at most one id per byte
    of the word (one more when the word starts with "##"). *)
Theorem tokenizeWord_shape (w : wordPiece) (tok : string) :
  (tok = "" <-> tokenizeWord w tok = [])
  /\ (exists ps tl,
        tokenizeWord w tok = ps ++ tl
        /\ Forall (in_vocab w) ps
        /\ (tl = [] \/ tl = [unkID w]))
  /\ (length (tokenizeWord w tok)
      <= String.length tok + (if HasPrefix tok "##" then 1 else 0))%nat.
Proof.
  unfold tokenizeWord, tokenizeWord_fuel.
  destruct (String.eqb_spec tok "") as [->|Hne].
  { split; [split; reflexivity|]. split; [|simpl; lia].
    exists [], []. repeat split; auto. }
  destruct (loop_terminates w (S (String.length tok)) tok []) as [res Hres].
  { rewrite bool_decide_eq_true_2 by reflexivity. lia. }
  rewrite Hres. cbn [default].
  destruct (loop_shape _ _ _ _ _ Hres) as (ps & tl & -> & Hps & Htl & Hnn & Hlen).
  cbn [app] in *. rewrite bool_decide_eq_true_2 in Hlen by reflexivity.
  cbn [andb] in Hlen.
  split; [split; [intros E; contradiction | intros E; destruct (Hnn Hne E)]|].
  split; [|exact Hlen]. exists ps, tl. auto.
Qed.

(** The pieces of the specification tile the remaining substring. *)
Lemma WordPieces_tiles w first rest out :
  WordPieces w first rest out ->
  exists (subs : list string) (ids : list Z) (rem : string),
    rest = str_concat subs +:+ rem
    /\ Forall (fun s => s <> "") subs
    /\ Forall2 (fun key id => vocab w !! key = Some id) (keys first subs) ids
    /\ ((rem = "" /\ out = ids)
        \/ (rem <> "" /\ out = ids ++ [unkID w]
            /\ forall n, (1 <= n <= String.length rem)%nat ->
                 vocab w !! piece (first && bool_decide (subs = []))
                                  (str_take n rem) = None)).
Proof.
  induction 1 as [first|first rest Hne Hnone|first rest n id out Hn Hv Hmax Hw IH].
  - exists [], [], "". split; [reflexivity|]. split; [constructor|].
    split; [constructor|]. left. split; reflexivity.
  - exists [], [], rest. split; [reflexivity|]. split; [constructor|].
    split; [constructor|]. right. split; [exact Hne|]. split; [reflexivity|].
    rewrite bool_decide_eq_true_2 by reflexivity.
    rewrite andb_true_r. exact Hnone.
  - destruct IH as (subs & ids & rem & Hrest & Hsubs & Hkeys & Hend).
    exists (str_take n rest :: subs), (id :: ids), rem.
    split.
    { cbn [str_concat fold_right]. fold (str_concat subs).
      rewrite str_app_assoc, <- Hrest. symmetry. apply str_take_drop. }
    split.
    { constructor; [|exact Hsubs]. intros E.
      apply (f_equal String.length) in E.
      rewrite str_take_length in E by lia. simpl in E. lia. }
    split.
    { cbn [keys]. constructor; [exact Hv|].
      destruct subs as [|s subs]; [inversion Hkeys; constructor|].
      cbn [keys] in Hkeys. exact Hkeys. }
    destruct Hend as [[-> ->]|(Hr & -> & Hnone)].
    + left. split; reflexivity.
    + right. split; [exact Hr|]. split; [reflexivity|].
      rewrite bool_decide_eq_false_2 by discriminate. rewrite andb_false_r.
      destruct subs; cbn [andb bool_decide] in Hnone; exact Hnone.
Qed.

(** X2. The pieces of a word that does not start with "##" tile it: the
    word is the concatenation of substrings, none empty, whose ids are
    the ids returned (the first looked up as it is, the others behind
    "##"), followed by a remainder that is empty or, with the unknown id
    returned last, has no prefix in the vocabulary. *)
Theorem tokenizeWord_tiles (w : wordPiece) (tok : string) :
  HasPrefix tok "##" = false ->
  exists (subs : list string) (ids : list Z) (rem : string),
    tok = str_concat subs +:+ rem
    /\ Forall (fun s => s <> "") subs
    /\ Forall2 (fun key id => vocab w !! key = Some id) (keys true subs) ids
    /\ ((rem = "" /\ tokenizeWord w tok = ids)
        \/ (rem <> "" /\ tokenizeWord w tok = ids ++ [unkID w]
            /\ forall n, (1 <= n <= String.length rem)%nat ->
                 vocab w !! piece (bool_decide (subs = [])) (str_take n rem) = None)).
Proof.
  intros Hm.
  assert (WordPieces w true tok (tokenizeWord w tok)) as Hw.
  { unfold tokenizeWord, tokenizeWord_fuel.
    destruct (String.eqb_spec tok "") as [->|Hne]; [constructor|].
    destruct (loop_WordPieces w (S (String.length tok)) tok [])
      as (res & Hl & Hres); [lia | intros _; exact Hm |].
    rewrite Hl. exact Hres. }
  apply WordPieces_tiles in Hw. exact Hw.
Qed.

End WordPieceMore.

(** ** More on basic tokens, [encode] and the vocabulary file *)

Module EncodeMore.
Import Go WordPiece WordPieceSpec Props GoFacts EncodeFacts WordPieceMore.

Section WithGoStd.
Context `{GoStd}.

Lemma flush_concat b out :
  str_concat (snd (flush b out)) +:+ fst (flush b out) = str_concat out +:+ b
  /\ (Forall (fun t => t <> "") out ->
      Forall (fun t => t <> "") (snd (flush b out))).
Proof.
  unfold flush. destruct (Nat.ltb_spec 0 (String.length b)) as [Hlt|Hge];
    cbn [fst snd].
  - split.
    + rewrite str_concat_app. cbn [str_concat fold_right].
      rewrite !str_app_nil_r. reflexivity.
    + intros Ho. apply Forall_app. split; [exact Ho|].
      constructor; [|constructor]. intros ->. simpl in Hlt. lia.
  - split; [reflexivity | auto].
Qed.

Lemma basicTokens_loop_concat rs : forall b out,
  str_concat (basicTokens_loop rs b out)
  = str_concat out +:+ b +:+ str_concat (utf8_encode <$> word_runes rs)
  /\ (Forall (fun t => t <> "") out ->
      Forall (fun t => t <> "") (basicTokens_loop rs b out)).
Proof.
  induction rs as [|r rs IH]; intros b out; cbn [basicTokens_loop].
  - destruct (flush_concat b out) as [_ Hn]. split; [|exact Hn].
    cbn [word_runes List.filter fmap list_fmap str_concat fold_right].
    rewrite str_app_nil_r. unfold flush.
    destruct (Nat.ltb_spec 0 (String.length b)) as [Hlt|Hge]; cbn [snd].
    + rewrite str_concat_app. cbn [str_concat fold_right].
      rewrite str_app_nil_r. reflexivity.
    + destruct b; [|simpl in Hge; lia]. rewrite str_app_nil_r. reflexivity.
  - unfold word_runes. cbn [List.filter].
    destruct (unicode_IsLetter r || unicode_IsDigit r).
    + destruct (IH (b +:+ utf8_encode r) out) as [Hc Hn]. split; [|exact Hn].
      rewrite Hc. cbn [fmap list_fmap str_concat fold_right].
      rewrite !str_app_assoc. reflexivity.
    + destruct (flush_concat b out) as [Hc Hn].
      destruct (flush b out) as [b' out']. cbn [fst snd] in *.
      destruct (IH b' out') as [Hc' Hn']. split; [|auto].
      rewrite Hc', <- str_app_assoc, Hc, str_app_assoc. reflexivity.
Qed.

(** X3. The basic tokens of a text are never empty, and put end to end
    they are the encoded letters and digits of the lower-cased text, in
    order: [basicTokens] drops the separators and nothing else. *)
Theorem basicTokens_content (text : string) :
  Forall (fun t => t <> "") (basicTokens text)
  /\ str_concat (basicTokens text)
     = str_concat (utf8_encode <$> word_runes (utf8_decode (strings_ToLower text))).
Proof.
  unfold basicTokens.
  destruct (basicTokens_loop_concat (utf8_decode (strings_ToLower text)) "" [])
    as [Hc Hn].
  split; [apply Hn; constructor | exact Hc].
Qed.

Lemma str_concat_nil_inv (l : list string) :
  Forall (fun t => t <> "") l -> str_concat l = "" -> l = [].
Proof.
  destruct l as [|x l]; [reflexivity|]. intros Hf Hc.
  inversion Hf as [|? ? Hx _]; subst. exfalso. apply Hx.
  cbn [str_concat fold_right] in Hc. destruct x; [reflexivity | discriminate].
Qed.

(** X4. A text with no letter and no digit, the empty text among them,
    is encoded as the sequence-start id and the separator id followed by
    zeros, under a mask of two ones. *)
Theorem encode_no_token (m : miniLMOnnx) (text : string) (maxLen : Z) :
  word_runes (utf8_decode (strings_ToLower text)) = [] ->
  2 <= maxLen ->
  basicTokens text = []
  /\ encode m text maxLen
     = Some (clsID (tokenizer m) :: sepID (tokenizer m)
               :: replicate (Z.to_nat maxLen - 2) 0,
             1 :: 1 :: replicate (Z.to_nat maxLen - 2) 0).
Proof.
  intros Hr Hlen.
  assert (basicTokens text = []) as Hb.
  { unfold basicTokens.
    destruct (basicTokens_loop_concat (utf8_decode (strings_ToLower text)) "" [])
      as [Hc Hn].
    rewrite Hr in Hc.
    apply str_concat_nil_inv; [apply Hn; constructor | exact Hc]. }
  split; [exact Hb|].
  pose proof (encode_closed m text maxLen ltac:(lia)) as Hc. cbn zeta in Hc.
  assert (wrapped m text = [clsID (tokenizer m); sepID (tokenizer m)]) as Hw
    by (unfold wrapped; rewrite Hb; reflexivity).
  rewrite Hw in Hc. rewrite take_ge in Hc by (simpl; lia). exact Hc.
Qed.

(** X5. A wrapped sequence longer than [maxLen] is cut on the right and
    nothing is put back: the ids are its first [maxLen] ids, so the
    separator id at its end is dropped, and the mask is all ones. *)
Theorem encode_truncates (m : miniLMOnnx) (text : string) (maxLen : Z) :
  0 <= maxLen < Z.of_nat (length (wrapped m text)) ->
  encode m text maxLen
  = Some (take (Z.to_nat maxLen) (wrapped m text),
          replicate (Z.to_nat maxLen) 1).
Proof.
  intros Hlen.
  pose proof (encode_closed m text maxLen ltac:(lia)) as Hc. cbn zeta in Hc.
  rewrite length_take in Hc.
  replace (Z.to_nat maxLen `min` length (wrapped m text))%nat
    with (Z.to_nat maxLen) in Hc by lia.
  rewrite Nat.sub_diag in Hc. cbn [replicate] in Hc.
  rewrite !app_nil_r in Hc. exact Hc.
Qed.

(** X6. [encode] panics on a negative [maxLen] and on nothing else; when
    it returns, both arrays have [maxLen] entries. *)
Theorem encode_panics_iff (m : miniLMOnnx) (text : string) (maxLen : Z) :
  (encode m text maxLen = None <-> maxLen < 0)
  /\ forall ids mask,
       encode m text maxLen = Some (ids, mask) ->
       Z.of_nat (length ids) = maxLen /\ Z.of_nat (length mask) = maxLen.
Proof.
  destruct (Z.lt_ge_cases maxLen 0) as [Hneg|Hpos].
  - rewrite (encode_negative m text maxLen Hneg).
    split; [split; auto | discriminate].
  - pose proof (encode_closed m text maxLen Hpos) as Hc. cbn zeta in Hc.
    rewrite Hc. split; [split; [discriminate | lia]|].
    intros ids mask [= <- <-].
    rewrite !length_app, !length_replicate, length_take. lia.
Qed.

Lemma concat_row {A} (rows : list (list A)) (n i : nat) (r : list A) :
  Forall (fun r => length r = n) rows ->
  rows !! i = Some r ->
  take n (drop (i * n) (concat rows)) = r.
Proof.
  intros Hf Hi.
  rewrite <- (take_drop_middle rows i r Hi) at 1.
  rewrite concat_app. cbn [concat].
  assert (length (concat (take i rows)) = (i * n)%nat) as Hl.
  { rewrite (concat_rows_length _ n) by (apply Forall_take; exact Hf).
    rewrite length_take. apply lookup_lt_Some in Hi. f_equal. lia. }
  rewrite drop_app_length' by (symmetry; exact Hl).
  rewrite take_app_length'; [reflexivity|].
  rewrite Forall_forall in Hf. symmetry. apply Hf.
  eapply list_elem_of_lookup_2; exact Hi.
Qed.

(** X7. For an empty batch [Embed] prepares nothing. For any other one
    (and a [maxLen] that is not negative) it builds three tensors of
    [len(inputs) * maxLen] entries: row [i] of the id tensor and of the
    mask tensor is what [encode] returns for input [i], and the
    token-type ids are all zero. *)
Theorem Embed_tensors_batch (m : miniLMOnnx) (inputs : list string) :
  Embed_tensors m [] = Some NoInput
  /\ (0 <= WordPiece.maxLen m -> inputs <> [] ->
      exists I A,
        Embed_tensors m inputs
        = Some (Tensors I A
                  (replicate (length inputs * Z.to_nat (WordPiece.maxLen m)) 0))
        /\ length I = (length inputs * Z.to_nat (WordPiece.maxLen m))%nat
        /\ length A = (length inputs * Z.to_nat (WordPiece.maxLen m))%nat
        /\ forall i text,
             inputs !! i = Some text ->
             encode m text (WordPiece.maxLen m)
             = Some (take (Z.to_nat (WordPiece.maxLen m))
                       (drop (i * Z.to_nat (WordPiece.maxLen m)) I),
                     take (Z.to_nat (WordPiece.maxLen m))
                       (drop (i * Z.to_nat (WordPiece.maxLen m)) A))).
Proof.
  split; [reflexivity|]. intros Hpos Hne.
  destruct (Embed_tensors_rows m inputs Hpos Hne) as (rows & Hrows & Hw & HE).
  set (N := Z.to_nat (WordPiece.maxLen m)) in *.
  apply mapM_Some in Hrows.
  assert (Forall (fun r => length r = N) rows.*1) as H1
    by (apply Forall_fmap; eapply Forall_impl; [exact Hw|]; intros r [Ha _]; exact Ha).
  assert (Forall (fun r => length r = N) rows.*2) as H2
    by (apply Forall_fmap; eapply Forall_impl; [exact Hw|]; intros r [_ Hb]; exact Hb).
  exists (concat rows.*1), (concat rows.*2).
  split; [exact HE|].
  rewrite (concat_rows_length _ N H1), (concat_rows_length _ N H2).
  rewrite !length_fmap, <- (Forall2_length _ _ _ Hrows).
  split; [reflexivity|]. split; [reflexivity|].
  intros i text Hi.
  destruct (Forall2_lookup_l _ _ _ _ _ Hrows Hi) as ([ids mask] & Hr & Henc).
  rewrite Henc. f_equal.
  rewrite (concat_row rows.*1 N i ids H1), (concat_row rows.*2 N i mask H2);
    [reflexivity| |]; rewrite list_lookup_fmap, Hr; reflexivity.
Qed.

(** The loop of [loadWordPiece] over the lines, from line [k] on: a
    token keeps the id it has, and gets else the index of the first line
    that holds it. *)
Lemma load_loop (tok : string) (lines : list string) :
  forall (k : nat) (vp0 : gmap string Z),
  foldl (fun (vp : gmap string Z) '(i, line) =>
           let tok := strings_TrimSpace line in
           if String.eqb tok "" then vp
           else match vp !! tok with
                | Some _ => vp
                | None => <[tok := Z.of_nat i]> vp
                end)
        vp0 (imap (fun i l => ((k + i)%nat, l)) lines) !! tok
  = match vp0 !! tok with
    | Some v => Some v
    | None =>
        if decide (tok = "") then None
        else (fun p => Z.of_nat (k + p.1))
               <$> list_find (fun l => strings_TrimSpace l = tok) lines
    end.
Proof.
  induction lines as [|l lines IH]; intros k vp0.
  - cbn. destruct (vp0 !! tok); [reflexivity|]. destruct (decide (tok = "")); reflexivity.
  - cbn [imap foldl].
    rewrite (imap_ext _ (fun i l => ((S k + i)%nat, l)))
      by (intros; cbn; f_equal; lia).
    rewrite Nat.add_0_r. cbn [list_find].
    destruct (String.eqb_spec (strings_TrimSpace l) "") as [Ht|Ht].
    + rewrite IH. destruct (vp0 !! tok); [reflexivity|].
      destruct (decide (tok = "")) as [->|Hne]; [reflexivity|].
      destruct (decide (strings_TrimSpace l = tok)) as [E|_]; [congruence|].
      destruct (list_find _ lines) as [[i x]|]; cbn; [f_equal; lia | reflexivity].
    + destruct (vp0 !! strings_TrimSpace l) as [v|] eqn:Hv.
      * rewrite IH.
        destruct (decide (strings_TrimSpace l = tok)) as [E|Hne'].
        { rewrite <- E, Hv. reflexivity. }
        destruct (vp0 !! tok); [reflexivity|].
        destruct (decide (tok = "")); [reflexivity|].
        destruct (list_find _ lines) as [[i x]|]; cbn; [f_equal; lia | reflexivity].
      * rewrite IH.
        destruct (decide (strings_TrimSpace l = tok)) as [E|Hne'].
        { rewrite <- E, lookup_insert_eq, Hv.
          destruct (decide (strings_TrimSpace l = "")); [contradiction|].
          cbn. f_equal. lia. }
        rewrite lookup_insert_ne by exact Hne'.
        destruct (vp0 !! tok); [reflexivity|].
        destruct (decide (tok = "")); [reflexivity|].
        destruct (list_find _ lines) as [[i x]|]; cbn; [f_equal; lia | reflexivity].
Qed.

(** X8. In the vocabulary [loadWordPiece] builds, the id of a token is
    the index of the first line of the file that, trimmed, is the token:
    blank lines carry no token but are counted, and a token that occurs
    again keeps its first id. A special token that is on no line gets its
    default id (100, 101, 102 and 0). *)
Theorem loadWordPiece_first_line (b : string) (tok : string) (id : Z) :
  let lines := Split1 b "010"%char "" in
  (vocab (loadWordPiece b) !! tok = Some id
   <-> tok <> ""
       /\ exists (i : nat) (line : string),
            id = Z.of_nat i
            /\ lines !! i = Some line
            /\ strings_TrimSpace line = tok
            /\ forall j l, lines !! j = Some l -> (j < i)%nat ->
                           strings_TrimSpace l <> tok)
  /\ (Forall (fun l => strings_TrimSpace l <> "[UNK]") lines ->
      unkID (loadWordPiece b) = 100)
  /\ (Forall (fun l => strings_TrimSpace l <> "[CLS]") lines ->
      clsID (loadWordPiece b) = 101)
  /\ (Forall (fun l => strings_TrimSpace l <> "[SEP]") lines ->
      sepID (loadWordPiece b) = 102)
  /\ (Forall (fun l => strings_TrimSpace l <> "[PAD]") lines ->
      padID (loadWordPiece b) = 0).
Proof.
  intros lines.
  assert (forall t, vocab (loadWordPiece b) !! t
                    = if decide (t = "") then None
                      else (fun p => Z.of_nat p.1)
                             <$> list_find (fun l => strings_TrimSpace l = t) lines)
    as Hlook.
  { intros t. unfold loadWordPiece. cbn [vocab].
    change (imap pair (Split1 b "010" ""))
      with (imap (fun i l => ((0 + i)%nat, l)) lines).
    rewrite (load_loop t lines 0 ∅), lookup_empty. reflexivity. }
  assert (forall t d, Forall (fun l => strings_TrimSpace l <> t) lines ->
                      default d (vocab (loadWordPiece b) !! t) = d) as Hdef.
  { intros t d Hf. rewrite Hlook. destruct (decide (t = "")); [reflexivity|].
    assert (list_find (fun l => strings_TrimSpace l = t) lines = None) as ->
      by (apply list_find_None; exact Hf).
    reflexivity. }
  split; [|repeat split; apply Hdef].
  rewrite Hlook. destruct (decide (tok = "")) as [->|Hne].
  { split; [discriminate | intros [Hc _]; contradiction]. }
  split.
  - destruct (list_find _ lines) as [[i line]|] eqn:Hf; [|discriminate].
    cbn. intros [= <-]. apply list_find_Some in Hf as (Hi & Ht & Hmin).
    split; [exact Hne|]. exists i, line.
    split; [reflexivity|]. split; [exact Hi|]. split; [exact Ht|].
    intros j l Hj Hlt. apply (Hmin j l Hj Hlt).
  - intros (_ & i & line & -> & Hi & Ht & Hmin).
    assert (list_find (fun l => strings_TrimSpace l = tok) lines = Some (i, line))
      as ->.
    { apply list_find_Some. split; [exact Hi|]. split; [exact Ht|].
      intros j l Hj Hlt. apply (Hmin j l Hj Hlt). }
    reflexivity.
Qed.

End WithGoStd.

End EncodeMore.

(** ** Downloads *)

Module DownloadMore.
Import Go Download.

Lemma tryDownload_loop_fail download urls : forall k last asked,
  (forall i u, urls !! i = Some u -> download (k + i)%nat u <> None) ->
  tryDownload_loop download k urls last asked
  = (match List.last (imap (fun i u => download (k + i)%nat u) urls) None with
     | Some e => Some e
     | None => last
     end, asked ++ urls).
Proof.
  induction urls as [|u urls IH]; intros k last asked Hf.
  - cbn. rewrite app_nil_r. reflexivity.
  - cbn [tryDownload_loop].
    pose proof (Hf 0%nat u eq_refl) as H0. rewrite Nat.add_0_r in H0.
    destruct (download k u) as [e|] eqn:Hd; [|congruence].
    rewrite IH by (intros i v Hi; replace (S k + i)%nat with (k + S i)%nat by lia;
                   apply Hf; exact Hi).
    rewrite <- app_assoc. cbn [app]. f_equal.
    cbn [imap]. rewrite Nat.add_0_r, Hd.
    rewrite (imap_ext ((fun i u => download (k + i)%nat u) ∘ S)
               (fun i u => download (S k + i)%nat u))
      by (intros; cbn; f_equal; lia).
    destruct (imap (fun i u => download (S k + i)%nat u) urls) as [|x l] eqn:El;
      [reflexivity|].
    change (List.last (Some e :: x :: l) None) with (List.last (x :: l) None).
    assert (forall y, In y (x :: l) -> y <> None) as Hall.
    { rewrite <- El. intros y Hy. apply list_elem_of_In in Hy.
      apply elem_of_lookup_imap in Hy as (i & v & -> & Hv).
      replace (S k + i)%nat with (k + S i)%nat by lia. apply Hf. exact Hv. }
    destruct (List.last (x :: l) None) as [e'|] eqn:Hl; [reflexivity|].
    exfalso. destruct (exists_last (l:=x :: l) ltac:(discriminate)) as (l' & y & E).
    rewrite E in Hl, Hall. rewrite last_last in Hl. subst y.
    apply (Hall None); [apply in_or_app; right; left; reflexivity | reflexivity].
Qed.

Lemma tryDownload_loop_success download urls : forall k last asked i u,
  urls !! i = Some u ->
  download (k + i)%nat u = None ->
  (forall j v, urls !! j = Some v -> (j < i)%nat -> download (k + j)%nat v <> None) ->
  tryDownload_loop download k urls last asked = (None, asked ++ take (S i) urls).
Proof.
  induction urls as [|u0 urls IH]; intros k last asked i u Hi Hd Hf; [discriminate|].
  cbn [tryDownload_loop]. destruct i as [|i].
  - inversion Hi; subst. rewrite Nat.add_0_r in Hd. rewrite Hd. reflexivity.
  - pose proof (Hf 0%nat u0 eq_refl ltac:(lia)) as H0. rewrite Nat.add_0_r in H0.
    destruct (download k u0) as [e|]; [|congruence].
    rewrite (IH (S k) (Some e) (asked ++ [u0]) i u Hi).
    + rewrite <- app_assoc. reflexivity.
    + replace (S k + i)%nat with (k + S i)%nat by lia. exact Hd.
    + intros j v Hj Hlt. replace (S k + j)%nat with (k + S j)%nat by lia.
      apply Hf; [exact Hj | lia].
Qed.

(** X9. [tryDownload] asks for the URLs in order, each at most once, and
    stops at the first download that succeeds, returning no error. When
    every download fails it has asked for all of them and returns the
    error of the last one; for an empty list that is no error at all,
    although nothing was downloaded. *)
Theorem tryDownload_first_success (download : nat -> string -> option error)
  (urls : list string) :
  tryDownload download [] = (None, [])
  /\ (forall i u,
        urls !! i = Some u ->
        download i u = None ->
        (forall j v, urls !! j = Some v -> (j < i)%nat -> download j v <> None) ->
        tryDownload download urls = (None, take (S i) urls))
  /\ (urls <> [] ->
      (forall i u, urls !! i = Some u -> download i u <> None) ->
      exists u e,
        List.last urls "" = u
        /\ download (length urls - 1)%nat u = Some e
        /\ tryDownload download urls = (Some e, urls)).
Proof.
  split; [reflexivity|]. split.
  - intros i u Hi Hd Hf. unfold tryDownload.
    apply (tryDownload_loop_success download urls 0 None [] i u Hi Hd Hf).
  - intros Hne Hf. unfold tryDownload.
    rewrite (tryDownload_loop_fail download urls 0 None [] Hf). cbn [app Nat.add].
    destruct (exists_last Hne) as (l & u & ->).
    rewrite last_last, imap_app. cbn [imap]. rewrite last_last.
    rewrite length_app. cbn [length].
    replace (length l + 1 - 1)%nat with (length l + 0)%nat by lia.
    pose proof (Hf (length l) u) as Hu.
    rewrite lookup_app_r, Nat.sub_diag in Hu by lia.
    specialize (Hu eq_refl). rewrite Nat.add_0_r in *.
    destruct (download (length l) u) as [e|] eqn:Hd; [|congruence].
    exists u, e. split; [reflexivity|]. split; [exact Hd | reflexivity].
Qed.

End DownloadMore.

(** ** The order of floating-point numbers and [argmax] *)

Module ArgmaxFacts.
Import Go Float Qwen Props.

Ltac cmp_cases :=
  repeat match goal with
         | H : context [Pos.compare_cont Eq ?p ?q] |- _ =>
             change (Pos.compare_cont Eq p q) with (Pos.compare p q) in H
         | |- context [Pos.compare_cont Eq ?p ?q] =>
             change (Pos.compare_cont Eq p q) with (Pos.compare p q)
         end;
  repeat match goal with
         | H : context [Z.compare ?x ?y] |- _ => destruct (Z.compare_spec x y)
         | |- context [Z.compare ?x ?y] => destruct (Z.compare_spec x y)
         | H : context [Pos.compare ?x ?y] |- _ => destruct (Pos.compare_spec x y)
         | |- context [Pos.compare ?x ?y] => destruct (Pos.compare_spec x y)
         end;
  subst; cbn in *; try discriminate; try reflexivity; try lia.

Lemma SFltb_irrefl a : SFltb a a = false.
Proof.
  unfold SFltb, SFcompare. destruct a as [[]|[]| |[] m e]; try reflexivity;
    rewrite Z.compare_refl, Pos.compare_cont_refl; reflexivity.
Qed.

Lemma SFltb_trans a b c :
  SFltb a b = true -> SFltb b c = true -> SFltb a c = true.
Proof.
  unfold SFltb, SFcompare.
  destruct a as [[]|[]| |[] ma ea], b as [[]|[]| |[] mb eb],
           c as [[]|[]| |[] mc ec];
    intros H1 H2; try discriminate; try reflexivity; cmp_cases.
Qed.

Lemma SFltb_leb_trans a b c :
  SFltb a b = true -> SFleb b c = true -> SFltb a c = true.
Proof.
  unfold SFltb, SFleb, SFcompare.
  destruct a as [[]|[]| |[] ma ea], b as [[]|[]| |[] mb eb],
           c as [[]|[]| |[] mc ec];
    intros H1 H2; try discriminate; try reflexivity; cmp_cases.
Qed.

Lemma argmax_loop_state (v : list float32) : forall P max idx,
  argmax_state P max idx ->
  exists max', argmax_state (P ++ v) max'
                 (argmax_loop v (Z.of_nat (length P)) max idx).
Proof.
  unfold argmax_state, float32 in *.
  induction v as [|x v IH]; intros P max idx Hs.
  - exists max. rewrite app_nil_r. exact Hs.
  - cbn [argmax_loop].
    replace (Z.of_nat (length P) + 1) with (Z.of_nat (length (P ++ [x])))
      by (rewrite length_app; simpl; lia).
    rewrite (cons_middle x P v), app_assoc.
    destruct (gt x max) eqn:Hx.
    + apply IH. right.
      assert (gt x f32_neg_1e30 = true /\ forall y, y ∈ P -> gt y max = false)
        as [Hthr Hle].
      { destruct Hs as [(-> & _ & Hn)|(_ & _ & Hm & Hn & _)].
        - split; [exact Hx | exact Hn].
        - split; [|exact Hn]. unfold gt in *. eapply SFltb_trans; eassumption. }
      split; [lia|]. rewrite Nat2Z.id.
      split; [rewrite lookup_app_r, Nat.sub_diag by lia; reflexivity|].
      split; [exact Hthr|]. split.
      * intros y Hy. apply elem_of_app in Hy as [Hy|Hy].
        -- destruct (gt y x) eqn:Hyx; [|reflexivity].
           rewrite <- (Hle y Hy). unfold gt in *.
           symmetry. eapply SFltb_trans; eassumption.
        -- apply list_elem_of_singleton in Hy as ->. apply SFltb_irrefl.
      * intros j y Hj Hlt. rewrite ?Nat2Z.id in Hlt.
        rewrite lookup_app_l in Hj by exact Hlt.
        destruct (SFleb x y) eqn:Hxy; [|reflexivity].
        rewrite <- (Hle y (list_elem_of_lookup_2 _ _ _ Hj)). unfold gt in *.
        symmetry. eapply SFltb_leb_trans; eassumption.
    + apply IH. destruct Hs as [(-> & -> & Hn)|(H0 & Hi & Hm & Hn & He)].
      * left. split; [reflexivity|]. split; [reflexivity|].
        intros y Hy. apply elem_of_app in Hy as [Hy|Hy]; [apply Hn; exact Hy|].
        apply list_elem_of_singleton in Hy as ->. exact Hx.
      * right. split; [exact H0|].
        split; [rewrite lookup_app_l by (eapply lookup_lt_Some; exact Hi); exact Hi|].
        split; [exact Hm|]. split.
        -- intros y Hy. apply elem_of_app in Hy as [Hy|Hy]; [apply Hn; exact Hy|].
           apply list_elem_of_singleton in Hy as ->. exact Hx.
        -- intros j y Hj Hlt. apply (He j y); [|exact Hlt].
           rewrite lookup_app_l in Hj; [exact Hj|].
           apply lookup_lt_Some in Hi. lia.
Qed.

(** X10. [argmax] returns an index of the list (0 for the empty list).
    When some element is above the threshold of [-1e30], the element at
    the index is above it too, no element is greater, and no earlier
    element is as great: the first maximum is chosen, elements that
    compare with nothing (NaN) being passed over. When no element is
    above the threshold the index is 0. *)
Theorem argmax_first_maximum (v : list float32) :
  0 <= argmax v <= Z.max 0 (Z.of_nat (length v) - 1)
  /\ ((forall y, y ∈ v -> gt y f32_neg_1e30 = false) -> argmax v = 0)
  /\ ((exists y, y ∈ v /\ gt y f32_neg_1e30 = true) ->
      exists m,
        v !! Z.to_nat (argmax v) = Some m
        /\ gt m f32_neg_1e30 = true
        /\ (forall y, y ∈ v -> gt y m = false)
        /\ forall j y, v !! j = Some y -> (j < Z.to_nat (argmax v))%nat ->
                       SFleb m y = false).
Proof.
  pose proof (argmax_loop_state v [] f32_neg_1e30 0) as Hloop.
  unfold argmax, argmax_state, float32 in *.
  destruct Hloop as [max' Hs].
  { left. split; [reflexivity|]. split; [reflexivity|].
    intros y Hy. apply elem_of_nil in Hy. contradiction. }
  cbn [app length] in Hs. change (Z.of_nat 0) with 0 in Hs.
  destruct Hs as [(-> & Hi & Hn)|(H0 & Hi & Hm & Hn & He)].
  - rewrite Hi. split; [lia|]. split; [reflexivity|].
    intros (y & Hy & Hgt). rewrite (Hn y Hy) in Hgt. discriminate.
  - split.
    { apply lookup_lt_Some in Hi. lia. }
    split.
    { intros Hall. rewrite (Hall max' (list_elem_of_lookup_2 _ _ _ Hi)) in Hm.
      discriminate. }
    intros _. exists max'. auto.
Qed.

End ArgmaxFacts.

(** ** More on the tokenizer of the generation service *)

Module BpeMore.
Import Go Float Qwen QwenLoad Props GoFacts.

Lemma Decode_loop (t : bpeTokenizer) (ids : list Z) : forall parts,
  foldl (fun parts i =>
           if (0 <=? i) && (i <? Z.of_nat (length (id2token t)))
              && negb (String.eqb (default "" (id2token t !! Z.to_nat i)) "")
           then parts ++ [default "" (id2token t !! Z.to_nat i)]
           else parts) parts ids
  = parts ++ omap (resolve t) ids.
Proof.
  induction ids as [|i ids IH]; intros parts; cbn [foldl omap list_omap];
    [rewrite app_nil_r; reflexivity|].
  rewrite IH. unfold resolve.
  destruct ((0 <=? i) && (i <? Z.of_nat (length (id2token t)))
            && negb (String.eqb (default "" (id2token t !! Z.to_nat i)) ""));
    [rewrite <- app_assoc|]; reflexivity.
Qed.

Lemma Decode_omap (t : bpeTokenizer) (ids : list Z) :
  Decode t ids = Join (omap (resolve t) ids) " ".
Proof. unfold Decode. rewrite Decode_loop. reflexivity. Qed.

Lemma Encode_loop (t : bpeTokenizer) (l : list string) : forall ids,
  foldl (fun ids p => match vocab t !! p with
                      | Some id => ids ++ [id]
                      | None => ids ++ [0]
                      end) ids l
  = ids ++ ((fun p => default 0 (vocab t !! p)) <$> l).
Proof.
  induction l as [|p l IH]; intros ids; cbn [foldl fmap list_fmap];
    [rewrite app_nil_r; reflexivity|].
  rewrite IH. destruct (vocab t !! p); rewrite <- app_assoc; reflexivity.
Qed.

Lemma fill_id2_length (visited : list (string * Z)) : forall id2,
  length (fill_id2 id2 visited) = length id2.
Proof.
  unfold fill_id2. induction visited as [|[tok id] visited IH]; intros id2;
    [reflexivity|].
  cbn [foldl]. rewrite IH.
  destruct ((0 <=? id) && (id <? Z.of_nat (length id2))); [|reflexivity].
  apply length_insert.
Qed.

(** An id that the iteration does not visit keeps its entry. *)
Lemma fill_id2_skip (visited : list (string * Z)) (id : Z) : forall id2,
  0 <= id -> id ∉ visited.*2 ->
  fill_id2 id2 visited !! Z.to_nat id = id2 !! Z.to_nat id.
Proof.
  unfold fill_id2. induction visited as [|[tok0 id0] visited IH]; intros id2 H0 Hn;
    [reflexivity|].
  cbn [foldl]. cbn in Hn. apply not_elem_of_cons in Hn as [Hne Hn].
  rewrite IH by assumption.
  destruct ((0 <=? id0) && (id0 <? Z.of_nat (length id2))) eqn:Hg; [|reflexivity].
  apply andb_prop in Hg as [Hg _]. apply Z.leb_le in Hg.
  apply list_lookup_insert_ne. lia.
Qed.

(** An id that is visited once, and is in range, gets its token. *)
Lemma fill_id2_hit (visited : list (string * Z)) (tok : string) (id : Z) :
  forall id2,
  NoDup visited.*2 -> (tok, id) ∈ visited ->
  0 <= id < Z.of_nat (length id2) ->
  fill_id2 id2 visited !! Z.to_nat id = Some tok.
Proof.
  induction visited as [|[tok0 id0] visited IH]; intros id2 Hnd Hin Hr.
  { apply elem_of_nil in Hin. contradiction. }
  cbn in Hnd. apply NoDup_cons in Hnd as [Hfresh Hnd].
  apply elem_of_cons in Hin as [[= <- <-]|Hin].
  - change (fill_id2 id2 ((tok, id) :: visited))
      with (fill_id2 (if (0 <=? id) && (id <? Z.of_nat (length id2))
                      then <[Z.to_nat id := tok]> id2 else id2) visited).
    rewrite fill_id2_skip by (lia || assumption).
    assert ((0 <=? id) && (id <? Z.of_nat (length id2)) = true) as ->
      by (rewrite andb_true_iff, Z.leb_le, Z.ltb_lt; lia).
    apply list_lookup_insert_eq. lia.
  - change (fill_id2 id2 ((tok0, id0) :: visited))
      with (fill_id2 (if (0 <=? id0) && (id0 <? Z.of_nat (length id2))
                      then <[Z.to_nat id0 := tok0]> id2 else id2) visited).
    apply IH; [exact Hnd | exact Hin|].
    destruct ((0 <=? id0) && (id0 <? Z.of_nat (length id2)));
      rewrite ?length_insert; exact Hr.
Qed.

Section WithGoStd.
Context `{GoStd}.

Lemma Encode_map (t : bpeTokenizer) (s : string) :
  Encode t s
  = if (length (strings_Fields s) =? 0)%nat then [0]
    else (fun p => default 0 (vocab t !! p)) <$> strings_Fields s.
Proof.
  unfold Encode.
  rewrite Encode_loop. cbn [app].
  rewrite length_fmap. reflexivity.
Qed.


(** X12. Round trip: when every field of a string is a word the
    tokenizer knows, decoding the encoded string gives the fields back,
    joined by single spaces. *)
Theorem Decode_Encode (t : bpeTokenizer) (s : string) :
  strings_Fields s <> [] ->
  Forall (known t) (strings_Fields s) ->
  Decode t (Encode t s) = Join (strings_Fields s) " ".
Proof.
  intros Hne Hk. rewrite Decode_omap, Encode_map.
  destruct (Nat.eqb_spec (length (strings_Fields s)) 0) as [E|_].
  { destruct (strings_Fields s); [congruence | discriminate]. }
  clear Hne. f_equal.
  induction Hk as [|p l (Hp & v & Hv & H0 & Hi) _ IH]; [reflexivity|].
  cbn [fmap list_fmap omap list_omap]. rewrite Hv.
  change (default 0 (Some v)) with v.
  assert (resolve t v = Some p) as ->.
  { unfold resolve. rewrite Hi. change (default "" (Some p)) with p.
    assert ((0 <=? v) = true) as -> by (apply Z.leb_le; lia).
    assert ((v <? Z.of_nat (length (id2token t))) = true) as ->.
    { apply Z.ltb_lt. apply lookup_lt_Some in Hi. lia. }
    destruct (String.eqb_spec p ""); [contradiction | reflexivity]. }
  f_equal. exact IH.
Qed.

(** X13. [loadBPETokenizer] makes [id2token] as long as the vocabulary
    has entries. When no two tokens share an id, whatever the order in
    which the map is visited, every token whose id is in range sits at
    its id, so a token that is not empty decodes to itself; an id out of
    range decodes to nothing. *)
Theorem loadBPETokenizer_id2token (t : tokenizerJSON) (visited : list (string * Z)) :
  visited ≡ₚ map_to_list (Vocab t) ->
  (forall p1 p2 id, Vocab t !! p1 = Some id -> Vocab t !! p2 = Some id -> p1 = p2) ->
  length (id2token (loadBPETokenizer t visited)) = size (Vocab t)
  /\ (forall p id,
        Vocab t !! p = Some id ->
        0 <= id < Z.of_nat (size (Vocab t)) ->
        id2token (loadBPETokenizer t visited) !! Z.to_nat id = Some p)
  /\ (forall id,
        id < 0 \/ Z.of_nat (size (Vocab t)) <= id ->
        resolve (loadBPETokenizer t visited) id = None).
Proof.
  intros Hperm Hinj.
  assert (length (id2token (loadBPETokenizer t visited)) = size (Vocab t)) as Hlen.
  { cbn [loadBPETokenizer id2token]. rewrite fill_id2_length.
    apply length_replicate. }
  split; [exact Hlen|]. split.
  - intros p id Hv Hr. cbn [loadBPETokenizer id2token].
    apply fill_id2_hit.
    + rewrite Hperm. apply NoDup_fmap_2_strong; [|apply NoDup_map_to_list].
      intros [p1 i1] [p2 i2] H1 H2 E. cbn in E. subst i2.
      apply elem_of_map_to_list in H1, H2. rewrite (Hinj p1 p2 i1 H1 H2).
      reflexivity.
    + rewrite Hperm. apply elem_of_map_to_list. exact Hv.
    + rewrite length_replicate. exact Hr.
  - intros id Hout. unfold resolve. rewrite Hlen.
    destruct Hout as [Hneg|Hge].
    + assert ((0 <=? id) = false) as -> by (apply Z.leb_gt; lia). reflexivity.
    + assert ((id <? Z.of_nat (size (Vocab t))) = false) as ->
        by (apply Z.ltb_ge; lia).
      rewrite andb_false_r. reflexivity.
Qed.

Lemma find_eos_first (ats : list addedToken) :
  (find_eos ats = -1 /\ Forall (fun a => names_eos a = false) ats)
  \/ exists i a,
       ats !! i = Some a /\ names_eos a = true /\ find_eos ats = ID a
       /\ forall j b, ats !! j = Some b -> (j < i)%nat -> names_eos b = false.
Proof.
  induction ats as [|a ats IH]; [left; split; [reflexivity | constructor]|].
  cbn [find_eos]. fold (names_eos a).
  destruct (names_eos a) eqn:Ha.
  - right. exists 0%nat, a. split; [reflexivity|]. split; [exact Ha|].
    split; [reflexivity|]. intros j b _ Hlt. lia.
  - destruct IH as [[He Hf]|(i & b & Hi & Hb & He & Hmin)].
    + left. split; [exact He | constructor; assumption].
    + right. exists (S i), b. split; [exact Hi|]. split; [exact Hb|].
      split; [exact He|]. intros [|j] c Hj Hlt.
      * inversion Hj; subst. exact Ha.
      * apply (Hmin j c Hj). lia.
Qed.

(** X14. The end-of-sequence id is the id of the first added token whose
    content, in lower case, contains "eos" or is "<|endoftext|>":
    [IsEOS] holds of that id alone, and only when it is not negative.
    With no such token, [IsEOS] holds of no id, and detection of the end
    of the sequence is off for good. *)
Theorem loadBPETokenizer_eos (t : tokenizerJSON) (visited : list (string * Z)) (id : Z) :
  (IsEOS (loadBPETokenizer t visited) id = true
   <-> 0 <= id
       /\ exists i a,
            AddedTokens t !! i = Some a /\ names_eos a = true /\ ID a = id
            /\ forall j b, AddedTokens t !! j = Some b -> (j < i)%nat ->
                           names_eos b = false)
  /\ (Forall (fun a => names_eos a = false) (AddedTokens t) ->
      eosTokenID (loadBPETokenizer t visited) = -1
      /\ forall id', IsEOS (loadBPETokenizer t visited) id' = false).
Proof.
  unfold IsEOS. cbn [loadBPETokenizer eosTokenID].
  destruct (find_eos_first (AddedTokens t)) as [[He Hf]|(i & a & Hi & Ha & He & Hmin)].
  - rewrite He. split.
    + split; [intros Hc; cbn in Hc; discriminate|].
      intros (_ & j & b & Hj & Hb & _).
      rewrite Forall_forall in Hf.
      rewrite (Hf b (list_elem_of_lookup_2 _ _ _ Hj)) in Hb. discriminate.
    + intros _. split; reflexivity.
  - rewrite He. split.
    + rewrite andb_true_iff, Z.leb_le, Z.eqb_eq. split.
      * intros [H0 ->]. split; [exact H0|]. exists i, a. auto.
      * intros (H0 & j & b & Hj & Hb & <- & Hminj).
        assert (j = i) as ->.
        { destruct (Nat.lt_trichotomy j i) as [Hlt|[E|Hgt]]; [|exact E|].
          - rewrite (Hmin j b Hj Hlt) in Hb. discriminate.
          - rewrite (Hminj i a Hi Hgt) in Ha. discriminate. }
        rewrite Hi in Hj. inversion Hj; subst. split; [exact H0 | reflexivity].
    + intros Hf. rewrite Forall_forall in Hf.
      rewrite (Hf a (list_elem_of_lookup_2 _ _ _ Hi)) in Ha. discriminate.
Qed.

End WithGoStd.

End BpeMore.

(** ** More on the generation loops *)

Module GenerationMore.
Import Go Float Qwen Props GoFacts QwenFacts.

(** The forward pass either returns out of the function, with at most
    one run recorded, or chooses an id after exactly one run. *)
Lemma forward_cases q st onerr :
  (exists st' o,
     forward q st onerr = (st', inl o)
     /\ ids st' = ids st /\ outText st' = outText st /\ cbs st' = cbs st
     /\ (runs st' = runs st \/ runs st' = runs st ++ [run_of (ids st)])
     /\ (o = Panic \/ exists e, o = Return onerr (Some e)))
  \/ (exists st' next,
        forward q st onerr = (st', inr next)
        /\ ids st' = ids st /\ outText st' = outText st /\ cbs st' = cbs st
        /\ runs st' = runs st ++ [run_of (ids st)]).
Proof.
  unfold forward, run_of. break_match; cbn;
    first [ left; eexists _, _; split; [reflexivity|]; cbn;
            repeat split; eauto; fail
          | right; eexists _, _; split; [reflexivity|]; cbn;
            repeat split; eauto ].
Qed.

(** What an iteration of [Generate] does. *)
Lemma Generate_body_cases q t st :
  match Generate_body q t st with
  | Continue st' | BreakLoop st' =>
      exists next,
        ids st' = (if Z.of_nat (length (ids st ++ [next])) >? maxLen q
                   then drop 1 (ids st ++ [next]) else ids st ++ [next])
        /\ runs st' = runs st ++ [run_of (ids st)]
        /\ outText st' = outText st /\ cbs st' = cbs st
        /\ IsEOS (tok q) next
           = match Generate_body q t st with BreakLoop _ => true | _ => false end
  | Exit st' o =>
      ids st' = ids st /\ outText st' = outText st /\ cbs st' = cbs st
      /\ (runs st' = runs st \/ runs st' = runs st ++ [run_of (ids st)])
      /\ (o = Panic \/ exists e, o = Return "" (Some e))
  end.
Proof.
  unfold Generate_body.
  destruct (forward_cases q st "")
    as [(st1 & o & -> & Hi & Ho & Hc & Hr & Hor)|(st1 & next & -> & Hi & Ho & Hc & Hr)].
  - auto.
  - destruct (IsEOS (tok q) next) eqn:He; exists next; cbn; rewrite Hi; auto.
Qed.

(** What an iteration of [GenerateWithCallback] does. *)
Lemma callback_body_cases q ctx cb t st :
  match GenerateWithCallback_body q ctx cb t st with
  | Continue st' =>
      exists next,
        ctx t = None /\ IsEOS (tok q) next = false
        /\ ids st' = ids st ++ [next]
        /\ runs st' = runs st ++ [run_of (ids st)]
        /\ outText st' = Decode (tok q) (ids st')
        /\ cbs st' = (if cb then cbs st ++ [outText st'] else cbs st)
  | BreakLoop st' =>
      exists next,
        ctx t = None /\ IsEOS (tok q) next = true
        /\ ids st' = ids st ++ [next]
        /\ runs st' = runs st ++ [run_of (ids st)]
        /\ outText st' = outText st /\ cbs st' = cbs st
  | Exit st' o =>
      ids st' = ids st /\ outText st' = outText st /\ cbs st' = cbs st
      /\ (runs st' = runs st \/ runs st' = runs st ++ [run_of (ids st)])
      /\ (o = Panic \/ exists e, o = Return (outText st) (Some e))
      /\ (forall e, ctx t = Some e ->
            st' = st /\ o = Return (outText st) (Some (ErrContext e)))
  end.
Proof.
  unfold GenerateWithCallback_body.
  destruct (ctx t) as [e|] eqn:Hctx.
  { split; [reflexivity|]. split; [reflexivity|]. split; [reflexivity|].
    split; [left; reflexivity|]. split; [right; eauto|].
    intros e' [= <-]. split; reflexivity. }
  destruct (forward_cases q st (outText st))
    as [(st1 & o & -> & Hi & Ho & Hc & Hr & Hor)|(st1 & next & -> & Hi & Ho & Hc & Hr)].
  - split; [exact Hi|]. split; [exact Ho|]. split; [exact Hc|].
    split; [exact Hr|]. split; [exact Hor|]. intros e' He'. discriminate.
  - destruct (IsEOS (tok q) next) eqn:He.
    + exists next. cbn. rewrite ?Hi. repeat split; auto.
    + exists next. destruct cb; cbn; rewrite ?Hi, ?Hc; repeat split; auto.
Qed.

(** *** The loop combinator, from the right *)

Lemma steps_S body n t st :
  steps body (S n) t st
  = match body t st with
    | Continue st' => steps body n (S t) st'
    | s => s
    end.
Proof. reflexivity. Qed.

Lemma steps_snoc body k : forall t st,
  steps body (S k) t st
  = match steps body k t st with
    | Continue st' => body (t + k)%nat st'
    | s => s
    end.
Proof.
  induction k as [|k IH]; intros t st.
  - cbn. rewrite Nat.add_0_r. destruct (body t st); reflexivity.
  - rewrite (steps_S body (S k)), (steps_S body k).
    destruct (body t st) as [st1|st1|st1 o]; try reflexivity.
    rewrite IH. replace (S t + k)%nat with (t + S k)%nat by lia. reflexivity.
Qed.

(** A loop that is left before its last iteration was left by an
    iteration that followed a run of iterations going on. *)
Lemma steps_stop body n : forall t st,
  (exists st', steps body n t st = Continue st')
  \/ exists k stk,
       (k < n)%nat /\ steps body k t st = Continue stk
       /\ steps body n t st = body (t + k)%nat stk
       /\ forall st', body (t + k)%nat stk <> Continue st'.
Proof.
  induction n as [|n IH]; intros t st; [left; eexists; reflexivity|].
  destruct (IH t st) as [[st' Hs]|(k & stk & Hk & Hc & Hn & Hb)].
  - rewrite steps_snoc, Hs.
    destruct (body (t + n)%nat st') as [st1|st1|st1 o] eqn:Hb;
      [left; eexists; reflexivity| |];
      right; exists n, st'; (split; [lia|]); (split; [exact Hs|]);
      rewrite Hb; split; try reflexivity; discriminate.
  - right. exists k, stk. split; [lia|]. split; [exact Hc|]. split; [|exact Hb].
    rewrite steps_snoc, Hn.
    destruct (body (t + k)%nat stk) as [st1|st1|st1 o]; try reflexivity.
    destruct (Hb st1 eq_refl).
Qed.

(** *** Counting the runs of the session *)

Lemma steps_runs_le body :
  (forall t st, (length (runs (state_of (body t st))) <= S (length (runs st)))%nat) ->
  forall k t st,
    (length (runs (state_of (steps body k t st))) <= length (runs st) + k)%nat.
Proof.
  intros Hb. induction k as [|k IH]; intros t st; [cbn; lia|].
  rewrite steps_S. specialize (Hb t st).
  destruct (body t st) as [st1|st1|st1 o]; cbn [state_of] in *; try lia.
  specialize (IH (S t) st1). lia.
Qed.

Lemma Generate_body_runs_le q t st :
  (length (runs (state_of (Generate_body q t st))) <= S (length (runs st)))%nat.
Proof.
  pose proof (Generate_body_cases q t st) as Hc.
  destruct (Generate_body q t st) as [st1|st1|st1 o]; cbn [state_of].
  - destruct Hc as (next & _ & -> & _). rewrite length_app. simpl. lia.
  - destruct Hc as (next & _ & -> & _). rewrite length_app. simpl. lia.
  - destruct Hc as (_ & _ & _ & [-> | ->] & _); rewrite ?length_app; simpl; lia.
Qed.

Lemma callback_body_runs_le q ctx cb t st :
  (length (runs (state_of (GenerateWithCallback_body q ctx cb t st)))
   <= S (length (runs st)))%nat.
Proof.
  pose proof (callback_body_cases q ctx cb t st) as Hc.
  destruct (GenerateWithCallback_body q ctx cb t st) as [st1|st1|st1 o];
    cbn [state_of].
  - destruct Hc as (next & _ & _ & _ & -> & _). rewrite length_app. simpl. lia.
  - destruct Hc as (next & _ & _ & _ & -> & _). rewrite length_app. simpl. lia.
  - destruct Hc as (_ & _ & _ & [-> | ->] & _); rewrite ?length_app; simpl; lia.
Qed.

Lemma steps_Generate_Continue q k : forall t st st',
  steps (Generate_body q) k t st = Continue st' ->
  length (runs st') = (length (runs st) + k)%nat.
Proof.
  induction k as [|k IH]; intros t st st' Hs.
  - inversion Hs; subst. lia.
  - rewrite steps_S in Hs. pose proof (Generate_body_cases q t st) as Hc.
    destruct (Generate_body q t st) as [st1|st1|st1 o]; try discriminate.
    destruct Hc as (next & _ & Hr & _).
    rewrite (IH _ _ _ Hs), Hr, length_app. simpl. lia.
Qed.

(** *** What the callback is given *)

Lemma streamed_S t n0 ids k :
  streamed t n0 ids (S k) = streamed t n0 ids k ++ [Decode t (take (n0 + S k) ids)].
Proof. unfold streamed. rewrite seq_S, fmap_app. reflexivity. Qed.

Lemma streamed_app t n0 ids more k :
  (n0 + k <= length ids)%nat ->
  streamed t n0 (ids ++ more) k = streamed t n0 ids k.
Proof.
  intros Hl. unfold streamed. apply list_fmap_ext.
  intros i j Hj. apply lookup_seq in Hj as [-> Hlt].
  rewrite take_app_le by lia. reflexivity.
Qed.

Lemma streamed_last t n0 ids k :
  length ids = (n0 + k)%nat ->
  List.last (streamed t n0 ids k) "" = if (k =? 0)%nat then "" else Decode t ids.
Proof.
  intros Hl. destruct k as [|k]; [reflexivity|].
  rewrite streamed_S, last_last, take_ge by lia. reflexivity.
Qed.

(** The state of the streaming loop, called with a callback, after [k]
    iterations that went on. *)
Lemma callback_Continue_log q ctx k : forall st0 stk,
  steps (GenerateWithCallback_body q ctx true) k 0 st0 = Continue stk ->
  length (ids stk) = (length (ids st0) + k)%nat
  /\ take (length (ids st0)) (ids stk) = ids st0
  /\ cbs stk = cbs st0 ++ streamed (tok q) (length (ids st0)) (ids stk) k
  /\ outText stk = (if (k =? 0)%nat then outText st0 else Decode (tok q) (ids stk)).
Proof.
  induction k as [|k IH]; intros st0 stk Hs.
  - inversion Hs; subst. cbn. rewrite app_nil_r, take_ge by lia.
    repeat split; try reflexivity. lia.
  - rewrite steps_snoc in Hs.
    destruct (steps (GenerateWithCallback_body q ctx true) k 0 st0)
      as [st1|st1|st1 o] eqn:Hk; try discriminate.
    destruct (IH _ _ Hk) as (Hl & Hp & Hc & _).
    pose proof (callback_body_cases q ctx true (0 + k) st1) as Hcases.
    rewrite Hs in Hcases.
    destruct Hcases as (next & _ & _ & Hi & _ & Ho & Hcb).
    rewrite Hcb, Ho, Hi, Hc, length_app, Hl. cbn [length Nat.eqb].
    split; [lia|]. split; [rewrite take_app_le by lia; exact Hp|].
    split; [|reflexivity].
    rewrite streamed_S, streamed_app by lia.
    rewrite <- app_assoc. do 3 f_equal.
    rewrite take_ge; [reflexivity|]. rewrite length_app, Hl. simpl. lia.
Qed.

Section WithGoStd.
Context `{GoStd}.

(** X15. Neither loop runs the session more often than the budget
    allows. When no end-of-sequence id is resolved, a call of [Generate]
    that returns without error has run the session exactly as many times
    as the budget says: nothing ends it early. *)
Theorem session_runs_bounded (q : QwenONNX) (ctx : Context) (prompt : string)
  (maxTokens : Z) (cb : bool) :
  (length (runs (fst (Generate_run q ctx prompt maxTokens)))
   <= Z.to_nat (budget maxTokens))%nat
  /\ (length (runs (fst (GenerateWithCallback_run q ctx prompt maxTokens cb)))
      <= Z.to_nat (budget maxTokens))%nat
  /\ (eosTokenID (tok q) < 0 ->
      forall st s,
        Generate_run q ctx prompt maxTokens = (st, Return s None) ->
        length (runs st) = Z.to_nat (budget maxTokens)).
Proof.
  split; [|split].
  - unfold Generate_run. destruct (start q prompt) as [st0|] eqn:Hs; [|cbn; lia].
    pose proof (steps_runs_le (Generate_body q) (Generate_body_runs_le q)
                  (Z.to_nat (budget maxTokens)) 0 st0) as Hle.
    apply start_window in Hs as (_ & _ & Hr & _). rewrite Hr in Hle.
    destruct (steps (Generate_body q) (Z.to_nat (budget maxTokens)) 0 st0);
      exact Hle.
  - unfold GenerateWithCallback_run.
    destruct (start q prompt) as [st0|] eqn:Hs; [|cbn; lia].
    pose proof (steps_runs_le (GenerateWithCallback_body q ctx cb)
                  (callback_body_runs_le q ctx cb)
                  (Z.to_nat (budget maxTokens)) 0 st0) as Hle.
    apply start_window in Hs as (_ & _ & Hr & _). rewrite Hr in Hle.
    destruct (steps (GenerateWithCallback_body q ctx cb)
                (Z.to_nat (budget maxTokens)) 0 st0); exact Hle.
  - intros Heos st s. unfold Generate_run.
    destruct (start q prompt) as [st0|] eqn:Hs; [|discriminate].
    apply start_window in Hs as (_ & _ & Hr & _).
    destruct (steps_stop (Generate_body q) (Z.to_nat (budget maxTokens)) 0 st0)
      as [[st' Hc]|(k & stk & Hk & Hc & Hn & Hb)].
    + rewrite Hc. intros [= <- _].
      rewrite (steps_Generate_Continue _ _ _ _ _ Hc), Hr. reflexivity.
    + rewrite Hn. pose proof (Generate_body_cases q (0 + k) stk) as Hcases.
      destruct (Generate_body q (0 + k) stk) as [st1|st1|st1 o].
      * destruct (Hb st1 eq_refl).
      * destruct Hcases as (next & _ & _ & _ & _ & He).
        unfold IsEOS in He.
        assert ((0 <=? eosTokenID (tok q)) = false) as E by (apply Z.leb_gt; lia).
        rewrite E in He. discriminate.
      * destruct Hcases as (_ & _ & _ & _ & [-> | [e ->]]); discriminate.
Qed.

(** The runs of [Generate] stay within the window. *)
Lemma Generate_runs_window q st0 k :
  Z.of_nat (length (ids st0)) <= maxLen q ->
  Forall (fun r => exists i, r = run_of i /\ Z.of_nat (length i) <= maxLen q)
         (runs st0) ->
  Forall (fun r => exists i, r = run_of i /\ Z.of_nat (length i) <= maxLen q)
         (runs (state_of (steps (Generate_body q) k 0 st0))).
Proof.
  intros Hw Hr.
  apply (steps_invariant
           (fun st => Z.of_nat (length (ids st)) <= maxLen q
                      /\ Forall (fun r => exists i, r = run_of i
                                   /\ Z.of_nat (length i) <= maxLen q) (runs st))
           (Generate_body q)); [|split; assumption].
  intros t st [Hws Hrs]. split; [apply Generate_body_window; exact Hws|].
  pose proof (Generate_body_cases q t st) as Hc.
  assert (Forall (fun r => exists i, r = run_of i
                     /\ Z.of_nat (length i) <= maxLen q)
                 (runs st ++ [run_of (ids st)])) as Hnew.
  { apply Forall_app. split; [exact Hrs|]. constructor; [|constructor]. eauto. }
  destruct (Generate_body q t st) as [st1|st1|st1 o]; cbn [state_of].
  - destruct Hc as (next & _ & -> & _). exact Hnew.
  - destruct Hc as (next & _ & -> & _). exact Hnew.
  - destruct Hc as (_ & _ & _ & [-> | ->] & _); assumption.
Qed.

(** X16. Every run of the session by [Generate] gets the current
    sequence with a mask of ones and the positions 0, 1, 2, ... counted
    from the oldest id still in the window, and the sequence it gets has
    at most [maxLen] ids. *)
Theorem Generate_session_inputs (q : QwenONNX) (ctx : Context) (prompt : string)
  (maxTokens : Z) :
  Forall (fun '(i, mask, pos) =>
            mask = (fun _ => 1) <$> i
            /\ pos = Z.of_nat <$> seq 0 (length i)
            /\ Z.of_nat (length i) <= maxLen q)
         (runs (fst (Generate_run q ctx prompt maxTokens))).
Proof.
  assert (forall i : list Z, imap (fun j _ => Z.of_nat j) i = Z.of_nat <$> seq 0 (length i))
    as Hpos.
  { intros i. apply list_eq. intros j.
    rewrite list_lookup_imap, list_lookup_fmap.
    destruct (i !! j) eqn:Hj; cbn.
    - rewrite lookup_seq_lt by (eapply lookup_lt_Some; exact Hj). reflexivity.
    - rewrite lookup_seq_ge by (apply lookup_ge_None; exact Hj). reflexivity. }
  unfold Generate_run. destruct (start q prompt) as [st0|] eqn:Hs; [|constructor].
  apply start_window in Hs as (Hw & _ & Hr & _).
  pose proof (Generate_runs_window q st0 (Z.to_nat (budget maxTokens)) Hw) as HF.
  rewrite Hr in HF. specialize (HF (List.Forall_nil _)).
  assert (Forall (fun '(i, mask, pos) =>
                    mask = (fun _ => 1) <$> i
                    /\ pos = Z.of_nat <$> seq 0 (length i)
                    /\ Z.of_nat (length i) <= maxLen q)
                 (runs (state_of (steps (Generate_body q)
                                    (Z.to_nat (budget maxTokens)) 0 st0)))) as HG.
  { eapply Forall_impl; [exact HF|]. intros r (i & -> & Hl). unfold run_of.
    split; [reflexivity|]. split; [apply Hpos | exact Hl]. }
  destruct (steps (Generate_body q) (Z.to_nat (budget maxTokens)) 0 st0);
    exact HG.
Qed.

(** X17. An error of [Generate] comes with the empty string: no part of
    the text is returned beside an error. *)
Theorem Generate_error_without_text (q : QwenONNX) (ctx : Context)
  (prompt : string) (maxTokens : Z) (s : string) (e : error) :
  Generate q ctx prompt maxTokens = Return s (Some e) -> s = "".
Proof.
  unfold Generate, Generate_run.
  destruct (start q prompt) as [st0|]; [|discriminate].
  destruct (steps (Generate_body q) (Z.to_nat (budget maxTokens)) 0 st0)
    as [st1|st1|st1 o] eqn:Hst; cbn [snd]; try discriminate.
  intros ->. apply steps_Generate_Exit in Hst as [Hp|[e' He]]; [discriminate|].
  inversion He; reflexivity.
Qed.

(** The log of a run of [GenerateWithCallback] with a callback, however
    the run ends. *)
Lemma callback_run_log (q : QwenONNX) (ctx : Context) (prompt : string)
  (maxTokens : Z) (st0 st : State) (o : outcome) :
  start q prompt = Some st0 ->
  GenerateWithCallback_run q ctx prompt maxTokens true = (st, o) ->
  exists k,
    (k <= Z.to_nat (budget maxTokens))%nat
    /\ cbs st = streamed (tok q) (length (ids st0)) (ids st) k
    /\ take (length (ids st0)) (ids st) = ids st0
    /\ forall s err, o = Return s err -> s = List.last (cbs st) "".
Proof.
  intros Hs. unfold GenerateWithCallback_run. rewrite Hs.
  apply start_window in Hs as (_ & Hout & _ & Hcbs).
  destruct (steps_stop (GenerateWithCallback_body q ctx true)
              (Z.to_nat (budget maxTokens)) 0 st0)
    as [[st' Hc]|(k & stk & Hk & Hc & Hn & Hb)].
  - rewrite Hc. intros [= <- <-].
    destruct (callback_Continue_log _ _ _ _ _ Hc) as (Hl & Hp & Hcb & Ho).
    rewrite Hcbs in Hcb. cbn [app] in Hcb.
    exists (Z.to_nat (budget maxTokens)). split; [lia|]. split; [exact Hcb|].
    split; [exact Hp|]. intros s err [= <- <-].
    rewrite Hcb, (streamed_last _ _ _ _ Hl), Ho, Hout.
    destruct (Z.to_nat (budget maxTokens)); reflexivity.
  - rewrite Hn.
    destruct (callback_Continue_log _ _ _ _ _ Hc) as (Hl & Hp & Hcb & Ho).
    rewrite Hcbs in Hcb. cbn [app] in Hcb. rewrite Hout in Ho.
    pose proof (callback_body_cases q ctx true (0 + k) stk) as Hcases.
    destruct (GenerateWithCallback_body q ctx true (0 + k) stk)
      as [st1|st1|st1 o1].
    + destruct (Hb st1 eq_refl).
    + destruct Hcases as (next & _ & _ & Hi & _ & Ho1 & Hc1).
      intros [= <- <-]. exists k. split; [lia|].
      rewrite Hc1, Hi, Ho1, streamed_app by lia.
      split; [exact Hcb|].
      split; [rewrite take_app_le by lia; exact Hp|].
      intros s err [= <- <-].
      rewrite Hcb, (streamed_last _ _ _ _ Hl), Ho. reflexivity.
    + destruct Hcases as (Hi & Ho1 & Hc1 & _ & Hor & _).
      intros [= <- <-]. exists k. split; [lia|].
      rewrite Hc1, Hi. split; [exact Hcb|]. split; [exact Hp|].
      intros s err ->.
      destruct Hor as [Hp'|[e He]]; [discriminate|].
      inversion He; subst.
      rewrite Hcb, (streamed_last _ _ _ _ Hl), Ho. reflexivity.
Qed.

(** X18. What [GenerateWithCallback] returns, with or without an error,
    is the last string it gave to the callback, and the empty string when
    it gave none. The callback gets, after each step that did not select
    the end-of-sequence id, the decoding of the whole sequence so far,
    prompt included: the strings are not increments. The ids of the
    prompt stay at the front of the sequence. *)
Theorem callback_texts (q : QwenONNX) (ctx : Context) (prompt : string)
  (maxTokens : Z) (st0 st : State) (s : string) (err : option error) :
  start q prompt = Some st0 ->
  GenerateWithCallback_run q ctx prompt maxTokens true = (st, Return s err) ->
  exists k,
    (k <= Z.to_nat (budget maxTokens))%nat
    /\ cbs st = streamed (tok q) (length (ids st0)) (ids st) k
    /\ s = List.last (cbs st) ""
    /\ take (length (ids st0)) (ids st) = ids st0.
Proof.
  intros Hs Hr.
  destruct (callback_run_log q ctx prompt maxTokens st0 st _ Hs Hr)
    as (k & Hk & Hc & Hp & Hlast).
  exists k. split; [exact Hk|]. split; [exact Hc|].
  split; [|exact Hp]. apply (Hlast s err). reflexivity.
Qed.

(** X19. The loops start from the most recent [maxLen] ids of the
    encoded prompt, all of them when there are no more than [maxLen];
    the start panics on a negative [maxLen] and on nothing else. *)
Theorem start_keeps_recent (q : QwenONNX) (prompt : string) :
  (start q prompt = None <-> maxLen q < 0)
  /\ forall st,
       start q prompt = Some st ->
       ids st = drop (length (Encode (tok q) prompt) - Z.to_nat (maxLen q))
                     (Encode (tok q) prompt)
       /\ Z.of_nat (length (ids st))
          = Z.min (Z.of_nat (length (Encode (tok q) prompt))) (maxLen q).
Proof.
  pose proof (Encode_nonempty (tok q) prompt) as Hne.
  assert (1 <= length (Encode (tok q) prompt))%nat as Hlen
    by (destruct (Encode (tok q) prompt); [congruence | simpl; lia]).
  unfold start.
  destruct (Z.gtb_spec (Z.of_nat (length (Encode (tok q) prompt))) (maxLen q))
    as [Hgt|Hle].
  - unfold slice.
    destruct (Z.lt_ge_cases (maxLen q) 0) as [Hneg|Hpos].
    + assert ((Z.of_nat (length (Encode (tok q) prompt)) - maxLen q
               <=? Z.of_nat (length (Encode (tok q) prompt))) = false) as ->
        by (apply Z.leb_gt; lia).
      rewrite andb_false_r. cbn.
      split; [split; [intros _; exact Hneg | reflexivity] | discriminate].
    + assert ((0 <=? Z.of_nat (length (Encode (tok q) prompt)) - maxLen q)
              && (Z.of_nat (length (Encode (tok q) prompt)) - maxLen q
                  <=? Z.of_nat (length (Encode (tok q) prompt)))
              && (Z.of_nat (length (Encode (tok q) prompt))
                  <=? Z.of_nat (length (Encode (tok q) prompt))) = true) as ->
        by (rewrite !andb_true_iff, !Z.leb_le; lia).
      cbn [mbind option_bind].
      split; [split; [discriminate | lia]|].
      intros st [= <-]. cbn [ids].
      replace (Z.to_nat (Z.of_nat (length (Encode (tok q) prompt)) - maxLen q))
        with (length (Encode (tok q) prompt) - Z.to_nat (maxLen q))%nat by lia.
      rewrite take_ge by (rewrite length_drop; lia).
      split; [reflexivity|]. rewrite length_drop. lia.
  - cbn [mbind option_bind].
    split; [split; [discriminate | lia]|].
    intros st [= <-]. cbn [ids].
    replace (length (Encode (tok q) prompt) - Z.to_nat (maxLen q))%nat
      with 0%nat by lia.
    split; [reflexivity | lia].
Qed.

End WithGoStd.

End GenerationMore.

(** ** More on the hash embedder *)

Module HashMore.
Import Go Float HashEmbed HashFacts.

Lemma alter_replicate {A} (f : A -> A) (x : A) : forall (n i : nat),
  (i < n)%nat ->
  alter f i (replicate n x) = replicate i x ++ f x :: replicate (n - S i) x.
Proof.
  induction n as [|n IH]; intros i Hi; [lia|].
  destruct i as [|i]; cbn.
  - rewrite Nat.sub_0_r. reflexivity.
  - f_equal. apply IH. lia.
Qed.

(** The sum of squares over zeros leaves 0 and 1 as they are. *)
Lemma norm_zeros (n : nat) (acc : float64) :
  acc = f64_zero \/ acc = f64_one ->
  foldl (fun norm v => f64_add norm (f64_of_f32 (f32_mul v v))) acc
        (replicate n f32_zero) = acc.
Proof.
  intros Hacc. induction n as [|n IH]; [reflexivity|].
  cbn [replicate foldl].
  replace (f64_add acc (f64_of_f32 (f32_mul f32_zero f32_zero))) with acc;
    [exact IH|].
  destruct Hacc as [-> | ->]; vm_compute; reflexivity.
Qed.

Section WithGoStd.
Context `{GoStd}.

Lemma bucket_loop_None h toks :
  foldl (fun acc tok => vec ← acc; bucket h vec tok) None toks = None.
Proof. induction toks as [|tok toks IH]; [reflexivity | exact IH]. Qed.

Lemma bucket_loop h : forall toks vec,
  foldl (fun acc tok => vec ← acc; bucket h vec tok) (Some vec) toks
  = (if (wrap32u (dim h) =? 0) && negb (length toks =? 0)%nat then None
     else foldl (fun acc tok => vec ← acc; bucket h vec tok) (Some vec) toks)
  /\ forall vec',
       foldl (fun acc tok => vec ← acc; bucket h vec tok) (Some vec) toks
       = Some vec' -> length vec' = length vec.
Proof.
  induction toks as [|tok toks IH]; intros vec.
  - cbn. rewrite andb_false_r. split; [reflexivity|].
    intros vec' [= <-]. reflexivity.
  - cbn [foldl mbind option_bind length Nat.eqb negb].
    rewrite andb_true_r.
    destruct (wrap32u (dim h) =? 0) eqn:Hz.
    + assert (bucket h vec tok = None) as ->
        by (unfold bucket; rewrite Hz; reflexivity).
      rewrite bucket_loop_None. split; [reflexivity | discriminate].
    + split; [reflexivity|].
      destruct (bucket h vec tok) as [vec1|] eqn:Hb.
      * intros vec' Hv. rewrite (proj2 (IH vec1) vec' Hv).
        exact (bucket_length _ _ _ _ Hb).
      * rewrite bucket_loop_None. discriminate.
Qed.

(** X20. [embedOne] panics in two cases only: a negative dimension, and
    a dimension that is 0 as a [uint32] (0, or a multiple of [2^32])
    together with a text that has a word. In every other case the vector
    has [dim] entries, and they are all zero when the text has no
    word. *)
Theorem embedOne_panics_iff (h : hashEmbedder) (text : string) :
  (embedOne h text = None
   <-> dim h < 0
       \/ (dim h mod 2 ^ 32 = 0
           /\ wordRE_FindAllString (strings_ToLower text) <> []))
  /\ (forall v, embedOne h text = Some v -> length v = Z.to_nat (dim h))
  /\ (0 <= dim h ->
      wordRE_FindAllString (strings_ToLower text) = [] ->
      embedOne h text = Some (replicate (Z.to_nat (dim h)) f32_zero)).
Proof.
  unfold embedOne, make.
  destruct (Z.ltb_spec (dim h) 0) as [Hneg|Hpos]; cbn [mbind option_bind].
  { split; [split; [intros _; left; exact Hneg | reflexivity]|].
    split; [discriminate | lia]. }
  destruct (wordRE_FindAllString (strings_ToLower text)) as [|tok toks] eqn:Ht.
  { cbn. split; [split; [discriminate | intros [?|[_ ?]]; [lia | congruence]]|].
    split; [intros v [= <-]; apply length_replicate | reflexivity]. }
  change (length (tok :: toks) =? 0)%nat with false. cbv iota.
  destruct (bucket_loop h (tok :: toks) (replicate (Z.to_nat (dim h)) f32_zero))
    as [Hcase Hlen].
  destruct (foldl (fun acc tok0 => vec ← acc; bucket h vec tok0)
              (Some (replicate (Z.to_nat (dim h)) f32_zero)) (tok :: toks))
    as [vec|] eqn:Hloop; cbn [mbind option_bind].
  - assert (length vec = Z.to_nat (dim h)) as Hl
      by (rewrite (Hlen vec eq_refl); apply length_replicate).
    assert (dim h mod 2 ^ 32 <> 0) as Hnz.
    { intros Hz. change (dim h mod 2 ^ 32) with (wrap32u (dim h)) in Hz.
      rewrite Hz in Hcase. cbn in Hcase. discriminate. }
    split; [|split; [|discriminate]].
    + destruct (gt _ f64_zero);
        (split; [discriminate | intros [?|[? _]]; [lia | contradiction]]).
    + destruct (gt _ f64_zero); intros v [= <-]; rewrite ?length_fmap; exact Hl.
  - split; [|split; discriminate].
    split; [|reflexivity]. intros _. right. split; [|discriminate].
    change (dim h mod 2 ^ 32) with (wrap32u (dim h)).
    destruct (Z.eqb_spec (wrap32u (dim h)) 0) as [Hz|Hz]; [exact Hz|].
    exfalso. clear Hcase Hlen.
    assert (forall toks0 vec, exists vec',
              foldl (fun acc tok0 => vec ← acc; bucket h vec tok0)
                    (Some vec) toks0 = Some vec') as Hs.
    { induction toks0 as [|t0 toks0 IH]; intros vec; [eauto|].
      cbn [foldl mbind option_bind].
      destruct (bucket h vec t0) as [vec1|] eqn:Hb; [apply IH|].
      unfold bucket in Hb.
      destruct (Z.eqb_spec (wrap32u (dim h)) 0); [contradiction | discriminate]. }
    destruct (Hs (tok :: toks) (replicate (Z.to_nat (dim h)) f32_zero))
      as [vec' Hv].
    rewrite Hv in Hloop. discriminate.
Qed.

(** X21. With a dimension between 1 and [2^32 - 1], a text with one word
    embeds to a signed unit vector of the basis: 1 or -1 at the bucket
    [hash(word) mod dim], by the low bit of [hash(word + "_alt")], and 0
    everywhere else; the normalisation changes nothing. *)
Theorem embedOne_single_word (h : hashEmbedder) (text tok : string) :
  0 < dim h < 2 ^ 32 ->
  wordRE_FindAllString (strings_ToLower text) = [tok] ->
  0 <= hash tok mod dim h < dim h
  /\ embedOne h text
     = Some (<[Z.to_nat (hash tok mod dim h) :=
                 if Z.land (hash (tok +:+ "_alt")) 1 =? 1
                 then f32_neg_one else f32_one]>
               (replicate (Z.to_nat (dim h)) f32_zero)).
Proof.
  intros Hd Ht.
  assert (0 <= hash tok mod dim h < dim h) as Hidx
    by (apply Z.mod_pos_bound; lia).
  split; [exact Hidx|].
  unfold embedOne, make.
  assert ((dim h <? 0) = false) as -> by (apply Z.ltb_ge; lia).
  cbn [mbind option_bind]. rewrite Ht.
  change (length [tok] =? 0)%nat with false. cbv iota.
  cbn [foldl mbind option_bind]. unfold bucket.
  assert (wrap32u (dim h) = dim h) as ->
    by (unfold wrap32u; apply Z.mod_small; lia).
  assert ((dim h =? 0) = false) as -> by (apply Z.eqb_neq; lia).
  cbn [mbind option_bind].
  rewrite alter_replicate by lia.
  rewrite insert_replicate_lt by lia.
  set (i := Z.to_nat (hash tok mod dim h)).
  set (n := Z.to_nat (dim h)).
  assert (forall sign, sign = f32_neg_one \/ sign = f32_one ->
            (let vec := replicate i f32_zero ++ f32_add f32_zero sign
                          :: replicate (n - S i) f32_zero in
             let norm := f64_sqrt
                           (foldl (fun norm v =>
                                     f64_add norm (f64_of_f32 (f32_mul v v)))
                                  f64_zero vec) in
             if gt norm f64_zero
             then Some ((fun v => f32_mul v (f32_of_f64 (f64_div f64_one norm)))
                          <$> vec)
             else Some vec)
            = Some (replicate i f32_zero ++ sign :: replicate (n - S i) f32_zero))
    as Hnorm.
  { intros sign Hsign. cbv zeta.
    rewrite foldl_app, norm_zeros by (left; reflexivity).
    cbn [foldl].
    assert (f64_add f64_zero
              (f64_of_f32 (f32_mul (f32_add f32_zero sign) (f32_add f32_zero sign)))
            = f64_one) as ->
      by (destruct Hsign as [-> | ->]; vm_compute; reflexivity).
    rewrite norm_zeros by (right; reflexivity).
    change (gt (f64_sqrt f64_one) f64_zero) with true. cbv iota.
    change (f32_of_f64 (f64_div f64_one (f64_sqrt f64_one))) with f32_one.
    rewrite fmap_app, fmap_cons, !fmap_replicate.
    change (f32_mul f32_zero f32_one) with f32_zero.
    assert (f32_mul (f32_add f32_zero sign) f32_one = sign) as ->
      by (destruct Hsign as [-> | ->]; vm_compute; reflexivity).
    reflexivity. }
  destruct (Z.land (hash (tok +:+ "_alt")) 1 =? 1);
    [apply (Hnorm f32_neg_one) | apply (Hnorm f32_one)]; auto.
Qed.

End WithGoStd.

End HashMore.

(** ** The embeddings handler *)

Module ServerFacts.
Import Go Float Server Props.

Lemma strings_of_loop (v : list element) : forall (pre : list string),
  foldl (fun inputs it =>
           match it with
           | EString s => inputs ++ [s]
           | EOther => inputs
           end) pre v
  = pre ++ omap string_of v.
Proof.
  induction v as [|e v IH]; intros pre; [cbn; rewrite app_nil_r; reflexivity|].
  cbn [foldl]. rewrite IH. destruct e; cbn; [|reflexivity].
  rewrite <- app_assoc. reflexivity.
Qed.

Lemma strings_of_omap (v : list element) : strings_of v = omap string_of v.
Proof. unfold strings_of. rewrite strings_of_loop. reflexivity. Qed.

(** X22. [handleEmbeddings] calls the embedding service at most once and
    never with an empty list: with the string itself for a string input,
    with the string elements of an array in their order for an array
    input, the other elements being dropped without an error. It answers
    400 without calling the service (an array with no string in it
    included), 500 with the message of the service's error, and otherwise
    the model name and the vectors the service returned. *)
Theorem handleEmbeddings_service_calls (svc : Service) (req : option any)
  (resp : response) (calls : list (list string)) :
  handleEmbeddings svc req = (resp, calls) ->
  (calls = []
   \/ exists inputs,
        calls = [inputs] /\ inputs <> []
        /\ (forall s, req = Some (AString s) -> inputs = [s])
        /\ (forall v, req = Some (AArray v) -> inputs = omap string_of v))
  /\ (forall v, req = Some (AArray v) ->
        (resp = HttpError "no input provided" 400 /\ calls = []
         <-> Forall (fun e => e = EOther) v))
  /\ match resp with
     | HttpError msg code =>
         (code = 400 /\ calls = [])
         \/ (code = 500
             /\ exists inputs vecs model,
                  calls = [inputs] /\ svc inputs = (vecs, model, Some msg))
     | EmbeddingsResponse model vecs =>
         exists inputs, calls = [inputs] /\ svc inputs = (vecs, model, None)
     end.
Proof.
  assert (forall v, omap string_of v = [] <-> Forall (fun e => e = EOther) v)
    as Hnone.
  { induction v as [|e v IH]; [split; [constructor | reflexivity]|].
    destruct e as [s|]; cbn.
    - split; [discriminate | intros Hf; inversion Hf; discriminate].
    - rewrite IH. split; [intros Hf; constructor; [reflexivity | exact Hf]
                         | intros Hf; inversion Hf; assumption]. }
  unfold handleEmbeddings. destruct req as [[s|v|]|].
  - cbn [length Nat.eqb]. destruct (svc [s]) as [[vecs model] [err|]] eqn:Hsvc;
      intros [= <- <-].
    + split; [right; exists [s]; repeat split; try discriminate;
              [intros s0 [= <-]; reflexivity]|].
      split; [discriminate|]. right. split; [reflexivity|]. eauto.
    + split; [right; exists [s]; repeat split; try discriminate;
              [intros s0 [= <-]; reflexivity]|].
      split; [discriminate|]. eauto.
  - rewrite strings_of_omap.
    destruct (omap string_of v) as [|s0 l] eqn:Hv.
    + cbn [length Nat.eqb]. intros [= <- <-].
      split; [left; reflexivity|].
      split; [|left; split; reflexivity].
      intros v0 [= <-]. split; [intros _; apply Hnone; exact Hv|].
      intros _. split; reflexivity.
    + cbn [length Nat.eqb].
      assert (forall v0, Some (AArray v) = Some (AArray v0) ->
                ~ Forall (fun e => e = EOther) v0) as Hnot.
      { intros v0 [= <-] Hf. apply Hnone in Hf. congruence. }
      destruct (svc (s0 :: l)) as [[vecs model] [err|]] eqn:Hsvc;
        intros [= <- <-].
      * split; [right; exists (s0 :: l); repeat split; try discriminate;
                [intros v0 [= <-]; symmetry; exact Hv]|].
        split; [intros v0 Hv0; split;
                [intros [_ ?]; discriminate
                | intros Hf; destruct (Hnot v0 Hv0 Hf)]|].
        right. split; [reflexivity|]. eauto.
      * split; [right; exists (s0 :: l); repeat split; try discriminate;
                [intros v0 [= <-]; symmetry; exact Hv]|].
        split; [intros v0 Hv0; split;
                [intros [? _]; discriminate
                | intros Hf; destruct (Hnot v0 Hv0 Hf)]|].
        eauto.
  - intros [= <- <-]. split; [left; reflexivity|].
    split; [discriminate|]. left. split; reflexivity.
  - intros [= <- <-]. split; [left; reflexivity|].
    split; [discriminate|]. left. split; reflexivity.
Qed.

End ServerFacts.

(** ** Pooling of the hidden states *)

Module PoolFacts.
Import Go Float WordPiece MiniLM.

Lemma wrap64_small (z : Z) : - 2 ^ 63 <= z < 2 ^ 63 -> wrap64 z = z.
Proof. intros Hz. unfold wrap64. rewrite Z.mod_small; lia. Qed.

Lemma index_lookup {A} (v : list A) (i : Z) :
  0 <= i -> index v i = v !! Z.to_nat i.
Proof.
  intros Hi. unfold index.
  destruct (Z.leb_spec 0 i); [|lia]. cbn [andb].
  destruct (Z.ltb_spec i (Z.of_nat (length v))); [reflexivity|].
  symmetry. apply lookup_ge_None. lia.
Qed.

Lemma foldl_ext_in {A B} (F G : A -> B -> A) (l : list B) :
  (forall a x, x ∈ l -> F a x = G a x) ->
  forall a, foldl F a l = foldl G a l.
Proof.
  induction l as [|x l IH]; intros Hfg a; [reflexivity|].
  cbn [foldl]. rewrite (Hfg a x) by (left).
  apply IH. intros a' y Hy. apply Hfg. right. exact Hy.
Qed.

(** A loop whose body may panic does not, when the body does not on the
    states that an invariant holds of. *)
Lemma loop_Some {A B} (P : A -> Prop) (f : A -> B -> option A) (l : list B) :
  (forall a x, P a -> x ∈ l -> exists a', f a x = Some a' /\ P a') ->
  forall a, P a ->
  exists a', foldl (fun acc x => a ← acc; f a x) (Some a) l = Some a' /\ P a'.
Proof.
  induction l as [|x l IH]; intros Hf a Ha; [exists a; split; [reflexivity | exact Ha]|].
  cbn [foldl mbind option_bind].
  destruct (Hf a x Ha) as (a1 & -> & Ha1); [left|].
  apply IH; [|exact Ha1]. intros a' y Ha' Hy. apply Hf; [exact Ha' | right; exact Hy].
Qed.

Lemma add_hidden_Some dataF base h vec :
  (forall d : nat, Z.of_nat d < h ->
     0 <= base + Z.of_nat d < 2 ^ 63
     /\ base + Z.of_nat d < Z.of_nat (length dataF)) ->
  exists vec', add_hidden dataF base h vec = Some vec'
               /\ length vec' = length vec.
Proof.
  intros Hb. unfold add_hidden.
  apply (loop_Some (fun v => length v = length vec)
           (fun vec d => x ← index dataF (wrap64 (base + Z.of_nat d));
                         Some (alter (fun v => f32_add v x) d vec)));
    [|reflexivity].
  intros v d Hv Hd. apply elem_of_seq in Hd.
  destruct (Hb d) as [Hr Hl]; [lia|].
  rewrite wrap64_small, index_lookup by lia.
  destruct (lookup_lt_is_Some_2 dataF (Z.to_nat (base + Z.of_nat d))) as [x ->];
    [lia|].
  cbn. eexists. split; [reflexivity|]. rewrite length_alter. exact Hv.
Qed.

Lemma add_hidden_ext data1 data2 base h vec :
  (forall d : nat, Z.of_nat d < h ->
     index data1 (wrap64 (base + Z.of_nat d))
     = index data2 (wrap64 (base + Z.of_nat d))) ->
  add_hidden data1 base h vec = add_hidden data2 base h vec.
Proof.
  intros Hd. unfold add_hidden. apply foldl_ext_in.
  intros a d Hin. apply elem_of_seq in Hin.
  rewrite Hd by lia. reflexivity.
Qed.

Lemma normalize_length h vec count :
  length (normalize h vec count) = length vec.
Proof.
  unfold normalize. destruct (gt count f32_zero); [|reflexivity].
  assert (forall l v n,
            length (foldl (fun '(vec, norm) d =>
                      let vec := alter (fun v => f32_mul v (f32_div f32_one count)) d vec in
                      let x := default f32_zero (vec !! d) in
                      (vec, f64_add norm (f64_of_f32 (f32_mul x x))))
                    (v, n) l).1 = length v) as Hmean.
  { induction l as [|d l IH]; intros v n; [reflexivity|].
    cbn [foldl]. rewrite IH. apply length_alter. }
  specialize (Hmean (List.seq 0 (Z.to_nat h)) vec f64_zero).
  destruct (foldl _ (vec, f64_zero) (List.seq 0 (Z.to_nat h))) as [v1 n1].
  cbn [fst] in Hmean.
  destruct (gt n1 f64_zero); [|exact Hmean].
  rewrite <- Hmean. generalize (List.seq 0 (Z.to_nat h)). clear.
  intros l. revert v1. induction l as [|d l IH]; intros v1; [reflexivity|].
  cbn [foldl]. rewrite IH. apply length_alter.
Qed.

Section Bounds.
Variables (bsz : nat) (seq h : Z).
Hypothesis Hseq : 0 <= seq.
Hypothesis Hh : 0 <= h.
Hypothesis Hmask : Z.of_nat bsz * seq < 2 ^ 63.
Hypothesis Hdata : Z.of_nat bsz * seq * h < 2 ^ 63.

(** Within these bounds no index of the loops wraps around. *)
Lemma indices (i j : nat) :
  (i < bsz)%nat -> Z.of_nat j < seq ->
  wrap64 (wrap64 (Z.of_nat i * seq) + Z.of_nat j)
  = Z.of_nat i * seq + Z.of_nat j
  /\ forall d : nat, Z.of_nat d < h ->
       wrap64 (wrap64 (wrap64 (Z.of_nat i * seq) * h)
               + wrap64 (Z.of_nat j * h)) + Z.of_nat d
       = (Z.of_nat i * seq + Z.of_nat j) * h + Z.of_nat d
       /\ 0 <= (Z.of_nat i * seq + Z.of_nat j) * h + Z.of_nat d
            < Z.of_nat bsz * seq * h.
Proof.
  intros Hi Hj.
  assert (0 <= Z.of_nat i * seq) by nia.
  assert (Z.of_nat i * seq + seq <= Z.of_nat bsz * seq) by nia.
  rewrite (wrap64_small (Z.of_nat i * seq)) by lia.
  split; [apply wrap64_small; lia|].
  intros d Hd.
  assert (0 <= Z.of_nat i * seq * h) by nia.
  assert ((Z.of_nat i * seq + Z.of_nat j + 1) * h <= Z.of_nat bsz * seq * h)
    by (apply Z.mul_le_mono_nonneg_r; lia).
  assert (0 <= Z.of_nat j * h) by nia.
  rewrite (wrap64_small (Z.of_nat i * seq * h)) by nia.
  rewrite (wrap64_small (Z.of_nat j * h)) by nia.
  rewrite wrap64_small by nia.
  split; [ring|]. nia.
Qed.

End Bounds.

(** Mean pooling on an output of shape [(_, seq, h)] over a batch of
    [bsz] rows of [seq] positions, with data for every position: there is
    no panic, and the result has one vector for each row, each of [h]
    entries. *)
Lemma pool_total (bsz : nat) (seq h : Z) (attMask : list Z)
  (dataF : list float32) :
  0 <= seq -> 0 <= h ->
  Z.of_nat (length attMask) = Z.of_nat bsz * seq ->
  Z.of_nat (length dataF) = Z.of_nat bsz * seq * h ->
  Z.of_nat (length attMask) < 2 ^ 63 ->
  Z.of_nat (length dataF) < 2 ^ 63 ->
  exists out,
    pool bsz seq attMask seq h dataF = Some out
    /\ length out = bsz
    /\ Forall (fun vec => length vec = Z.to_nat h) out.
Proof.
  intros Hseq Hh Hlm Hld Hbm Hbd.
  assert (forall i, (i < bsz)%nat ->
            exists vec, pool_row dataF attMask seq seq h i = Some vec
                        /\ length vec = Z.to_nat h) as Hrow.
  { intros i Hi. unfold pool_row, make.
    assert ((h <? 0) = false) as -> by (apply Z.ltb_ge; exact Hh).
    cbn [mbind option_bind].
    assert (exists vc,
              pool_tokens dataF attMask seq seq h i
                (wrap64 (wrap64 (Z.of_nat i * seq) * h))
                (replicate (Z.to_nat h) f32_zero) = Some vc
              /\ length vc.1 = Z.to_nat h) as ([vec count] & -> & Hl).
    { unfold pool_tokens.
      apply (loop_Some
               (fun vc : list float32 * float32 => length vc.1 = Z.to_nat h)
               (fun (vc : list float32 * float32) (j : nat) =>
                  let '(vec, count) := vc in
                  m ← index attMask (wrap64 (wrap64 (Z.of_nat i * seq) + Z.of_nat j));
                  if m =? 0 then Some (vec, count)
                  else
                    vec ← add_hidden dataF
                            (wrap64 (wrap64 (wrap64 (Z.of_nat i * seq) * h)
                                     + wrap64 (Z.of_nat j * h))) h vec;
                    Some (vec, f32_add count f32_one)));
        [|cbn [fst]; apply length_replicate].
      intros [vec count] j Hv Hj. apply elem_of_seq in Hj. cbn [fst] in Hv.
      destruct (indices bsz seq h Hseq Hh ltac:(lia) ltac:(lia) i j)
        as [Hm Hd]; [lia | lia |].
      rewrite Hm, index_lookup by nia.
      destruct (lookup_lt_is_Some_2 attMask
                  (Z.to_nat (Z.of_nat i * seq + Z.of_nat j))) as [m ->]; [nia|].
      cbn [mbind option_bind].
      destruct (m =? 0); [eexists; split; [reflexivity | exact Hv]|].
      destruct (add_hidden_Some dataF
                  (wrap64 (wrap64 (wrap64 (Z.of_nat i * seq) * h)
                           + wrap64 (Z.of_nat j * h))) h vec)
        as (vec' & -> & Hl').
      { intros d Hdh. destruct (Hd d Hdh) as [-> Hr]. lia. }
      cbn. eexists. split; [reflexivity|]. cbn [fst]. congruence. }
    cbn. eexists. split; [reflexivity|].
    rewrite normalize_length. exact Hl. }
  unfold pool.
  rewrite (HashFacts.collect_loop (pool_row dataF attMask seq seq h)
             (List.seq 0 bsz) []).
  assert (exists out, mapM (pool_row dataF attMask seq seq h) (List.seq 0 bsz)
                      = Some out) as [out Hout].
  { change (is_Some (mapM (pool_row dataF attMask seq seq h) (List.seq 0 bsz))).
    apply mapM_is_Some, Forall_forall. intros i Hi. apply elem_of_seq in Hi.
    destruct (Hrow i) as (vec & Hv & _); [lia|]. exists vec. exact Hv. }
  rewrite Hout. exists out. split; [reflexivity|].
  apply mapM_Some in Hout.
  split; [rewrite <- (Forall2_length _ _ _ Hout); apply length_seq|].
  apply Forall_forall. intros vec Hvec.
  apply list_elem_of_lookup in Hvec as [k Hk].
  destruct (Forall2_lookup_r _ _ _ _ _ Hout Hk) as (i & Hi & Hp).
  apply lookup_seq in Hi as [-> Hi].
  destruct (Hrow k Hi) as (vec' & Hv & Hl). cbn in Hp. congruence.
Qed.

(** X24. The hidden states at the positions whose mask is 0 are never
    read: two outputs of the session that agree at every position with a
    mask other than 0 are pooled to the same vectors (or both panic). *)
Theorem pool_ignores_padding (bsz : nat) (seq h : Z) (attMask : list Z)
  (data1 data2 : list float32) :
  0 <= seq ->
  Z.of_nat bsz * seq < 2 ^ 63 ->
  Z.of_nat bsz * seq * h < 2 ^ 63 ->
  (forall p d : nat,
     Z.of_nat p < Z.of_nat bsz * seq -> Z.of_nat d < h ->
     attMask !! p <> Some 0 ->
     data1 !! (p * Z.to_nat h + d)%nat = data2 !! (p * Z.to_nat h + d)%nat) ->
  pool bsz seq attMask seq h data1 = pool bsz seq attMask seq h data2.
Proof.
  intros Hseq Hbm Hbd Hagree. unfold pool. apply foldl_ext_in.
  intros acc i Hi. apply elem_of_seq in Hi.
  destruct acc as [out|]; [|reflexivity]. cbn [mbind option_bind].
  assert (pool_row data1 attMask seq seq h i = pool_row data2 attMask seq seq h i)
    as ->; [|reflexivity].
  unfold pool_row, make.
  destruct (Z.ltb_spec h 0) as [Hneg|Hh]; [reflexivity|].
  cbn [mbind option_bind].
  assert (pool_tokens data1 attMask seq seq h i
            (wrap64 (wrap64 (Z.of_nat i * seq) * h))
            (replicate (Z.to_nat h) f32_zero)
          = pool_tokens data2 attMask seq seq h i
              (wrap64 (wrap64 (Z.of_nat i * seq) * h))
              (replicate (Z.to_nat h) f32_zero)) as ->; [|reflexivity].
  unfold pool_tokens. apply foldl_ext_in.
  intros vc j Hj. apply elem_of_seq in Hj.
  destruct vc as [[vec count]|]; [|reflexivity]. cbn [mbind option_bind].
  destruct (indices bsz seq h Hseq Hh Hbm Hbd i j) as [Hm Hd]; [lia | lia |].
  rewrite Hm, index_lookup by nia.
  destruct (attMask !! Z.to_nat (Z.of_nat i * seq + Z.of_nat j)) as [m|] eqn:Hmj;
    [|reflexivity].
  cbn [mbind option_bind].
  destruct (Z.eqb_spec m 0) as [Hz|Hnz]; [reflexivity|].
  rewrite (add_hidden_ext data1 data2); [reflexivity|].
  intros d Hdh. destruct (Hd d Hdh) as [-> Hr].
  rewrite wrap64_small by lia. rewrite !index_lookup by lia.
  replace (Z.to_nat ((Z.of_nat i * seq + Z.of_nat j) * h + Z.of_nat d))
    with (Z.to_nat (Z.of_nat i * seq + Z.of_nat j) * Z.to_nat h + d)%nat by nia.
  apply Hagree; [nia | exact Hdh |].
  rewrite Hmj. congruence.
Qed.

Section WithGoStd.
Context `{GoStd}.

(** X23. When the tensors are accepted and the session returns a
    [float32] tensor of shape [(_, maxLen, h)] with a value for every
    position, [Embed] on a batch that is not empty returns, with no error
    and no panic, one vector for each input, each of [h] entries. *)
Theorem Embed_dimensions (rt : Runtime) (m : miniLMOnnx)
  (inputs : list string) (h : Z) :
  0 <= WordPiece.maxLen m -> 0 <= h -> inputs <> [] ->
  Z.of_nat (length inputs) * WordPiece.maxLen m < 2 ^ 63 ->
  Z.of_nat (length inputs) * WordPiece.maxLen m * h < 2 ^ 63 ->
  (forall shape data, NewTensor rt shape data = None) ->
  (forall I A T, exists b dataF,
     Run rt I A T = inr (Qwen.TensorFloat32 [b; WordPiece.maxLen m; h] dataF)
     /\ Z.of_nat (length dataF)
        = Z.of_nat (length inputs) * WordPiece.maxLen m * h) ->
  exists out,
    Embed rt m inputs = Some (Some out, model_name, None)
    /\ length out = length inputs
    /\ Forall (fun vec => length vec = Z.to_nat h) out.
Proof.
  intros Hpos Hh Hne Hbm Hbd Hnt Hrun.
  destruct (EncodeFacts.Embed_tensors_rows m inputs Hpos Hne)
    as (rows & Hrows & Hw & HE).
  unfold Embed. rewrite HE. cbn [mbind option_bind].
  rewrite !Hnt.
  destruct (Hrun (concat rows.*1) (concat rows.*2)
              (replicate (length inputs * Z.to_nat (WordPiece.maxLen m)) 0))
    as (b & dataF & -> & Hld).
  assert (length (concat rows.*2)
          = (length inputs * Z.to_nat (WordPiece.maxLen m))%nat) as Hlm.
  { rewrite (EncodeFacts.concat_rows_length _ (Z.to_nat (WordPiece.maxLen m))).
    - rewrite length_fmap. apply mapM_Some, Forall2_length in Hrows.
      rewrite Hrows. reflexivity.
    - apply Forall_fmap. eapply Forall_impl; [exact Hw|].
      intros r [_ Hb]. exact Hb. }
  destruct (pool_total (length inputs) (WordPiece.maxLen m) h
              (concat rows.*2) dataF) as (out & -> & Hlo & Hf);
    [exact Hpos | exact Hh | rewrite Hlm; nia | exact Hld
     | rewrite Hlm; nia | rewrite Hld; exact Hbd |].
  cbn. exists out. split; [reflexivity|]. split; [exact Hlo | exact Hf].
Qed.

End WithGoStd.

End PoolFacts.

(** ** The chat handler *)

Module ChatFacts.
Import Go Qwen Chat Props QwenFacts GenerationMore.

Section WithGoStd.
Context `{GoStd}.


End WithGoStd.

End ChatFacts.

(** ** The properties on concrete inputs *)

Module MoreScenarios.
Import Go Float WordPiece WordPieceSpec Qwen Ascii7 Samples MoreSamples Props.
Import WordPieceMore EncodeMore DownloadMore ArgmaxFacts BpeMore GenerationMore.
Import HashMore ServerFacts PoolFacts ChatFacts.

Lemma tokenizeWord_tiles_witness :
  HasPrefix "unaffix" "##" = false
  /\ exists (subs : list string) (ids : list Z) (rem : string),
       "unaffix" = str_concat subs +:+ rem
       /\ Forall (fun s => s <> "") subs
       /\ Forall2 (fun key id => WordPiece.vocab WordPieceSamples.w0 !! key = Some id)
                  (keys true subs) ids
       /\ ((rem = "" /\ tokenizeWord WordPieceSamples.w0 "unaffix" = ids)
           \/ (rem <> ""
               /\ tokenizeWord WordPieceSamples.w0 "unaffix"
                  = ids ++ [unkID WordPieceSamples.w0]
               /\ forall n, (1 <= n <= String.length rem)%nat ->
                    WordPiece.vocab WordPieceSamples.w0
                      !! piece (bool_decide (subs = [])) (str_take n rem) = None)).
Proof.
  split; [reflexivity|].
  apply (tokenizeWord_tiles WordPieceSamples.w0 "unaffix"). reflexivity.
Defined.

Lemma encode_no_token_witness :
  word_runes (utf8_decode (strings_ToLower "?!")) = []
  /\ 2 <= 4
  /\ basicTokens "?!" = []
  /\ encode minilm "?!" 4
     = Some (clsID (tokenizer minilm) :: sepID (tokenizer minilm)
               :: replicate (Z.to_nat 4 - 2) 0,
             1 :: 1 :: replicate (Z.to_nat 4 - 2) 0).
Proof.
  split; [reflexivity|]. split; [lia|].
  apply (encode_no_token minilm "?!" 4); [reflexivity | lia].
Defined.

Lemma encode_truncates_witness :
  0 <= 2 < Z.of_nat (length (wrapped minilm "unaffable a"))
  /\ encode minilm "unaffable a" 2
     = Some (take (Z.to_nat 2) (wrapped minilm "unaffable a"),
             replicate (Z.to_nat 2) 1).
Proof.
  assert (0 <= 2 < Z.of_nat (length (wrapped minilm "unaffable a"))) as Hc
    by (vm_compute; split; [discriminate | reflexivity]).
  split; [exact Hc|].
  apply (encode_truncates minilm "unaffable a" 2 Hc).
Defined.

Lemma encode_panics_iff_witness :
  -1 < 0 /\ encode minilm "a" (-1) = None.
Proof.
  split; [lia|].
  apply (proj1 (encode_panics_iff minilm "a" (-1))). lia.
Defined.

Lemma Embed_tensors_batch_witness :
  0 <= WordPiece.maxLen minilm
  /\ ["a"; "un"] <> []
  /\ exists I A,
       Embed_tensors minilm ["a"; "un"]
       = Some (Tensors I A
                 (replicate (length ["a"; "un"] * Z.to_nat (WordPiece.maxLen minilm)) 0))
       /\ length I = (length ["a"; "un"] * Z.to_nat (WordPiece.maxLen minilm))%nat
       /\ length A = (length ["a"; "un"] * Z.to_nat (WordPiece.maxLen minilm))%nat
       /\ forall i text,
            ["a"; "un"] !! i = Some text ->
            encode minilm text (WordPiece.maxLen minilm)
            = Some (take (Z.to_nat (WordPiece.maxLen minilm))
                      (drop (i * Z.to_nat (WordPiece.maxLen minilm)) I),
                    take (Z.to_nat (WordPiece.maxLen minilm))
                      (drop (i * Z.to_nat (WordPiece.maxLen minilm)) A)).
Proof.
  assert (0 <= WordPiece.maxLen minilm) as Hpos by (cbn; lia).
  split; [exact Hpos|]. split; [discriminate|].
  apply (proj2 (Embed_tensors_batch minilm ["a"; "un"]) Hpos). discriminate.
Defined.

Lemma tryDownload_first_success_witness :
  download_second 1 "b" = None
  /\ Download.tryDownload download_second ["a"; "b"; "c"] = (None, ["a"; "b"]).
Proof.
  split; [reflexivity|].
  apply (proj1 (proj2 (tryDownload_first_success download_second ["a"; "b"; "c"]))
           1%nat "b"); [reflexivity | reflexivity |].
  intros j v Hv Hj. destruct j as [|j]; [|lia]. discriminate.
Defined.

Lemma argmax_first_maximum_witness :
  gt f32_one f32_neg_1e30 = true
  /\ exists m,
       [f32_zero; f32_one; f32_one] !! Z.to_nat (argmax [f32_zero; f32_one; f32_one])
       = Some m
       /\ gt m f32_neg_1e30 = true
       /\ (forall y, y ∈ [f32_zero; f32_one; f32_one] -> gt y m = false)
       /\ forall j y, [f32_zero; f32_one; f32_one] !! j = Some y ->
                      (j < Z.to_nat (argmax [f32_zero; f32_one; f32_one]))%nat ->
                      SFleb m y = false.
Proof.
  split; [reflexivity|].
  apply (proj2 (proj2 (argmax_first_maximum [f32_zero; f32_one; f32_one]))).
  exists f32_one. split; [|reflexivity].
  apply elem_of_cons. right. apply elem_of_cons. left. reflexivity.
Defined.


Lemma Decode_Encode_witness :
  strings_Fields "the  cat" <> []
  /\ Forall (known bpe) (strings_Fields "the  cat")
  /\ Decode bpe (Qwen.Encode bpe "the  cat") = Join (strings_Fields "the  cat") " ".
Proof.
  assert (strings_Fields "the  cat" <> []) as Hne by (vm_compute; discriminate).
  assert (Forall (known bpe) (strings_Fields "the  cat")) as Hk.
  { change (strings_Fields "the  cat") with ["the"; "cat"].
    repeat constructor; try discriminate.
    - exists 0. split; [reflexivity|]. split; [lia | reflexivity].
    - exists 1. split; [reflexivity|]. split; [lia | reflexivity]. }
  split; [exact Hne|]. split; [exact Hk|].
  apply (Decode_Encode bpe "the  cat" Hne Hk).
Defined.

Lemma loadBPETokenizer_id2token_witness :
  id2token (QwenLoad.loadBPETokenizer tokenizer_json
              (map_to_list (QwenLoad.Vocab tokenizer_json))) !! Z.to_nat 1
  = Some "cat".
Proof.
  assert (forall p1 p2 id,
            QwenLoad.Vocab tokenizer_json !! p1 = Some id ->
            QwenLoad.Vocab tokenizer_json !! p2 = Some id -> p1 = p2) as Hinj.
  { intros p1 p2 id H1 H2.
    apply elem_of_map_to_list in H1. apply elem_of_map_to_list in H2.
    let l := eval vm_compute in (map_to_list (QwenLoad.Vocab tokenizer_json)) in
    change (map_to_list (QwenLoad.Vocab tokenizer_json)) with l in H1, H2.
    repeat match goal with
           | H : _ ∈ _ :: _ |- _ => apply elem_of_cons in H as [H|H]
           | H : _ ∈ [] |- _ => apply elem_of_nil in H; destruct H
           end; congruence. }
  apply (proj1 (proj2 (loadBPETokenizer_id2token tokenizer_json
                         (map_to_list (QwenLoad.Vocab tokenizer_json))
                         (reflexivity _) Hinj))
           "cat" 1); [reflexivity|].
  vm_compute. split; [discriminate | reflexivity].
Defined.

Lemma loadBPETokenizer_eos_witness :
  IsEOS (QwenLoad.loadBPETokenizer tokenizer_json []) 9 = true.
Proof.
  apply (proj1 (loadBPETokenizer_eos tokenizer_json [] 9)).
  split; [lia|].
  exists 1%nat, {| QwenLoad.ID := 9; QwenLoad.Content := "<|endoftext|>";
                   QwenLoad.Special := true |}.
  split; [reflexivity|]. split; [reflexivity|]. split; [reflexivity|].
  intros j b Hb Hj. destruct j as [|j]; [|lia].
  inversion Hb; subst b. reflexivity.
Defined.

Lemma session_runs_bounded_witness :
  eosTokenID (tok qwen) < 0
  /\ Generate_run qwen background "the cat sat" 3
     = (st_generated, Return "the cat sat cat cat cat" None)
  /\ length (runs st_generated) = Z.to_nat (budget 3).
Proof.
  assert (eosTokenID (tok qwen) < 0) as He by (cbn; lia).
  assert (Generate_run qwen background "the cat sat" 3
          = (st_generated, Return "the cat sat cat cat cat" None)) as Hr
    by (vm_compute; reflexivity).
  split; [exact He|]. split; [exact Hr|].
  apply (proj2 (proj2 (session_runs_bounded qwen background "the cat sat" 3 false))
           He st_generated "the cat sat cat cat cat" Hr).
Defined.

Lemma Generate_error_without_text_witness :
  Generate qwen_fail background "the cat sat" 3
  = Return "" (Some (ErrRuntime "run failed"))
  /\ "" = "".
Proof.
  assert (Generate qwen_fail background "the cat sat" 3
          = Return "" (Some (ErrRuntime "run failed"))) as Hg
    by (vm_compute; reflexivity).
  split; [exact Hg|].
  apply (Generate_error_without_text qwen_fail background "the cat sat" 3
           "" (ErrRuntime "run failed") Hg).
Defined.

Lemma callback_texts_witness :
  start qwen "the cat sat" = Some st_prompt
  /\ GenerateWithCallback_run qwen background "the cat sat" 2 true
     = (st_streamed, Return "the cat sat cat cat" None)
  /\ exists k,
       (k <= Z.to_nat (budget 2))%nat
       /\ cbs st_streamed
          = streamed (tok qwen) (length (ids st_prompt)) (ids st_streamed) k
       /\ "the cat sat cat cat" = List.last (cbs st_streamed) ""
       /\ take (length (ids st_prompt)) (ids st_streamed) = ids st_prompt.
Proof.
  assert (start qwen "the cat sat" = Some st_prompt) as Hs by reflexivity.
  assert (GenerateWithCallback_run qwen background "the cat sat" 2 true
          = (st_streamed, Return "the cat sat cat cat" None)) as Hr
    by (vm_compute; reflexivity).
  split; [exact Hs|]. split; [exact Hr|].
  apply (callback_texts qwen background "the cat sat" 2 st_prompt st_streamed
           "the cat sat cat cat" None Hs Hr).
Defined.

Lemma start_keeps_recent_witness :
  start qwen "the cat sat" = Some st_prompt
  /\ ids st_prompt
     = drop (length (Qwen.Encode (tok qwen) "the cat sat") - Z.to_nat (maxLen qwen))
            (Qwen.Encode (tok qwen) "the cat sat")
  /\ Z.of_nat (length (ids st_prompt))
     = Z.min (Z.of_nat (length (Qwen.Encode (tok qwen) "the cat sat"))) (maxLen qwen).
Proof.
  assert (start qwen "the cat sat" = Some st_prompt) as Hs by reflexivity.
  split; [exact Hs|].
  apply (proj2 (start_keeps_recent qwen "the cat sat") st_prompt Hs).
Defined.

Lemma embedOne_panics_iff_witness :
  HashEmbed.dim hash0 mod 2 ^ 32 = 0
  /\ wordRE_FindAllString (strings_ToLower "x") <> []
  /\ HashEmbed.embedOne hash0 "x" = None
  /\ HashEmbed.embedOne hash0 "?"
     = Some (replicate (Z.to_nat (HashEmbed.dim hash0)) f32_zero).
Proof.
  assert (HashEmbed.dim hash0 mod 2 ^ 32 = 0) as Hd by reflexivity.
  assert (wordRE_FindAllString (strings_ToLower "x") <> []) as Ht
    by (vm_compute; discriminate).
  split; [exact Hd|]. split; [exact Ht|]. split.
  - apply (proj1 (embedOne_panics_iff hash0 "x")). right. split; [exact Hd | exact Ht].
  - apply (proj2 (proj2 (embedOne_panics_iff hash0 "?"))); [cbn; lia | reflexivity].
Defined.

Lemma embedOne_single_word_witness :
  0 < HashEmbed.dim (HashEmbed.New cfg0) < 2 ^ 32
  /\ wordRE_FindAllString (strings_ToLower "x") = ["x"]
  /\ HashEmbed.embedOne (HashEmbed.New cfg0) "x"
     = Some (<[Z.to_nat (HashEmbed.hash "x" mod HashEmbed.dim (HashEmbed.New cfg0)) :=
                 if Z.land (HashEmbed.hash ("x" +:+ "_alt")) 1 =? 1
                 then f32_neg_one else f32_one]>
               (replicate (Z.to_nat (HashEmbed.dim (HashEmbed.New cfg0))) f32_zero)).
Proof.
  assert (0 < HashEmbed.dim (HashEmbed.New cfg0) < 2 ^ 32) as Hd by (cbn; lia).
  assert (wordRE_FindAllString (strings_ToLower "x") = ["x"]) as Ht by reflexivity.
  split; [exact Hd|]. split; [exact Ht|].
  apply (proj2 (embedOne_single_word (HashEmbed.New cfg0) "x" "x" Hd Ht)).
Defined.

Lemma handleEmbeddings_service_calls_witness :
  Server.handleEmbeddings svc_const
    (Some (Server.AArray [Server.EOther; Server.EString "a"]))
  = (Server.EmbeddingsResponse "m" [[f32_one]], [["a"]])
  /\ exists inputs,
       [["a"]] = [inputs] /\ svc_const inputs = ([[f32_one]], "m", None).
Proof.
  assert (Server.handleEmbeddings svc_const
            (Some (Server.AArray [Server.EOther; Server.EString "a"]))
          = (Server.EmbeddingsResponse "m" [[f32_one]], [["a"]])) as Hr
    by reflexivity.
  split; [exact Hr|].
  exact (proj2 (proj2 (handleEmbeddings_service_calls svc_const _ _ _ Hr))).
Defined.

Lemma Embed_dimensions_witness :
  exists out,
    MiniLM.Embed rt_minilm minilm ["a"] = Some (Some out, MiniLM.model_name, None)
    /\ length out = length ["a"]
    /\ Forall (fun vec => length vec = Z.to_nat 2) out.
Proof.
  apply (Embed_dimensions rt_minilm minilm ["a"] 2).
  - cbn. lia.
  - lia.
  - discriminate.
  - cbn. lia.
  - cbn. lia.
  - reflexivity.
  - intros I A T. exists 1, (replicate 256 f32_one). split; reflexivity.
Defined.

Lemma pool_ignores_padding_witness :
  MiniLM.pool 1 2 [1; 0] 2 1 [f32_one; f32_zero]
  = MiniLM.pool 1 2 [1; 0] 2 1 [f32_one; f32_one].
Proof.
  apply (pool_ignores_padding 1 2 1 [1; 0]); [lia | lia | lia |].
  intros p d Hp Hd Hm.
  destruct p as [|[|p]]; [| |lia].
  - destruct d as [|d]; [reflexivity | lia].
  - destruct Hm. reflexivity.
Defined.


End MoreScenarios.
